(** * pysim5g.generate_hex: hexagonal cell areas and their selection

    A shallow embedding of [src/pysim5g/generate_hex.py] and the
    properties of its tessellation and cell selection.

    Numbers.  The program computes with Python floats.  The geometry of
    the hexagons and the selection of the cells are developed over the
    real numbers: every arithmetic operation is exact, [math.pi] is
    [PI], [math.tan] and [math.cos] are [tan] and [cos].  Rounding is not
    modelled there, so a statement "within floating tolerance" of the
    informal specification reads as an equality, and the loops run as
    often as they do in exact arithmetic.  Where rounding decides the
    outcome (whether a loop runs at all, whether it ends, how many
    hexagons a row gets) the module [Binary64] has the tessellator once
    more, on IEEE 754 binary64 numbers; its properties are in the last
    part.  Python integers ([row], [counter], [id_num], [site_id]) are
    integers of [Z].

    Loops.  The two [while] loops of [calculate_polygons] do not terminate
    for every input, so they take a step budget ([fuel]); a run that
    exhausts its budget yields [OutOfFuel].  [returns f a] says that the
    run [f] produces [a] for every large enough budget.

    Exceptions.  A Python exception is identified by the name of its
    class.

    Libraries.  The reprojection (pyproj) and the buffering of the point
    (shapely) are parameters of the pipeline; the centroid of a ring
    (shapely) and the nearest-neighbour index (rtree) are modelled by
    definitions of their own.  Reading the configuration and writing
    shapefiles are left out. *)

From Stdlib Require Import Reals Lra Psatz List ZArith String Lia.
From Stdlib Require Import Sorted Permutation.
From Stdlib Require Floats.
Import ListNotations.
Open Scope R_scope.

(** ** Results of a run *)

Inductive result (A : Type) : Type :=
| Ok (a : A)
| Raise (e : string)
| OutOfFuel.

Arguments Ok {A} a.
Arguments Raise {A} e.
Arguments OutOfFuel {A}.

Definition bind {A B : Type} (m : result A) (k : A -> result B) : result B :=
  match m with
  | Ok a => k a
  | Raise e => Raise e
  | OutOfFuel => OutOfFuel
  end.

Notation "x <- m ;; k" := (bind m (fun x => k))
  (at level 61, m at next level, right associativity).

(** [returns f a]: the run [f] terminates with [a]; [n] is a budget that
    suffices, and so does every larger one. *)
Definition returns {A : Type} (f : nat -> result A) (a : A) : Prop :=
  exists n : nat, forall fuel : nat, (n <= fuel)%nat -> f fuel = Ok a.

(** ** Geometry *)

(** A coordinate tuple [(x, y)]. *)
Definition Point : Type := (R * R)%type.

(** A ring of coordinate tuples, as [calculate_polygons] builds it. *)
Definition Polygon : Type := list Point.

(** [math.radians]. *)
Definition radians (deg : R) : R := deg * (PI / 180).

(** The Euclidean distance of two points. *)
Definition distance (a c : Point) : R :=
  sqrt ((fst a - fst c) * (fst a - fst c) + (snd a - snd c) * (snd a - snd c)).

(** The segments of a ring, in order. *)
Fixpoint edges (ring : Polygon) : list (Point * Point) :=
  match ring with
  | a :: (c :: _) as rest => (a, c) :: edges rest
  | _ => []
  end.

(** The length of a segment. *)
Definition segment_length (e : Point * Point) : R := distance (fst e) (snd e).

(** ** [calculate_polygons] *)

(** The variables the loops of [calculate_polygons] assign. *)
Record locals : Type := mkLocals {
  startx : R;
  starty : R;
  row : Z;
  counter : Z;
  polygons : list Polygon
}.

Section Loops.

(** What the loops read and never assign. *)
Variables (p b w h : R).
Variables (origx endx endy : R).
Variables (xoffset yoffset : R).

(** The list [poly] of lines 139-158, for the anchor [(sx, sy)]. *)
Definition poly (sx sy : R) : Polygon :=
  let p1x := sx in
  let p1y := sy + p in
  let p2x := sx in
  let p2y := sy + (3 * p) in
  let p3x := sx + b in
  let p3y := sy + h in
  let p4x := sx + w in
  let p4y := sy + (3 * p) in
  let p5x := sx + w in
  let p5y := sy + p in
  let p6x := sx + b in
  let p6y := sy in
  [ (p1x, p1y); (p2x, p2y); (p3x, p3y); (p4x, p4y); (p5x, p5y);
    (p6x, p6y); (p1x, p1y) ].

(** Lines 139-163: one hexagon is appended, then [counter += 1] and
    [startx += w]. *)
Definition column_step (st : locals) : locals :=
  {| startx := startx st + w;
     starty := starty st;
     row := row st;
     counter := counter st + 1;
     polygons := polygons st ++ [poly (startx st) (starty st)] |}.

(** Line 138: [while startx < endx]. *)
Fixpoint while_startx (fuel : nat) (st : locals) : result locals :=
  if Rlt_dec (startx st) endx then
    match fuel with
    | O => OutOfFuel
    | S fuel' => while_startx fuel' (column_step st)
    end
  else Ok st.

(** Lines 132-136: the row's first anchor; even rows are shifted. *)
Definition row_begin (st : locals) : locals :=
  {| startx := if (row st mod 2 =? 0)%Z then origx + xoffset else origx;
     starty := starty st;
     row := row st;
     counter := counter st;
     polygons := polygons st |}.

(** Lines 165-166: [starty += yoffset] and [row += 1]. *)
Definition row_end (st : locals) : locals :=
  {| startx := startx st;
     starty := starty st + yoffset;
     row := row st + 1;
     counter := counter st;
     polygons := polygons st |}.

(** Line 130: [while starty < endy]. *)
Fixpoint while_starty (fuel : nat) (st : locals) : result locals :=
  if Rlt_dec (starty st) endy then
    match fuel with
    | O => OutOfFuel
    | S fuel' =>
        st' <- while_startx fuel' (row_begin st) ;;
        while_starty fuel' (row_end st')
    end
  else Ok st.

(** *** The grid the loops build, in closed form *)

(** The hexagons one run of the inner loop appends: [n] of them, from
    the anchor [(sx, sy)] rightwards. *)
Definition row_polygons (sx sy : R) (n : nat) : list Polygon :=
  map (fun j => poly (sx + INR j * w) sy) (seq 0 n).

(** The first anchor of row number [r]. *)
Definition row_origin (r : Z) : R :=
  if (r mod 2 =? 0)%Z then origx + xoffset else origx.

(** The rows from the anchor height [sy] and the row number [r]
    upwards; row [k] of them holds [nth k ns] hexagons. *)
Fixpoint grid_polygons (sy : R) (r : Z) (ns : list nat) : list Polygon :=
  match ns with
  | [] => []
  | n :: ns' =>
      row_polygons (row_origin r) sy n ++ grid_polygons (sy + yoffset) (r + 1) ns'
  end.

(** [ns] is what the loops count: each row runs as long as its anchor is
    left of [endx], and the rows as long as they are below [endy]. *)
Fixpoint grid_counts (sy : R) (r : Z) (ns : list nat) : Prop :=
  match ns with
  | [] => ~ sy < endy
  | n :: ns' =>
      sy < endy /\
      (forall j : nat, (j < n)%nat -> row_origin r + INR j * w < endx) /\
      ~ row_origin r + INR n * w < endx /\
      grid_counts (sy + yoffset) (r + 1) ns'
  end.

End Loops.

Definition calculate_polygons (fuel : nat) (startx starty endx endy radius : R)
  : result (list Polygon) :=
  let sl := (2 * radius) * tan (PI / 6) in
  let p := sl * 0.5 in
  let b := sl * cos (radians 30) in
  let w := b * 2 in
  let h := 2 * sl in
  let startx := startx - w in
  let starty := starty - h in
  let endx := endx + w in
  let endy := endy + h in
  let origx := startx in
  let origy := starty in
  let xoffset := b in
  let yoffset := 3 * p in
  st <- while_starty p b w h origx endx endy xoffset yoffset fuel
          (mkLocals startx starty 1 0 []) ;;
  Ok (polygons st).

(** The constants of lines 99-110, as functions of the radius. *)
Definition side_length (radius : R) : R := (2 * radius) * tan (PI / 6).
Definition hex_p (radius : R) : R := side_length radius * 0.5.
Definition hex_b (radius : R) : R := side_length radius * cos (radians 30).
Definition hex_w (radius : R) : R := hex_b radius * 2.
Definition hex_h (radius : R) : R := 2 * side_length radius.

(** The grid [calculate_polygons] builds for the rectangle that starts at
    [(startx, starty)], with [nth k ns] hexagons in its row [k]. *)
Definition tessellation (startx starty radius : R) (ns : list nat) : list Polygon :=
  grid_polygons (hex_p radius) (hex_b radius) (hex_w radius) (hex_h radius)
                (startx - hex_w radius) (hex_b radius) (3 * hex_p radius)
                (starty - hex_h radius) 1 ns.

(** ** Features *)

(** A hexagon of [generate_cell_areas]: the GeoJSON dict with the keys
    ['geometry']['coordinates'] (a list of rings), ['centroid'] and
    ['properties']['site_id']. *)
Record feature : Type := mkFeature {
  coordinates : list Polygon;
  centroid : Point;
  site_id : Z
}.

(** The ['site_id'] of a site: the string ['transmitter'] or the integer
    of an interfering cell. *)
Inductive site_label : Type :=
| Name (s : string)
| Number (z : Z).

(** A site of [find_site_locations]: a point and its ['site_id']. *)
Record site : Type := mkSite {
  location : Point;
  label : site_label
}.

(** [l[0]] of a Python list. *)
Definition item0 {A : Type} (l : list A) : result A :=
  match l with
  | [] => Raise "IndexError"
  | a :: _ => Ok a
  end.

(** [l[i:j]] of a Python list, for [i <= j]. *)
Definition slice {A : Type} (i j : nat) (l : list A) : list A :=
  firstn (j - i) (skipn i l).

(** ** The centroid of a ring (shapely's [Polygon(ring).centroid])

    The centre of mass of the area the ring encloses.  For a ring of area
    zero the library falls back on the centre of mass of its segments,
    and on its first point when they all have length zero.

    This is the centroid of a ring that the library takes as it is: a
    closed ring of at least four points ([linear_ring] below), as every
    ring of [calculate_polygons] is.  The library closes a ring that is
    not closed, rejects a ring of one or two points with [ValueError] and
    makes an empty polygon of an empty ring; none of that is modelled,
    and on such rings the value of [polygon_centroid] stands for
    nothing. *)

Definition sum (l : list R) : R := fold_right Rplus 0 l.

(** The term of a segment in twice the signed area of its ring. *)
Definition shoelace (e : Point * Point) : R :=
  let (a, c) := e in fst a * snd c - fst c * snd a.

(** The centre of mass of the enclosed area. *)
Definition area_centroid (ring : Polygon) : Point :=
  let es := edges ring in
  let a2 := sum (map shoelace es) in
  (sum (map (fun e => (fst (fst e) + fst (snd e)) * shoelace e) es) / (3 * a2),
   sum (map (fun e => (snd (fst e) + snd (snd e)) * shoelace e) es) / (3 * a2)).

(** The centre of mass of the segments. *)
Definition line_centroid (ring : Polygon) : Point :=
  let es := edges ring in
  let len := sum (map segment_length es) in
  (sum (map (fun e => segment_length e * ((fst (fst e) + fst (snd e)) / 2)) es) / len,
   sum (map (fun e => segment_length e * ((snd (fst e) + snd (snd e)) / 2)) es) / len).

(** [Polygon(ring).centroid]. *)
Definition polygon_centroid (ring : Polygon) : Point :=
  if Req_dec_T (sum (map shoelace (edges ring))) 0 then
    if Req_dec_T (sum (map segment_length (edges ring))) 0 then
      hd (0, 0) ring
    else line_centroid ring
  else area_centroid ring.

(** ** The nearest-neighbour index (rtree's [index.Index]) *)

(** An entry of the index: the box it was inserted with and the object.
    Every box of this program is the bounds [(x, y, x, y)] of a point and
    is represented by that point. *)
Definition entry : Type := (Point * feature)%type.

(** Where [e] goes among entries in ascending order of distance to [q]:
    before the first that is not nearer. *)
Fixpoint insert_by_distance (q : Point) (e : entry) (l : list entry) : list entry :=
  match l with
  | [] => [e]
  | e' :: l' =>
      if Rle_dec (distance (fst e) q) (distance (fst e') q)
      then e :: e' :: l'
      else e' :: insert_by_distance q e l'
  end.

(** The entries in ascending order of distance to [q]; entries at the same
    distance stay in the order of [idx]. *)
Definition by_distance (q : Point) (idx : list entry) : list entry :=
  fold_right (insert_by_distance q) [] idx.

(** Modelled from the spec: [nearest] of the spatial index, which is the
    rtree library and not part of the source.  The objects of the first
    [k] entries in ascending order of distance to the query, fewer when
    the index holds fewer; entries at the same distance come in the order
    the index was built in. *)
Definition nearest (idx : list entry) (q : Point) (k : nat) : list feature :=
  map snd (firstn k (by_distance q idx)).

(** ** [find_closest_cell_areas] *)

(** Lines 194-198: every site is inserted with the bounds of its
    ['centroid']. *)
Definition build_index (hexagons : list feature) : list entry :=
  map (fun site => (centroid site, site)) hexagons.

(** [geom_shape] is the transmitter's point; it is its own centroid. *)
Definition find_closest_cell_areas (hexagons : list feature) (geom_shape : Point)
  : result (list feature * list feature) :=
  let idx := build_index hexagons in
  let transmitter := geom_shape in
  cell_area <- item0 (nearest idx transmitter 1) ;;
  ring <- item0 (coordinates cell_area) ;;
  let closest_cell_area_centroid := polygon_centroid ring in
  let all_closest_sites := nearest idx closest_cell_area_centroid 7 in
  let interfering_cell_areas := slice 1 7 all_closest_sites in
  first <- item0 all_closest_sites ;;
  let cell_area := [first] in
  Ok (cell_area, interfering_cell_areas).

(** ** [find_site_locations] *)

Definition find_site_locations (cell_area interfering_cell_areas : list feature)
  : result (list site * list site) :=
  area <- item0 cell_area ;;
  ring <- item0 (coordinates area) ;;
  let cell_area_site := polygon_centroid ring in
  let transmitter := [mkSite cell_area_site (Name "transmitter")] in
  let interfering_transmitters :=
    map (fun interfering_cell =>
           mkSite (centroid interfering_cell) (Number (site_id interfering_cell)))
        interfering_cell_areas in
  Ok (transmitter, interfering_transmitters).

(** ** [generate_cell_areas] and [produce_sites_and_cell_areas] *)

(** Lines 306-321: the features of the polygons, numbered from [id_num]. *)
Fixpoint hexagons_from (id_num : Z) (polygon : list Polygon) : list feature :=
  match polygon with
  | [] => []
  | poly :: rest =>
      mkFeature [poly] (polygon_centroid poly) id_num
        :: hexagons_from (id_num + 1) rest
  end.

Section Pipeline.

(** The collaborators of the pipeline: the reprojection (pyproj) and the
    bounds of a buffered point (shapely's [buffer], [exterior] and
    [bounds]). *)
Variable convert_point_to_projected_crs : Point -> Point.
Variable buffered_bounds : Point -> R -> R * R * R * R.

Definition generate_cell_areas (fuel : nat) (point : Point) (cell_radius : R)
  : result (list feature * list feature) :=
  let geom_shape := point in
  let '(minx, miny, maxx, maxy) := buffered_bounds geom_shape (cell_radius * 2) in
  polygon <- calculate_polygons fuel minx miny maxx maxy cell_radius ;;
  let hexagons := hexagons_from 0 polygon in
  find_closest_cell_areas hexagons geom_shape.

Definition produce_sites_and_cell_areas (fuel : nat) (unprojected_point : Point)
  (cell_radius : R)
  : result (list site * list site * list feature * list feature) :=
  let point := convert_point_to_projected_crs unprojected_point in
  areas <- generate_cell_areas fuel point cell_radius ;;
  let '(cell_area, interfering_cell_areas) := areas in
  sites <- find_site_locations cell_area interfering_cell_areas ;;
  let '(transmitter, interfering_transmitters) := sites in
  Ok (transmitter, interfering_transmitters, cell_area, interfering_cell_areas).

End Pipeline.

(** The bounds of a point buffered by a positive distance: the box of the
    disc around it. *)
Definition disc_bounds (pt : Point) (d : R) : R * R * R * R :=
  (fst pt - d, snd pt - d, fst pt + d, snd pt + d).

(** What the pipeline needs of the buffering collaborator. *)
Definition buffers_discs (buffered_bounds : Point -> R -> R * R * R * R) : Prop :=
  forall (pt : Point) (d : R), 0 < d -> buffered_bounds pt d = disc_bounds pt d.

(** ** The vocabulary of the properties *)

(** A cell as [generate_cell_areas] builds it: one ring, and the centroid
    of that ring. *)
Definition is_cell (c : feature) : Prop :=
  exists ring : Polygon, coordinates c = [ring] /\ centroid c = polygon_centroid ring.

(** The entry [e1] is to be preferred to [e2] as an answer to the query
    [q]: it is nearer, or as near and of no higher [site_id]. *)
Definition preferred (q : Point) (e1 e2 : entry) : Prop :=
  distance (fst e1) q < distance (fst e2) q \/
  (distance (fst e1) q = distance (fst e2) q /\
   (site_id (snd e1) <= site_id (snd e2))%Z).

(** A closed ring of six distinct corners whose six segments all have the
    length [side]. *)
Definition hexagon_ring (side : R) (ring : Polygon) : Prop :=
  List.length ring = 7%nat /\
  last ring (0, 0) = hd (0, 0) ring /\
  NoDup (removelast ring) /\
  Forall (fun e => segment_length e = side) (edges ring).

(** The first vertex of a ring; for a hexagon of the tessellator its lower
    left corner. *)
Definition anchor (ring : Polygon) : Point := hd (0, 0) ring.

(** Row-major order of two rings: the first lies in a lower row, or in the
    same row and further left. *)
Definition row_major (r1 r2 : Polygon) : Prop :=
  snd (anchor r1) < snd (anchor r2) \/
  (snd (anchor r1) = snd (anchor r2) /\ fst (anchor r1) < fst (anchor r2)).

(** On which side of the segment from [a] to [c] the point [q] lies:
    negative to its right, positive to its left, zero on its line. *)
Definition cross (a c q : Point) : R :=
  (fst c - fst a) * (snd q - snd a) - (snd c - snd a) * (fst q - fst a).

(** The convex ring covers the point [q]: [q] is inside it or on its
    boundary, that is on the same side of all its segments, whichever way
    round the ring runs. *)
Definition covers (ring : Polygon) (q : Point) : Prop :=
  Forall (fun e => cross (fst e) (snd e) q <= 0) (edges ring) \/
  Forall (fun e => 0 <= cross (fst e) (snd e) q) (edges ring).

(** The point [q] lies strictly inside the convex ring: strictly on the
    same side of all its segments. *)
Definition strictly_inside (ring : Polygon) (q : Point) : Prop :=
  Forall (fun e => cross (fst e) (snd e) q < 0) (edges ring) \/
  Forall (fun e => 0 < cross (fst e) (snd e) q) (edges ring).

(** The hexagon whose anchor lies [i] steps of [b] right of and [k] rows
    above the first anchor [(origx, origy)] of a grid, and its centre. *)
Definition lattice_hexagon (p b origx origy : R) (i k : Z) : Polygon :=
  poly p b (2 * b) (4 * p) (origx + IZR i * b) (origy + IZR k * (3 * p)).

Definition lattice_centre (p b origx origy : R) (i k : Z) : Point :=
  (origx + IZR i * b + b, origy + IZR k * (3 * p) + 2 * p).

(** The steps from a hexagon of the lattice to its six neighbours. *)
Definition neighbour_steps : list (Z * Z) :=
  [(2, 0); (-2, 0); (1, 1); (1, -1); (-1, 1); (-1, -1)]%Z.

(** The ring moved by [dx] to the right and by [dy] upwards. *)
Definition translate (dx dy : R) (ring : Polygon) : Polygon :=
  map (fun v => (fst v + dx, snd v + dy)) ring.

(** A ring that shapely's [Polygon] takes as it is: closed, and of at
    least four points. *)
Definition linear_ring (ring : Polygon) : Prop :=
  (4 <= List.length ring)%nat /\ last ring (0, 0) = hd (0, 0) ring.

(** * The tessellator on binary64 numbers

    [calculate_polygons] once more, with the numbers of the program:
    Python's floats are IEEE 754 binary64 numbers, and every operation
    rounds to the nearest of them.  The loops of the tessellator compare
    rounded sums, so how often they run, and whether they end, is decided
    here and not over the real numbers.  The tangent and the cosine
    ([math.tan], [math.cos]) are functions of the C library and are
    parameters. *)

Module Binary64.

Import Floats.
Local Open Scope float_scope.

(** A coordinate tuple and a ring. *)
Definition Point : Type := (float * float)%type.
Definition Polygon : Type := list Point.

(** [math.pi]. *)
Definition pi : float := 0x1.921fb54442d18p+1.

(** [math.radians]: the product with [pi / 180]. *)
Definition radians (deg : float) : float := deg * (pi / 180).

(** The variables the loops of [calculate_polygons] assign. *)
Record locals : Type := mkLocals {
  startx : float;
  starty : float;
  row : Z;
  counter : Z;
  polygons : list Polygon
}.

Section Loops.

(** What the loops read and never assign. *)
Variables (p b w h : float).
Variables (origx endx endy : float).
Variables (xoffset yoffset : float).

(** The list [poly] of lines 139-158, for the anchor [(sx, sy)]. *)
Definition poly (sx sy : float) : Polygon :=
  let p1x := sx in
  let p1y := sy + p in
  let p2x := sx in
  let p2y := sy + (3 * p) in
  let p3x := sx + b in
  let p3y := sy + h in
  let p4x := sx + w in
  let p4y := sy + (3 * p) in
  let p5x := sx + w in
  let p5y := sy + p in
  let p6x := sx + b in
  let p6y := sy in
  [ (p1x, p1y); (p2x, p2y); (p3x, p3y); (p4x, p4y); (p5x, p5y);
    (p6x, p6y); (p1x, p1y) ].

(** Lines 139-163: one hexagon is appended, then [counter += 1] and
    [startx += w]. *)
Definition column_step (st : locals) : locals :=
  {| startx := startx st + w;
     starty := starty st;
     row := row st;
     counter := (counter st + 1)%Z;
     polygons := polygons st ++ [poly (startx st) (starty st)] |}.

(** Line 138: [while startx < endx]. *)
Fixpoint while_startx (fuel : nat) (st : locals) : result locals :=
  if startx st <? endx then
    match fuel with
    | O => OutOfFuel
    | S fuel' => while_startx fuel' (column_step st)
    end
  else Ok st.

(** Lines 132-136: the row's first anchor; even rows are shifted. *)
Definition row_begin (st : locals) : locals :=
  {| startx := if (row st mod 2 =? 0)%Z then origx + xoffset else origx;
     starty := starty st;
     row := row st;
     counter := counter st;
     polygons := polygons st |}.

(** Lines 165-166: [starty += yoffset] and [row += 1]. *)
Definition row_end (st : locals) : locals :=
  {| startx := startx st;
     starty := starty st + yoffset;
     row := (row st + 1)%Z;
     counter := counter st;
     polygons := polygons st |}.

(** Line 130: [while starty < endy]. *)
Fixpoint while_starty (fuel : nat) (st : locals) : result locals :=
  if starty st <? endy then
    match fuel with
    | O => OutOfFuel
    | S fuel' =>
        st' <- while_startx fuel' (row_begin st) ;;
        while_starty fuel' (row_end st')
    end
  else Ok st.

End Loops.

Section Tessellator.

(** [math.tan] and [math.cos]. *)
Variables (tan cos : float -> float).

(** The constants of lines 99-110, as functions of the radius. *)
Definition side_length (radius : float) : float := (2 * radius) * tan (pi / 6).
Definition hex_p (radius : float) : float := side_length radius * 0.5.
Definition hex_b (radius : float) : float := side_length radius * cos (radians 30).
Definition hex_w (radius : float) : float := hex_b radius * 2.
Definition hex_h (radius : float) : float := 2 * side_length radius.

Definition calculate_polygons (fuel : nat) (startx starty endx endy radius : float)
  : result (list Polygon) :=
  let sl := (2 * radius) * tan (pi / 6) in
  let p := sl * 0.5 in
  let b := sl * cos (radians 30) in
  let w := b * 2 in
  let h := 2 * sl in
  let startx := startx - w in
  let starty := starty - h in
  let endx := endx + w in
  let endy := endy + h in
  let origx := startx in
  let origy := starty in
  let xoffset := b in
  let yoffset := 3 * p in
  st <- while_starty p b w h origx endx endy xoffset yoffset fuel
          (mkLocals startx starty 1 0 []) ;;
  Ok (polygons st).

End Tessellator.

(** The two calls of the C library that the program makes, both at
    0.5235987755982988, which is [pi / 6] and [radians 30] alike: the
    binary64 numbers nearest to the tangent and to the cosine there,
    0.5773502691896257 and 0.8660254037844387, as the GNU C library
    returns them. *)
Definition tan_pi_6 : float := 0x1.279a74590331cp-1.
Definition cos_pi_6 : float := 0x1.bb67ae8584cabp-1.

End Binary64.

(** * Properties *)

(** ** Results and lists *)

Lemma bind_Ok {A B : Type} (m : result A) (k : A -> result B) (y : B) :
  bind m k = Ok y -> exists a, m = Ok a /\ k a = Ok y.
Proof.
  destruct m as [a | e |]; simpl; intros E; try discriminate.
  exists a. split; [reflexivity | exact E].
Qed.

Lemma sorted_app {A : Type} (lt : A -> A -> Prop) (l1 l2 : list A) :
  StronglySorted lt l1 -> StronglySorted lt l2 ->
  (forall a c : A, In a l1 -> In c l2 -> lt a c) ->
  StronglySorted lt (l1 ++ l2).
Proof.
  induction l1 as [| x l1 IH]; intros H1 H2 H12; simpl; [exact H2 |].
  apply StronglySorted_inv in H1. destruct H1 as [H1 Hx].
  constructor.
  - apply IH; [exact H1 | exact H2 |]. intros a c Ha Hc. apply H12; [right |]; assumption.
  - apply Forall_app. split; [exact Hx |].
    rewrite Forall_forall. intros c Hc. apply H12; [left; reflexivity | exact Hc].
Qed.

Lemma NoDup_map_inj {A B : Type} (f : A -> B) (l : list A) (a a' : A) :
  NoDup (map f l) -> In a l -> In a' l -> f a = f a' -> a = a'.
Proof.
  induction l as [| x l IH]; intros Hnd Ha Ha' E; [contradiction |].
  simpl in Hnd. apply NoDup_cons_iff in Hnd. destruct Hnd as [Hx Hnd].
  destruct Ha as [<- | Ha], Ha' as [<- | Ha'].
  - reflexivity.
  - exfalso. apply Hx. rewrite E. apply in_map, Ha'.
  - exfalso. apply Hx. rewrite <- E. apply in_map, Ha.
  - apply IH; assumption.
Qed.

Lemma firstn_incl {A : Type} (k : nat) (l : list A) (a : A) :
  In a (firstn k l) -> In a l.
Proof. rewrite <- (firstn_skipn k l) at 2. intros H. apply in_or_app. left. exact H. Qed.

Lemma NoDup_firstn {A : Type} (k : nat) (l : list A) : NoDup l -> NoDup (firstn k l).
Proof.
  rewrite <- (firstn_skipn k l) at 1. apply NoDup_app_remove_r.
Qed.

(** ** The loops of [calculate_polygons] *)

Section LoopFacts.

Variables (p b w h : R).
Variables (origx endx endy : R).
Variables (xoffset yoffset : R).

Local Abbreviation poly := (poly p b w h).
Local Abbreviation while_startx := (while_startx p b w h endx).
Local Abbreviation while_starty := (while_starty p b w h origx endx endy xoffset yoffset).
Local Abbreviation row_begin := (row_begin origx xoffset).
Local Abbreviation row_end := (row_end yoffset).
Local Abbreviation row_polygons := (row_polygons p b w h).
Local Abbreviation row_origin := (row_origin origx xoffset).
Local Abbreviation grid_polygons := (grid_polygons p b w h origx xoffset yoffset).
Local Abbreviation grid_counts := (grid_counts w origx endx endy xoffset yoffset).

Lemma row_polygons_S (sx sy : R) (n : nat) :
  row_polygons sx sy (S n) = poly sx sy :: row_polygons (sx + w) sy n.
Proof.
  unfold row_polygons. cbn [seq map]. f_equal.
  - f_equal. simpl. ring.
  - rewrite <- seq_shift, map_map. apply map_ext. intros j.
    f_equal. rewrite S_INR. ring.
Qed.

Lemma while_startx_eq (fuel : nat) (st : locals) :
  while_startx fuel st =
  if Rlt_dec (startx st) endx then
    match fuel with
    | O => OutOfFuel
    | S fuel' => while_startx fuel' (column_step p b w h st)
    end
  else Ok st.
Proof. destruct fuel; reflexivity. Qed.

Lemma while_starty_eq (fuel : nat) (st : locals) :
  while_starty fuel st =
  if Rlt_dec (starty st) endy then
    match fuel with
    | O => OutOfFuel
    | S fuel' =>
        st' <- while_startx fuel' (row_begin st) ;;
        while_starty fuel' (row_end st')
    end
  else Ok st.
Proof. destruct fuel; reflexivity. Qed.

(** What a finished run of the inner loop leaves behind. *)
Lemma while_startx_Ok (fuel : nat) :
  forall st st' : locals,
    while_startx fuel st = Ok st' ->
    exists n : nat,
      startx st' = startx st + INR n * w /\
      starty st' = starty st /\
      row st' = row st /\
      counter st' = (counter st + Z.of_nat n)%Z /\
      polygons st' = polygons st ++ row_polygons (startx st) (starty st) n /\
      (forall j : nat, (j < n)%nat -> startx st + INR j * w < endx) /\
      ~ startx st + INR n * w < endx.
Proof.
  induction fuel as [| fuel IH]; intros st st' E;
    rewrite while_startx_eq in E;
    destruct (Rlt_dec (startx st) endx) as [Hlt | Hge]; try discriminate.
  1, 3: injection E as <-; exists 0%nat; simpl;
    rewrite app_nil_r, Z.add_0_r;
    repeat split; try lra; try lia.
  - apply IH in E. destruct E as (n & Hx & Hy & Hr & Hc & Hp & Hin & Hout).
    simpl in *. exists (S n). rewrite S_INR, row_polygons_S.
    repeat split.
    + rewrite Hx. ring.
    + exact Hy.
    + exact Hr.
    + rewrite Hc. lia.
    + rewrite Hp, <- app_assoc. reflexivity.
    + intros [| j] Hj.
      * simpl. lra.
      * rewrite S_INR.
        replace (startx st + (INR j + 1) * w) with (startx st + w + INR j * w) by ring.
        apply Hin. lia.
    + replace (startx st + (INR n + 1) * w) with (startx st + w + INR n * w) by ring.
      exact Hout.
Qed.

Lemma while_startx_no_raise (fuel : nat) :
  forall (st : locals) (e : string), while_startx fuel st <> Raise e.
Proof.
  induction fuel as [| fuel IH]; intros st e; rewrite while_startx_eq;
    destruct (Rlt_dec (startx st) endx); try discriminate.
  apply IH.
Qed.

Lemma while_starty_no_raise (fuel : nat) :
  forall (st : locals) (e : string), while_starty fuel st <> Raise e.
Proof.
  induction fuel as [| fuel IH]; intros st e; rewrite while_starty_eq;
    destruct (Rlt_dec (starty st) endy); try discriminate.
  destruct (while_startx fuel (row_begin st)) as [st' | e' |] eqn:E; simpl.
  - apply IH.
  - exfalso. exact (while_startx_no_raise _ _ _ E).
  - discriminate.
Qed.

(** *** Steps that do not advance *)

Lemma while_startx_stuck (fuel : nat) :
  w <= 0 ->
  forall st : locals, startx st < endx -> while_startx fuel st = OutOfFuel.
Proof.
  intros Hw. induction fuel as [| fuel IH]; intros st Hlt;
    rewrite while_startx_eq;
    destruct (Rlt_dec (startx st) endx); try lra; try reflexivity.
  apply IH. simpl. lra.
Qed.

Lemma while_starty_stuck (fuel : nat) :
  yoffset <= 0 ->
  forall st : locals, starty st < endy -> while_starty fuel st = OutOfFuel.
Proof.
  intros Hy. induction fuel as [| fuel IH]; intros st Hlt;
    rewrite while_starty_eq;
    destruct (Rlt_dec (starty st) endy); try lra; try reflexivity.
  destruct (while_startx fuel (row_begin st)) as [st' | e' |] eqn:E; simpl.
  - apply while_startx_Ok in E. destruct E as (n & _ & Hsy & _).
    apply IH. simpl in *. lra.
  - exfalso. exact (while_startx_no_raise _ _ _ E).
  - reflexivity.
Qed.

(** *** Termination *)

Lemma while_startx_terminates :
  0 < w ->
  forall (n : nat) (st : locals),
    endx - startx st <= INR n * w ->
    forall fuel : nat, (n <= fuel)%nat ->
    exists st' : locals, while_startx fuel st = Ok st'.
Proof.
  intros Hw. induction n as [| n IH]; intros st Hn fuel Hfuel;
    rewrite while_startx_eq;
    destruct (Rlt_dec (startx st) endx) as [Hlt | Hge];
    try (eexists; reflexivity).
  - simpl in Hn. lra.
  - destruct fuel as [| fuel]; [lia |].
    apply IH; [| lia]. rewrite S_INR in Hn. simpl. lra.
Qed.

Lemma while_starty_terminates :
  0 < w -> 0 < yoffset -> 0 <= xoffset ->
  forall N : nat, endx - origx <= INR N * w ->
  forall (m : nat) (st : locals),
    endy - starty st <= INR m * yoffset ->
    forall fuel : nat, (m + N <= fuel)%nat ->
    exists st' : locals, while_starty fuel st = Ok st'.
Proof.
  intros Hw Hy Hx N HN. induction m as [| m IH]; intros st Hm fuel Hfuel;
    rewrite while_starty_eq;
    destruct (Rlt_dec (starty st) endy) as [Hlt | Hge];
    try (eexists; reflexivity).
  - simpl in Hm. lra.
  - destruct fuel as [| fuel]; [lia |].
    destruct (while_startx_terminates Hw N (row_begin st)) with (fuel := fuel)
      as [st1 E1]; [| lia |].
    + simpl. destruct (row st mod 2 =? 0)%Z; lra.
    + rewrite E1. simpl.
      apply while_startx_Ok in E1. destruct E1 as (n & _ & Hsy & _).
      apply IH; [| lia]. rewrite S_INR in Hm. simpl in *. lra.
Qed.

(** *** The grid a finished run has built *)

Lemma while_starty_Ok (fuel : nat) :
  forall st st' : locals,
    while_starty fuel st = Ok st' ->
    exists ns : list nat,
      polygons st' = polygons st ++ grid_polygons (starty st) (row st) ns /\
      grid_counts (starty st) (row st) ns.
Proof.
  induction fuel as [| fuel IH]; intros st st' E;
    rewrite while_starty_eq in E;
    destruct (Rlt_dec (starty st) endy) as [Hlt | Hge]; try discriminate.
  1, 3: injection E as <-; exists []; simpl; rewrite app_nil_r; split; auto.
  apply bind_Ok in E. destruct E as (st1 & E1 & E2).
  apply while_startx_Ok in E1.
  destruct E1 as (n & _ & Hsy & Hr & _ & Hp & Hin & Hout).
  apply IH in E2. destruct E2 as (ns & Hps & Hns).
  simpl in *. rewrite Hsy, Hr in *.
  exists (n :: ns). simpl. split.
  - rewrite Hps, Hp, <- app_assoc. reflexivity.
  - repeat split; assumption.
Qed.

Lemma in_row_polygons (sx sy : R) (n : nat) (q : Polygon) :
  In q (row_polygons sx sy n) <->
  exists j : nat, (j < n)%nat /\ q = poly (sx + INR j * w) sy.
Proof.
  unfold row_polygons. rewrite in_map_iff. split.
  - intros (j & <- & Hj). apply in_seq in Hj. exists j. split; [lia | reflexivity].
  - intros (j & Hj & ->). exists j. split; [reflexivity | apply in_seq; lia].
Qed.

(** Every hexagon of the grid is the [poly] of an anchor in some row. *)
Lemma in_grid_polygons (ns : list nat) :
  forall (sy : R) (r : Z) (q : Polygon),
    In q (grid_polygons sy r ns) ->
    exists (sx : R) (k : nat), q = poly sx (sy + INR k * yoffset).
Proof.
  induction ns as [| n ns IH]; intros sy r q Hq; simpl in Hq; [contradiction |].
  apply in_app_or in Hq. destruct Hq as [Hq | Hq].
  - apply in_row_polygons in Hq. destruct Hq as (j & _ & ->).
    exists (row_origin r + INR j * w), 0%nat. f_equal. simpl. ring.
  - apply IH in Hq. destruct Hq as (sx & k & ->).
    exists sx, (S k). f_equal. rewrite S_INR. ring.
Qed.

(** Every anchor the loops reach is in the grid. *)
Lemma grid_polygons_complete :
  0 < w -> 0 < yoffset ->
  forall (ns : list nat) (sy : R) (r : Z),
    grid_counts sy r ns ->
    forall k j : nat,
      sy + INR k * yoffset < endy ->
      row_origin (r + Z.of_nat k) + INR j * w < endx ->
      In (poly (row_origin (r + Z.of_nat k) + INR j * w) (sy + INR k * yoffset))
         (grid_polygons sy r ns).
Proof.
  intros Hw Hy. induction ns as [| n ns IH]; intros sy r Hns k j Hk Hj; simpl in Hns.
  - pose proof (pos_INR k). nra.
  - destruct Hns as (_ & _ & Hout & Hns). simpl. apply in_or_app.
    destruct k as [| k].
    + left. replace (r + Z.of_nat 0)%Z with r in * by lia.
      replace (sy + INR 0 * yoffset) with sy by (simpl; ring).
      apply in_row_polygons. exists j. split; [| reflexivity].
      destruct (Nat.lt_ge_cases j n) as [Hlt | Hge]; [exact Hlt |].
      apply le_INR in Hge. exfalso. apply Hout. nra.
    + right. replace (r + Z.of_nat (S k))%Z with (r + 1 + Z.of_nat k)%Z in * by lia.
      rewrite S_INR in *.
      replace (sy + (INR k + 1) * yoffset) with (sy + yoffset + INR k * yoffset)
        in * by ring.
      apply IH; assumption.
Qed.

Lemma grid_polygons_nonempty (ns : list nat) (sy : R) (r : Z) :
  grid_counts sy r ns ->
  sy < endy -> origx + xoffset < endx -> origx < endx ->
  grid_polygons sy r ns <> [].
Proof.
  intros Hns Hy Hx1 Hx2. destruct ns as [| n ns]; simpl in *; [contradiction |].
  destruct Hns as (_ & _ & Hout & _).
  destruct n as [| n].
  - exfalso. apply Hout. simpl. unfold row_origin.
    destruct (r mod 2 =? 0)%Z; lra.
  - rewrite row_polygons_S. discriminate.
Qed.

(** *** A larger budget changes nothing *)

Lemma while_startx_mono (fuel : nat) :
  forall st st' : locals,
    while_startx fuel st = Ok st' ->
    forall fuel' : nat, (fuel <= fuel')%nat -> while_startx fuel' st = Ok st'.
Proof.
  induction fuel as [| fuel IH]; intros st st' E fuel' Hle;
    rewrite while_startx_eq in E; rewrite while_startx_eq;
    destruct (Rlt_dec (startx st) endx); try discriminate; try exact E.
  destruct fuel' as [| fuel']; [lia |]. apply IH; [exact E | lia].
Qed.

Lemma while_starty_mono (fuel : nat) :
  forall st st' : locals,
    while_starty fuel st = Ok st' ->
    forall fuel' : nat, (fuel <= fuel')%nat -> while_starty fuel' st = Ok st'.
Proof.
  induction fuel as [| fuel IH]; intros st st' E fuel' Hle;
    rewrite while_starty_eq in E; rewrite while_starty_eq;
    destruct (Rlt_dec (starty st) endy); try discriminate; try exact E.
  destruct fuel' as [| fuel']; [lia |].
  apply bind_Ok in E. destruct E as (st1 & E1 & E2).
  rewrite (while_startx_mono _ _ _ E1 fuel') by lia. simpl.
  apply IH; [exact E2 | lia].
Qed.

(** *** The order of the grid *)

Lemma anchor_poly (sx sy : R) : anchor (poly sx sy) = (sx, sy + p).
Proof. reflexivity. Qed.

Lemma row_polygons_sorted :
  0 < w ->
  forall (n : nat) (sx sy : R), StronglySorted row_major (row_polygons sx sy n).
Proof.
  intros Hw. induction n as [| n IH]; intros sx sy; [constructor |].
  rewrite row_polygons_S. constructor; [apply IH |].
  rewrite Forall_forall. intros q Hq.
  apply in_row_polygons in Hq. destruct Hq as (j & _ & ->).
  unfold row_major. rewrite !anchor_poly. simpl.
  right. split; [reflexivity |]. pose proof (pos_INR j). nra.
Qed.

Lemma grid_polygons_sorted :
  0 < w -> 0 < yoffset ->
  forall (ns : list nat) (sy : R) (r : Z),
    StronglySorted row_major (grid_polygons sy r ns).
Proof.
  intros Hw Hy. induction ns as [| n ns IH]; intros sy r; simpl; [constructor |].
  apply sorted_app; [apply row_polygons_sorted, Hw | apply IH |].
  intros q1 q2 H1 H2.
  apply in_row_polygons in H1. destruct H1 as (j & _ & ->).
  apply in_grid_polygons in H2. destruct H2 as (sx & k & ->).
  unfold row_major. rewrite !anchor_poly. simpl.
  left. pose proof (pos_INR k). nra.
Qed.

(** The counts of the rows are determined. *)
Lemma grid_counts_unique (ns : list nat) :
  forall (ns' : list nat) (sy : R) (r : Z),
    grid_counts sy r ns -> grid_counts sy r ns' -> ns = ns'.
Proof.
  induction ns as [| n ns IH]; intros [| n' ns'] sy r H H'; simpl in H, H'.
  - reflexivity.
  - destruct H' as [Hlt _]. contradiction.
  - destruct H as [Hlt _]. contradiction.
  - destruct H as (_ & Hin & Hout & Hrest), H' as (_ & Hin' & Hout' & Hrest').
    assert (n = n') as <-.
    { destruct (Nat.lt_trichotomy n n') as [Hlt | [Heq | Hgt]].
      - exfalso. apply Hout, Hin', Hlt.
      - exact Heq.
      - exfalso. apply Hout', Hin, Hgt. }
    f_equal. apply (IH ns' _ _ Hrest Hrest').
Qed.

(** A grid whose rows start at or right of [endx] has no hexagon. *)
Lemma grid_polygons_inverted :
  endx <= origx -> 0 <= xoffset ->
  forall (ns : list nat) (sy : R) (r : Z),
    grid_counts sy r ns -> grid_polygons sy r ns = [].
Proof.
  intros Hx Hoff. induction ns as [| n ns IH]; intros sy r Hns; [reflexivity |].
  simpl in Hns. destruct Hns as (_ & Hin & _ & Hns). simpl.
  rewrite (IH _ _ Hns), app_nil_r.
  destruct n as [| n]; [reflexivity |]. exfalso.
  specialize (Hin 0%nat (Nat.lt_0_succ n)). simpl in Hin.
  unfold row_origin in Hin. destruct (r mod 2 =? 0)%Z; lra.
Qed.

End LoopFacts.

(** ** The constants of [calculate_polygons] *)

Lemma archimed_nat (x y : R) : 0 < y -> exists n : nat, x <= INR n * y.
Proof.
  intros Hy. destruct (archimed (x / y)) as [Hup _].
  exists (Z.to_nat (up (x / y))).
  assert (Hx : x = x / y * y) by (field; lra).
  destruct (Z_lt_le_dec 0 (up (x / y))) as [Hpos | Hneg].
  - rewrite INR_IZR_INZ, Z2Nat.id by lia. nra.
  - apply IZR_le in Hneg.
    assert (0 <= INR (Z.to_nat (up (x / y)))) by apply pos_INR. nra.
Qed.

Lemma sqrt3_pos : 0 < sqrt 3.
Proof. apply sqrt_lt_R0. lra. Qed.

Lemma sqrt3_sqr : sqrt 3 * sqrt 3 = 3.
Proof. apply sqrt_sqrt. lra. Qed.

Lemma cos_radians_30 : cos (radians 30) = sqrt 3 / 2.
Proof.
  unfold radians. replace (30 * (PI / 180)) with (PI / 6) by field.
  exact cos_PI6.
Qed.

Lemma hex_p_eq (radius : R) : hex_p radius = radius / sqrt 3.
Proof.
  unfold hex_p, side_length. rewrite tan_PI6.
  replace 0.5 with (/ 2) by lra.
  pose proof sqrt3_pos. field. lra.
Qed.

Lemma hex_b_eq (radius : R) : hex_b radius = radius.
Proof.
  unfold hex_b, side_length. rewrite tan_PI6, cos_radians_30.
  pose proof sqrt3_pos. field. lra.
Qed.

Lemma hex_w_eq (radius : R) : hex_w radius = 2 * hex_b radius.
Proof. unfold hex_w. ring. Qed.

Lemma hex_h_eq (radius : R) : hex_h radius = 4 * hex_p radius.
Proof. unfold hex_h, hex_p. lra. Qed.

Lemma side_length_eq (radius : R) : side_length radius = 2 * hex_p radius.
Proof. unfold hex_p. lra. Qed.

Lemma hex_p_pos (radius : R) : 0 < radius -> 0 < hex_p radius.
Proof.
  intros Hr. rewrite hex_p_eq. apply Rdiv_lt_0_compat; [exact Hr | exact sqrt3_pos].
Qed.

Lemma hex_p_nonpos (radius : R) : radius <= 0 -> hex_p radius <= 0.
Proof.
  intros Hr. rewrite hex_p_eq. pose proof sqrt3_pos as Hs.
  apply Rinv_0_lt_compat in Hs. unfold Rdiv. nra.
Qed.

Lemma hex_b_sqr (radius : R) :
  hex_b radius * hex_b radius = 3 * (hex_p radius * hex_p radius).
Proof.
  rewrite hex_b_eq, hex_p_eq. pose proof sqrt3_pos as Hs.
  pose proof sqrt3_sqr as Hq.
  assert (E : radius / sqrt 3 * (radius / sqrt 3) = radius * radius / (sqrt 3 * sqrt 3))
    by (field; lra).
  rewrite E, Hq. field.
Qed.

Lemma hex_h_0 : hex_h 0 = 0.
Proof. rewrite hex_h_eq, hex_p_eq. unfold Rdiv. ring. Qed.

(** The constants for the radius 100: [sl] is about 115.47, [b] is 100,
    [w] is 200 and [h] is about 230.94. *)
Example constants_of_radius_100 :
  115.47 < side_length 100 < 115.48 /\
  hex_b 100 = 100 /\
  hex_w 100 = 200 /\
  230.94 < hex_h 100 < 230.95.
Proof.
  pose proof (hex_p_pos 100 ltac:(lra)) as Hp.
  pose proof (hex_b_sqr 100) as Hsq. rewrite hex_b_eq in Hsq.
  rewrite side_length_eq, hex_w_eq, hex_h_eq, hex_b_eq.
  assert (H : 57.735 < hex_p 100 < 57.7351) by (split; nra).
  repeat split; lra.
Qed.

(** ** What [calculate_polygons] returns *)

(** [calculate_polygons] in terms of its constants. *)
Lemma calculate_polygons_eq (fuel : nat) (startx starty endx endy radius : R) :
  calculate_polygons fuel startx starty endx endy radius =
  (st <- while_starty (hex_p radius) (hex_b radius) (hex_w radius) (hex_h radius)
           (startx - hex_w radius) (endx + hex_w radius) (endy + hex_h radius)
           (hex_b radius) (3 * hex_p radius) fuel
           (mkLocals (startx - hex_w radius) (starty - hex_h radius) 1 0 []) ;;
   Ok (polygons st)).
Proof. reflexivity. Qed.

Lemma calculate_polygons_no_raise (fuel : nat) (startx starty endx endy radius : R)
  (e : string) :
  calculate_polygons fuel startx starty endx endy radius <> Raise e.
Proof.
  rewrite calculate_polygons_eq.
  destruct (while_starty _ _ _ _ _ _ _ _ _ fuel _) as [st | e' |] eqn:E; simpl;
    try discriminate.
  exfalso. exact (while_starty_no_raise _ _ _ _ _ _ _ _ _ _ _ _ E).
Qed.

Lemma calculate_polygons_mono (fuel fuel' : nat) (startx starty endx endy radius : R)
  (polygon : list Polygon) :
  calculate_polygons fuel startx starty endx endy radius = Ok polygon ->
  (fuel <= fuel')%nat ->
  calculate_polygons fuel' startx starty endx endy radius = Ok polygon.
Proof.
  rewrite !calculate_polygons_eq. intros E Hle.
  apply bind_Ok in E. destruct E as (st & E & Est).
  rewrite (while_starty_mono _ _ _ _ _ _ _ _ _ _ _ _ E fuel' Hle). exact Est.
Qed.

(** For a positive radius the tessellator terminates, and its result is
    the grid in closed form.  A budget of [m + N] steps suffices when [N]
    steps of [w] cross the shifted rectangle and [m] steps of [yoffset]
    climb it. *)
Lemma calculate_polygons_budget (startx starty endx endy radius : R) (N m : nat) :
  0 < radius ->
  endx + hex_w radius - (startx - hex_w radius) <= INR N * hex_w radius ->
  endy + hex_h radius - (starty - hex_h radius) <= INR m * (3 * hex_p radius) ->
  exists ns : list nat,
    (forall fuel : nat, (m + N <= fuel)%nat ->
       calculate_polygons fuel startx starty endx endy radius
       = Ok (tessellation startx starty radius ns)) /\
    grid_counts (hex_w radius) (startx - hex_w radius) (endx + hex_w radius)
                (endy + hex_h radius) (hex_b radius) (3 * hex_p radius)
                (starty - hex_h radius) 1 ns.
Proof.
  intros Hr HN Hm.
  pose proof (hex_p_pos radius Hr) as Hp.
  assert (Hb : 0 < hex_b radius) by (rewrite hex_b_eq; exact Hr).
  assert (Hw : 0 < hex_w radius) by (rewrite hex_w_eq; lra).
  destruct (while_starty_terminates (hex_p radius) (hex_b radius) (hex_w radius)
              (hex_h radius) (startx - hex_w radius) (endx + hex_w radius)
              (endy + hex_h radius) (hex_b radius) (3 * hex_p radius)
              Hw ltac:(lra) ltac:(lra) N HN m
              (mkLocals (startx - hex_w radius) (starty - hex_h radius) 1 0 [])
              Hm (m + N)%nat (Nat.le_refl _)) as [st E].
  destruct (while_starty_Ok _ _ _ _ _ _ _ _ _ _ _ _ E) as (ns & Hps & Hns).
  simpl in Hps, Hns. exists ns. split; [| exact Hns].
  intros fuel Hfuel.
  apply calculate_polygons_mono with (fuel := (m + N)%nat); [| exact Hfuel].
  rewrite calculate_polygons_eq, E. simpl. rewrite Hps. reflexivity.
Qed.

Lemma calculate_polygons_returns (startx starty endx endy radius : R) :
  0 < radius ->
  exists ns : list nat,
    returns (fun fuel => calculate_polygons fuel startx starty endx endy radius)
            (tessellation startx starty radius ns) /\
    grid_counts (hex_w radius) (startx - hex_w radius) (endx + hex_w radius)
                (endy + hex_h radius) (hex_b radius) (3 * hex_p radius)
                (starty - hex_h radius) 1 ns.
Proof.
  intros Hr.
  pose proof (hex_p_pos radius Hr) as Hp.
  assert (Hw : 0 < hex_w radius) by (rewrite hex_w_eq, hex_b_eq; lra).
  destruct (archimed_nat (endx + hex_w radius - (startx - hex_w radius)) (hex_w radius) Hw)
    as [N HN].
  destruct (archimed_nat (endy + hex_h radius - (starty - hex_h radius)) (3 * hex_p radius))
    as [m Hm]; [lra |].
  destruct (calculate_polygons_budget startx starty endx endy radius N m Hr HN Hm)
    as (ns & Hfuel & Hns).
  exists ns. split; [| exact Hns]. exists (m + N)%nat. exact Hfuel.
Qed.

Lemma tessellation_sorted (startx starty radius : R) (ns : list nat) :
  0 < radius -> StronglySorted row_major (tessellation startx starty radius ns).
Proof.
  intros Hr. pose proof (hex_p_pos radius Hr) as Hp.
  apply grid_polygons_sorted; [| lra].
  rewrite hex_w_eq, hex_b_eq. lra.
Qed.

Lemma tessellation_nonempty (startx starty endx endy radius : R) (ns : list nat) :
  0 < radius -> startx <= endx -> starty <= endy ->
  grid_counts (hex_w radius) (startx - hex_w radius) (endx + hex_w radius)
              (endy + hex_h radius) (hex_b radius) (3 * hex_p radius)
              (starty - hex_h radius) 1 ns ->
  tessellation startx starty radius ns <> [].
Proof.
  intros Hr Hx Hy Hns. pose proof (hex_p_pos radius Hr) as Hp.
  pose proof (hex_w_eq radius) as Hw. pose proof (hex_h_eq radius) as Hh.
  pose proof (hex_b_eq radius) as Hb.
  apply (grid_polygons_nonempty _ _ _ _ _ _ _ _ _ _ _ _ Hns); lra.
Qed.

(** *** Three runs, in full *)

Ltac columns :=
  let j := fresh "j" in
  let Hj := fresh "Hj" in
  intros j Hj;
  repeat (destruct j as [| j]; [simpl; lra |]);
  exfalso; lia.

(** A rectangle that is a single point gets three rows of two hexagons,
    whatever the radius. *)
Example point_rectangle_tessellation (x y radius : R) :
  0 < radius ->
  returns (fun fuel => calculate_polygons fuel x y x y radius)
          (tessellation x y radius [2; 2; 2]%nat).
Proof.
  intros Hr.
  destruct (calculate_polygons_returns x y x y radius Hr) as (ns & Hret & Hns).
  replace [2; 2; 2]%nat with ns; [exact Hret |].
  apply (grid_counts_unique _ _ _ _ _ _ _ _ _ _ Hns).
  pose proof (hex_p_pos radius Hr) as Hp.
  pose proof (hex_b_eq radius) as Hb.
  rewrite hex_w_eq, hex_h_eq. simpl. unfold row_origin. simpl.
  repeat split; try lra; columns.
Qed.

(** In exact arithmetic the rectangle of a point buffered by twice the
    radius, as [generate_cell_areas] makes it, gets five rows of four
    hexagons, whatever the point and the radius. *)
Example buffered_point_tessellation (x y radius : R) :
  0 < radius ->
  returns (fun fuel => calculate_polygons fuel (x - radius * 2) (y - radius * 2)
                         (x + radius * 2) (y + radius * 2) radius)
          (tessellation (x - radius * 2) (y - radius * 2) radius [4; 4; 4; 4; 4]%nat).
Proof.
  intros Hr.
  destruct (calculate_polygons_returns (x - radius * 2) (y - radius * 2)
              (x + radius * 2) (y + radius * 2) radius Hr) as (ns & Hret & Hns).
  replace [4; 4; 4; 4; 4]%nat with ns; [exact Hret |].
  apply (grid_counts_unique _ _ _ _ _ _ _ _ _ _ Hns).
  pose proof (hex_p_pos radius Hr) as Hp.
  pose proof (hex_b_eq radius) as Hb.
  pose proof (hex_b_sqr radius) as Hsq. rewrite Hb in Hsq.
  assert (Hlow : 4 * radius <= 7 * hex_p radius) by nra.
  assert (Hhigh : hex_p radius < radius) by nra.
  rewrite hex_w_eq, hex_h_eq. simpl. unfold row_origin. simpl.
  repeat split; try lra; columns.
Qed.

(** A rectangle whose [startx] is more than two hexagon widths right of
    its [endx] gets no hexagon. *)
Example inverted_rectangle_empty (startx starty endx endy radius : R) :
  0 < radius ->
  endx + 2 * hex_w radius <= startx ->
  returns (fun fuel => calculate_polygons fuel startx starty endx endy radius) [].
Proof.
  intros Hr Hx.
  destruct (calculate_polygons_returns startx starty endx endy radius Hr)
    as (ns & Hret & Hns).
  assert (Hempty : tessellation startx starty radius ns = []).
  { apply (grid_polygons_inverted _ _ _ _ _ (endx + hex_w radius)
             (endy + hex_h radius) _ _); [lra | rewrite hex_b_eq; lra | exact Hns]. }
  rewrite Hempty in Hret. exact Hret.
Qed.

(** ** A radius that is not positive *)

(** When the shifted start row is not below the shifted end row, the row
    loop does not run. *)
Lemma calculate_polygons_empty (fuel : nat) (startx starty endx endy radius : R) :
  endy + hex_h radius <= starty - hex_h radius ->
  calculate_polygons fuel startx starty endx endy radius = Ok [].
Proof.
  intros Hle. rewrite calculate_polygons_eq, while_starty_eq. simpl.
  destruct (Rlt_dec _ _) as [Hlt | _]; [lra | reflexivity].
Qed.

(** C1, as the code has it.  [calculate_polygons] does not validate its
    radius and raises no error.  With a radius that is not positive it
    returns no hexagon: when the shifted start row is not below the
    shifted end row it returns the empty list, and otherwise its row loop
    never ends. *)
Theorem nonpositive_radius_no_error (fuel : nat) (startx starty endx endy radius : R) :
  radius <= 0 ->
  (forall e : string,
     calculate_polygons fuel startx starty endx endy radius <> Raise e) /\
  (forall polygon : list Polygon,
     calculate_polygons fuel startx starty endx endy radius = Ok polygon ->
     polygon = []) /\
  (endy + hex_h radius <= starty - hex_h radius ->
   calculate_polygons fuel startx starty endx endy radius = Ok []) /\
  (starty - hex_h radius < endy + hex_h radius ->
   calculate_polygons fuel startx starty endx endy radius = OutOfFuel).
Proof.
  intros Hr. pose proof (hex_p_nonpos radius Hr) as Hp.
  pose proof (calculate_polygons_empty fuel startx starty endx endy radius) as Hempty.
  assert (Hloop : starty - hex_h radius < endy + hex_h radius ->
                  calculate_polygons fuel startx starty endx endy radius = OutOfFuel).
  { intros Hlt. rewrite calculate_polygons_eq, while_starty_stuck; simpl;
      [reflexivity | lra | exact Hlt]. }
  split; [intros e; apply calculate_polygons_no_raise |].
  split; [| split; assumption].
  intros polygon E.
  destruct (Rlt_le_dec (starty - hex_h radius) (endy + hex_h radius)) as [Hlt | Hle].
  - rewrite (Hloop Hlt) in E. discriminate.
  - rewrite (Hempty Hle) in E. injection E as <-. reflexivity.
Qed.

Lemma nonpositive_radius_no_error_witness :
  0 <= 0 /\
  (forall e : string, calculate_polygons 10 0 0 0 0 0 <> Raise e) /\
  (forall polygon : list Polygon,
     calculate_polygons 10 0 0 0 0 0 = Ok polygon -> polygon = []) /\
  (0 + hex_h 0 <= 0 - hex_h 0 -> calculate_polygons 10 0 0 0 0 0 = Ok []) /\
  (0 - hex_h 0 < 0 + hex_h 0 -> calculate_polygons 10 0 0 0 0 0 = OutOfFuel).
Proof.
  split; [apply Rle_refl |].
  exact (nonpositive_radius_no_error 10 0 0 0 0 0 (Rle_refl 0)).
Defined.

(** C1, as the specification has it, fails: with the radius 0 and the
    rectangle from [(0, 0)] to [(0, 0)] the tessellator returns the empty
    list, which is not a [ConfigurationError]. *)
Lemma radius_zero_returns :
  0 <= 0 /\
  calculate_polygons 10 0 0 0 0 0 = Ok [] /\
  calculate_polygons 10 0 0 0 0 0 <> Raise "ConfigurationError".
Proof.
  assert (E : calculate_polygons 10 0 0 0 0 0 = Ok []).
  { apply calculate_polygons_empty. rewrite hex_h_0. lra. }
  split; [apply Rle_refl |]. split; [exact E |]. rewrite E. discriminate.
Qed.

(** ** The shape of a hexagon *)

Section Hexagon.

Variables (p b : R).
Hypothesis p_pos : 0 < p.
Hypothesis b_pos : 0 < b.
Hypothesis b_sqr : b * b = 3 * (p * p).

Lemma slanted_edge (dx dy : R) :
  dx * dx = b * b -> dy * dy = p * p -> sqrt (dx * dx + dy * dy) = 2 * p.
Proof.
  intros Ex Ey. rewrite Ex, Ey, b_sqr.
  replace (3 * (p * p) + p * p) with (2 * p * (2 * p)) by ring.
  apply sqrt_square. lra.
Qed.

Lemma upright_edge (dy : R) :
  dy * dy = 2 * p * (2 * p) -> sqrt (0 * 0 + dy * dy) = 2 * p.
Proof.
  intros Ey. rewrite Ey, Rmult_0_l, Rplus_0_l. apply sqrt_square. lra.
Qed.

Lemma poly_hexagon_ring (sx sy : R) :
  hexagon_ring (2 * p) (poly p b (2 * b) (4 * p) sx sy).
Proof.
  unfold hexagon_ring, poly. cbv zeta. split; [reflexivity |].
  split; [reflexivity |]. split.
  - simpl.
    repeat (constructor;
            [ simpl; intros Hin;
              repeat (destruct Hin as [Hin | Hin];
                      [injection Hin; intros; lra |]);
              exact Hin | ]).
    constructor.
  - simpl. repeat constructor; unfold segment_length, distance; cbn [fst snd].
    + replace (sx - sx) with 0 by ring. apply upright_edge. ring.
    + apply slanted_edge; ring.
    + apply slanted_edge; ring.
    + replace (sx + 2 * b - (sx + 2 * b)) with 0 by ring. apply upright_edge. ring.
    + apply slanted_edge; ring.
    + apply slanted_edge; ring.
Qed.

(** The hexagon is [2 * b] wide and [4 * p] high: its corners lie in the
    box from its anchor [(sx, sy)] to [(sx + 2 * b, sy + 4 * p)] and
    touch its four sides. *)
Lemma poly_extent (sx sy : R) :
  Forall (fun v => sx <= fst v <= sx + 2 * b /\ sy <= snd v <= sy + 4 * p)
         (poly p b (2 * b) (4 * p) sx sy) /\
  In (sx, sy + p) (poly p b (2 * b) (4 * p) sx sy) /\
  In (sx + 2 * b, sy + p) (poly p b (2 * b) (4 * p) sx sy) /\
  In (sx + b, sy) (poly p b (2 * b) (4 * p) sx sy) /\
  In (sx + b, sy + 4 * p) (poly p b (2 * b) (4 * p) sx sy).
Proof.
  unfold poly. cbv zeta. split.
  - repeat (apply Forall_cons; [cbn [fst snd]; lra |]). apply Forall_nil.
  - simpl. tauto.
Qed.

End Hexagon.

Lemma tessellation_hexagon_ring (startx starty radius : R) (ns : list nat) :
  0 < radius ->
  Forall (hexagon_ring (2 * radius * tan (PI / 6))) (tessellation startx starty radius ns).
Proof.
  intros Hr. rewrite Forall_forall. intros ring Hring.
  apply in_grid_polygons in Hring. destruct Hring as (sx & k & ->).
  change (2 * radius * tan (PI / 6)) with (side_length radius).
  rewrite side_length_eq, hex_w_eq, hex_h_eq.
  apply poly_hexagon_ring.
  - apply hex_p_pos, Hr.
  - rewrite hex_b_eq. exact Hr.
  - apply hex_b_sqr.
Qed.



(** ** Coverage *)

(** The whole multiples of a step: every [t >= 0] lies in one of them. *)
Lemma floor_nat (t u : R) :
  0 <= t -> 0 < u -> exists n : nat, INR n * u <= t < (INR n + 1) * u.
Proof.
  intros Ht Hu. destruct (archimed (t / u)) as [Hup Hlow].
  assert (Hq : 0 <= t / u).
  { apply Rmult_le_pos; [exact Ht |]. apply Rlt_le, Rinv_0_lt_compat, Hu. }
  assert (Hz : (0 < up (t / u))%Z) by (apply lt_IZR; lra).
  exists (Z.to_nat (up (t / u) - 1)).
  rewrite INR_IZR_INZ, Z2Nat.id, minus_IZR by lia.
  assert (Et : t = t / u * u) by (field; lra).
  split; nra.
Qed.

Lemma row_parity (r : Z) :
  ((r + 1) mod 2 =? 0)%Z = negb (r mod 2 =? 0)%Z.
Proof.
  rewrite !Zmod_even, Z.add_1_r, Z.even_succ, <- Z.negb_even.
  destruct (Z.even r); reflexivity.
Qed.

Section Coverage.

Variables (p b : R).
Hypothesis p_pos : 0 < p.
Hypothesis b_pos : 0 < b.

Local Abbreviation hexagon := (poly p b (2 * b) (4 * p)).

(** A point at the offset [(dx, dy)] from the anchor of a hexagon lies
    in it when it is between its upright sides and on the inner side
    of its four slanted sides. *)
Lemma covers_hexagon (sx sy dx dy : R) :
  0 <= dx <= 2 * b ->
  p * (b - dx) <= b * dy ->
  p * (dx - b) <= b * dy ->
  b * (dy - 3 * p) <= p * dx ->
  b * (dy - 3 * p) <= p * (2 * b - dx) ->
  covers (hexagon sx sy) (sx + dx, sy + dy).
Proof.
  intros Hdx H1 H2 H3 H4. left.
  assert (Hp : 0 <= p * dx) by (apply Rmult_le_pos; lra).
  assert (Hq : 0 <= p * (2 * b - dx)) by (apply Rmult_le_pos; lra).
  cbn [poly edges].
  repeat (apply Forall_cons; [unfold cross; cbn [fst snd]; lra |]).
  apply Forall_nil.
Qed.

(** In the band where the hexagons of a row stand side by side. *)
Lemma covers_band (sx sy dx dy : R) :
  0 <= dx <= 2 * b -> p <= dy <= 3 * p ->
  covers (hexagon sx sy) (sx + dx, sy + dy).
Proof.
  intros Hdx Hdy. apply covers_hexagon; try assumption; nra.
Qed.

(** In the band where two rows interlock, left of the lower tip of a
    hexagon: the point is in that hexagon or in the one below it to the
    left. *)
Lemma covers_left (sx sy dx dy : R) :
  0 <= dx <= b -> 0 <= dy <= p ->
  covers (hexagon sx sy) (sx + dx, sy + dy) \/
  covers (hexagon (sx - b) (sy - 3 * p)) (sx - b + (dx + b), sy - 3 * p + (dy + 3 * p)).
Proof.
  intros Hdx Hdy.
  destruct (Rle_lt_dec (p * (b - dx)) (b * dy)) as [Hin | Hout].
  - left. apply covers_hexagon; try assumption; nra.
  - right. apply covers_hexagon; nra.
Qed.

(** The same right of the lower tip. *)
Lemma covers_right (sx sy dx dy : R) :
  b <= dx <= 2 * b -> 0 <= dy <= p ->
  covers (hexagon sx sy) (sx + dx, sy + dy) \/
  covers (hexagon (sx + b) (sy - 3 * p)) (sx + b + (dx - b), sy - 3 * p + (dy + 3 * p)).
Proof.
  intros Hdx Hdy.
  destruct (Rle_lt_dec (p * (dx - b)) (b * dy)) as [Hin | Hout].
  - left. apply covers_hexagon; try assumption; nra.
  - right. apply covers_hexagon; nra.
Qed.

(** *** The grid covers what lies between its first and last anchors *)

Variables (origx origy endx endy : R) (ns : list nat).
Hypothesis counts : grid_counts (2 * b) origx endx endy b (3 * p) origy 1 ns.

Local Abbreviation grid :=
  (grid_polygons p b (2 * b) (4 * p) origx b (3 * p) origy 1 ns).

Lemma in_grid (k j : nat) (sx sy : R) :
  sx = row_origin origx b (1 + Z.of_nat k) + INR j * (2 * b) ->
  sy = origy + INR k * (3 * p) ->
  sx < endx -> sy < endy ->
  In (hexagon sx sy) grid.
Proof.
  intros -> -> Hx Hy.
  apply (grid_polygons_complete p b (2 * b) (4 * p) origx endx endy b (3 * p));
    try assumption; lra.
Qed.

(** Two rows that follow each other start [b] apart. *)
Lemma consecutive_rows (k : nat) :
  exists d d' : R,
    row_origin origx b (1 + Z.of_nat (S k)) = origx + d /\
    row_origin origx b (1 + Z.of_nat k) = origx + d' /\
    ((d = 0 /\ d' = b) \/ (d = b /\ d' = 0)).
Proof.
  unfold row_origin.
  replace (1 + Z.of_nat (S k))%Z with (1 + Z.of_nat k + 1)%Z by lia.
  rewrite row_parity.
  destruct ((1 + Z.of_nat k) mod 2 =? 0)%Z; simpl.
  - exists 0, b. repeat split; try ring. left. split; reflexivity.
  - exists b, 0. repeat split; try ring. right. split; reflexivity.
Qed.

Lemma grid_covers (x y : R) :
  origx + 2 * b < x < endx ->
  origy + 4 * p < y < endy ->
  exists ring : Polygon, In ring grid /\ covers ring (x, y).
Proof.
  intros Hx Hy.
  destruct (floor_nat (y - origy) (3 * p)) as [k [Hk1 Hk2]]; [lra | lra |].
  destruct k as [| k]; [simpl in Hk2; lra |].
  destruct (consecutive_rows k) as (d & d' & Hrow & Hrow' & Hd).
  destruct (floor_nat (x - origx - d) (2 * b)) as [j [Hj1 Hj2]];
    [destruct Hd as [[-> _] | [-> _]]; lra | lra |].
  remember (origx + d + INR j * (2 * b)) as sx eqn:Esx.
  remember (origy + INR (S k) * (3 * p)) as sy eqn:Esy.
  remember (x - sx) as dx eqn:Edx.
  remember (y - sy) as dy eqn:Edy.
  assert (Hdx : 0 <= dx < 2 * b) by lra.
  assert (Hdy : 0 <= dy < 3 * p) by lra.
  assert (Hin : In (hexagon sx sy) grid).
  { apply (in_grid (S k) j); [rewrite Hrow; lra | lra | lra | lra]. }
  assert (Epoint : (x, y) = (sx + dx, sy + dy)) by (f_equal; lra).
  destruct (Rle_lt_dec p dy) as [Hband | Hzone].
  { exists (hexagon sx sy). split; [exact Hin |].
    rewrite Epoint. apply covers_band; lra. }
  assert (Hsy' : sy - 3 * p = origy + INR k * (3 * p)).
  { rewrite Esy, S_INR. ring. }
  destruct (Rle_lt_dec dx b) as [Hleft | Hright].
  - destruct (covers_left sx sy dx dy) as [Hc | Hc]; [lra | lra | |].
    + exists (hexagon sx sy). split; [exact Hin |]. rewrite Epoint. exact Hc.
    + exists (hexagon (sx - b) (sy - 3 * p)). split.
      * destruct Hd as [[-> ->] | [-> ->]].
        -- destruct j as [| j]; [simpl in Esx; lra |].
           apply (in_grid k j); [rewrite Hrow' | | |]; try lra.
           rewrite Esx, S_INR. ring.
        -- apply (in_grid k j); [rewrite Hrow' | | |]; try lra.
      * replace (x, y)
          with (sx - b + (dx + b), sy - 3 * p + (dy + 3 * p)) by (f_equal; lra).
        exact Hc.
  - destruct (covers_right sx sy dx dy) as [Hc | Hc]; [lra | lra | |].
    + exists (hexagon sx sy). split; [exact Hin |]. rewrite Epoint. exact Hc.
    + exists (hexagon (sx + b) (sy - 3 * p)). split.
      * destruct Hd as [[-> ->] | [-> ->]].
        -- apply (in_grid k j); [rewrite Hrow' | | |]; try lra.
        -- apply (in_grid k (S j)); [rewrite Hrow' | | |]; try lra.
           rewrite Esx, S_INR. ring.
      * replace (x, y)
          with (sx + b + (dx - b), sy - 3 * p + (dy + 3 * p)) by (f_equal; lra).
        exact Hc.
Qed.

End Coverage.



(** ** The cells of [generate_cell_areas] *)

Lemma hexagons_from_is_cell (polygon : list Polygon) :
  forall id_num : Z, Forall is_cell (hexagons_from id_num polygon).
Proof.
  induction polygon as [| ring rest IH]; intros id_num; simpl; constructor.
  - exists ring. split; reflexivity.
  - apply IH.
Qed.

Lemma hexagons_from_site_id (polygon : list Polygon) :
  forall (id_num : Z) (c : feature),
    In c (hexagons_from id_num polygon) -> (id_num <= site_id c)%Z.
Proof.
  induction polygon as [| ring rest IH]; intros id_num c Hc; simpl in Hc;
    [contradiction |].
  destruct Hc as [<- | Hc]; simpl; [lia |].
  apply IH in Hc. lia.
Qed.

Lemma hexagons_from_sorted (polygon : list Polygon) :
  forall id_num : Z,
    StronglySorted (fun c1 c2 => (site_id c1 < site_id c2)%Z)
                   (hexagons_from id_num polygon).
Proof.
  induction polygon as [| ring rest IH]; intros id_num; simpl; constructor;
    [apply IH |].
  rewrite Forall_forall. intros c Hc. apply hexagons_from_site_id in Hc.
  simpl. lia.
Qed.

Lemma hexagons_from_ids (polygon : list Polygon) :
  forall id_num : Z,
    map site_id (hexagons_from id_num polygon) =
    map (fun i => (id_num + Z.of_nat i)%Z) (seq 0 (List.length polygon)).
Proof.
  induction polygon as [| ring rest IH]; intros id_num; [reflexivity |].
  cbn [hexagons_from List.length seq map site_id]. f_equal; [lia |].
  rewrite IH, <- seq_shift, map_map. apply map_ext. intros i. lia.
Qed.

Lemma hexagons_from_coordinates (polygon : list Polygon) :
  forall id_num : Z,
    map coordinates (hexagons_from id_num polygon) = map (fun ring => [ring]) polygon.
Proof.
  induction polygon as [| ring rest IH]; intros id_num; simpl; [reflexivity |].
  rewrite IH. reflexivity.
Qed.

Lemma hexagons_from_centroid (polygon : list Polygon) :
  forall id_num : Z,
    map centroid (hexagons_from id_num polygon) = map polygon_centroid polygon.
Proof.
  induction polygon as [| ring rest IH]; intros id_num; simpl; [reflexivity |].
  rewrite IH. reflexivity.
Qed.

Lemma increasing_NoDup (hexagons : list feature) :
  StronglySorted (fun c1 c2 => (site_id c1 < site_id c2)%Z) hexagons ->
  NoDup (map site_id hexagons).
Proof.
  induction 1 as [| c l Hl IH Hc]; simpl; constructor; [| exact IH].
  rewrite in_map_iff. intros (c' & E & Hc').
  rewrite Forall_forall in Hc. specialize (Hc c' Hc'). lia.
Qed.

(** C5.  Within one run the cells are numbered 0, 1, 2, ... in the order
    the tessellator generated their hexagons: the [site_id]s are pairwise
    distinct and strictly increasing along that order, which is row by
    row from the bottom and, in a row, from the left. *)
Theorem site_ids_increase (startx starty endx endy radius : R) :
  0 < radius ->
  exists polygon : list Polygon,
    returns (fun fuel => calculate_polygons fuel startx starty endx endy radius) polygon /\
    let hexagons := hexagons_from 0 polygon in
    map site_id hexagons = map Z.of_nat (seq 0 (List.length polygon)) /\
    NoDup (map site_id hexagons) /\
    StronglySorted (fun c1 c2 => (site_id c1 < site_id c2)%Z) hexagons /\
    map coordinates hexagons = map (fun ring => [ring]) polygon /\
    StronglySorted row_major polygon.
Proof.
  intros Hr.
  destruct (calculate_polygons_returns startx starty endx endy radius Hr)
    as (ns & Hret & _).
  exists (tessellation startx starty radius ns). split; [exact Hret |].
  cbv zeta. split; [| split; [| split; [| split]]].
  - rewrite hexagons_from_ids. apply map_ext. intros i. lia.
  - apply increasing_NoDup, hexagons_from_sorted.
  - apply hexagons_from_sorted.
  - apply hexagons_from_coordinates.
  - apply tessellation_sorted, Hr.
Qed.

Lemma site_ids_increase_witness :
  0 < 100 /\
  exists polygon : list Polygon,
    returns (fun fuel => calculate_polygons fuel 0 0 1000 1000 100) polygon /\
    let hexagons := hexagons_from 0 polygon in
    map site_id hexagons = map Z.of_nat (seq 0 (List.length polygon)) /\
    NoDup (map site_id hexagons) /\
    StronglySorted (fun c1 c2 => (site_id c1 < site_id c2)%Z) hexagons /\
    map coordinates hexagons = map (fun ring => [ring]) polygon /\
    StronglySorted row_major polygon.
Proof.
  assert (H1 : 0 < 100) by lra.
  split; [exact H1 |].
  exact (site_ids_increase 0 0 1000 1000 100 H1).
Defined.

(** *** The centroid of a hexagon *)

Lemma polygon_centroid_poly (p b sx sy : R) :
  0 < p -> 0 < b ->
  polygon_centroid (poly p b (2 * b) (4 * p) sx sy) = (sx + b, sy + 2 * p).
Proof.
  intros Hp Hb.
  assert (Hbp : 0 < b * p) by (apply Rmult_lt_0_compat; assumption).
  assert (Ha2 : sum (map shoelace (edges (poly p b (2 * b) (4 * p) sx sy)))
                = - (12 * (b * p))).
  { cbn [poly sum map edges fold_right shoelace fst snd]. ring. }
  unfold polygon_centroid.
  destruct (Req_dec_T _ 0) as [E | _]; [rewrite Ha2 in E; lra |].
  unfold area_centroid. cbv zeta. rewrite Ha2.
  cbn [poly sum map edges fold_right shoelace fst snd].
  f_equal; field; lra.
Qed.

(** The centroids of the hexagons of a grid are pairwise distinct. *)
Lemma tessellation_centroids_distinct (startx starty radius : R) (ns : list nat) :
  0 < radius ->
  NoDup (map centroid (hexagons_from 0 (tessellation startx starty radius ns))).
Proof.
  intros Hr. rewrite hexagons_from_centroid.
  pose proof (hex_p_pos radius Hr) as Hp.
  assert (Hb : 0 < hex_b radius) by (rewrite hex_b_eq; exact Hr).
  pose proof (tessellation_sorted startx starty radius ns Hr) as Hs.
  assert (Hall : Forall (fun ring => exists sx sy,
                           ring = poly (hex_p radius) (hex_b radius)
                                       (2 * hex_b radius) (4 * hex_p radius) sx sy)
                        (tessellation startx starty radius ns)).
  { rewrite Forall_forall. intros ring Hring.
    apply in_grid_polygons in Hring. destruct Hring as (sx & k & ->).
    rewrite hex_w_eq, hex_h_eq. eexists. eexists. reflexivity. }
  induction Hs as [| ring l Hs IH Hring]; simpl; constructor.
  - apply Forall_inv in Hall as Hhead. apply Forall_inv_tail in Hall.
    destruct Hhead as (sx & sy & ->).
    rewrite in_map_iff. intros (ring' & E & Hin).
    rewrite Forall_forall in Hring, Hall.
    specialize (Hring ring' Hin). destruct (Hall ring' Hin) as (sx' & sy' & ->).
    rewrite !polygon_centroid_poly in E by assumption.
    unfold row_major, anchor in Hring. simpl in Hring.
    injection E as Ex Ey. lra.
  - apply IH. apply Forall_inv_tail in Hall. exact Hall.
Qed.

(** The six cells of a rectangle that is a single point, for the radius
    100. *)
Lemma six_cells :
  let hexagons := hexagons_from 0 (tessellation 0 0 100 [2; 2; 2]%nat) in
  List.length hexagons = 6%nat /\
  hexagons <> [] /\
  Forall is_cell hexagons /\
  StronglySorted (fun c1 c2 => (site_id c1 < site_id c2)%Z) hexagons /\
  NoDup (map site_id hexagons) /\
  NoDup (map centroid hexagons).
Proof.
  intros hexagons. subst hexagons.
  split; [reflexivity |].
  split; [simpl; discriminate |].
  split; [apply hexagons_from_is_cell |].
  split; [apply hexagons_from_sorted |].
  split; [apply increasing_NoDup, hexagons_from_sorted |].
  apply tessellation_centroids_distinct. lra.
Defined.

(** ** Distances *)

Lemma distance_nonneg (a c : Point) : 0 <= distance a c.
Proof. apply sqrt_pos. Qed.

Lemma distance_refl (a : Point) : distance a a = 0.
Proof.
  unfold distance.
  replace ((fst a - fst a) * (fst a - fst a) + (snd a - snd a) * (snd a - snd a))
    with 0 by ring.
  exact sqrt_0.
Qed.

Lemma distance_zero (a c : Point) : distance a c = 0 -> a = c.
Proof.
  destruct a as [ax ay], c as [cx cy]. unfold distance. simpl. intros E.
  pose proof (Rle_0_sqr (ax - cx)) as Hx. pose proof (Rle_0_sqr (ay - cy)) as Hy.
  unfold Rsqr in Hx, Hy.
  apply sqrt_eq_0 in E; [| lra].
  assert (Ex : (ax - cx) * (ax - cx) = 0) by lra.
  assert (Ey : (ay - cy) * (ay - cy) = 0) by lra.
  apply Rmult_integral in Ex. apply Rmult_integral in Ey.
  f_equal; lra.
Qed.

(** ** The nearest-neighbour index *)

Lemma insert_by_distance_perm (q : Point) (e : entry) (l : list entry) :
  Permutation (insert_by_distance q e l) (e :: l).
Proof.
  induction l as [| e' l IH]; simpl; [reflexivity |].
  destruct (Rle_dec _ _); [reflexivity |].
  rewrite IH. apply perm_swap.
Qed.

Lemma by_distance_perm (q : Point) (idx : list entry) :
  Permutation (by_distance q idx) idx.
Proof.
  induction idx as [| e idx IH]; simpl; [reflexivity |].
  rewrite insert_by_distance_perm. apply perm_skip, IH.
Qed.

Lemma by_distance_length (q : Point) (idx : list entry) :
  List.length (by_distance q idx) = List.length idx.
Proof. apply Permutation_length, by_distance_perm. Qed.

Lemma nearest_length (idx : list entry) (q : Point) (k : nat) :
  List.length (nearest idx q k) = Nat.min k (List.length idx).
Proof.
  unfold nearest. rewrite length_map, length_firstn, by_distance_length. reflexivity.
Qed.

Lemma nearest_In (hexagons : list feature) (q : Point) (k : nat) (c : feature) :
  In c (nearest (build_index hexagons) q k) -> In c hexagons.
Proof.
  unfold nearest. rewrite in_map_iff. intros (e & <- & He).
  apply firstn_incl in He.
  apply (Permutation_in _ (by_distance_perm q _)) in He.
  unfold build_index in He. apply in_map_iff in He.
  destruct He as (c' & <- & Hc'). exact Hc'.
Qed.

Lemma build_index_snd (hexagons : list feature) :
  map snd (build_index hexagons) = hexagons.
Proof.
  unfold build_index. rewrite map_map. simpl. apply map_id.
Qed.

(** The answers of a query are distinct entries of the index. *)
Lemma nearest_NoDup (hexagons : list feature) (q : Point) (k : nat) :
  NoDup (map site_id hexagons) ->
  NoDup (map site_id (nearest (build_index hexagons) q k)).
Proof.
  intros Hnd. unfold nearest. rewrite <- firstn_map, <- firstn_map.
  apply NoDup_firstn.
  apply (Permutation_NoDup (l := map site_id hexagons)); [| exact Hnd].
  rewrite <- (build_index_snd hexagons) at 1.
  apply Permutation_map, Permutation_map, Permutation_sym, by_distance_perm.
Qed.

(** The first answer is nearest to the query, and among the entries at
    its distance it is the one with the lowest [site_id], when the index
    was built in ascending order of [site_id]. *)
Lemma by_distance_head (q : Point) (idx : list entry) :
  StronglySorted (fun e1 e2 => (site_id (snd e1) < site_id (snd e2))%Z) idx ->
  forall (e : entry) (rest : list entry),
    by_distance q idx = e :: rest ->
    In e idx /\ forall e' : entry, In e' idx -> preferred q e e'.
Proof.
  induction idx as [| a idx IH]; intros Hs e rest E; simpl in E; [discriminate |].
  apply StronglySorted_inv in Hs. destruct Hs as [Hs Ha].
  rewrite Forall_forall in Ha.
  assert (Haa : preferred q a a) by (right; split; [reflexivity | lia]).
  destruct (by_distance q idx) as [| e0 l0] eqn:El.
  - apply (f_equal (@List.length entry)) in El. rewrite by_distance_length in El.
    destruct idx; [| discriminate]. simpl in E. injection E as <- <-.
    split; [left; reflexivity |]. intros e' [<- | []]. exact Haa.
  - destruct (IH Hs e0 l0 eq_refl) as [Hin0 Hbest0].
    simpl in E. destruct (Rle_dec _ _) as [Hle | Hgt]; injection E as <- <-.
    + split; [left; reflexivity |]. intros e' [<- | He']; [exact Haa |].
      specialize (Hbest0 e' He'). specialize (Ha e' He').
      unfold preferred in *. destruct Hle as [Hlt | Heq]; [left; lra |].
      destruct Hbest0 as [Hlt' | [Heq' _]]; [left; lra |].
      right. split; [lra | lia].
    + split; [right; exact Hin0 |]. intros e' [<- | He'].
      * left. lra.
      * apply Hbest0, He'.
Qed.

(** The answers come in ascending order of distance. *)
Lemma insert_by_distance_sorted (q : Point) (e : entry) (l : list entry) :
  StronglySorted (fun e1 e2 => distance (fst e1) q <= distance (fst e2) q) l ->
  StronglySorted (fun e1 e2 => distance (fst e1) q <= distance (fst e2) q)
                 (insert_by_distance q e l).
Proof.
  induction l as [| e' l IH]; intros Hs; simpl.
  - constructor; constructor.
  - pose proof Hs as Hs'. apply StronglySorted_inv in Hs'. destruct Hs' as [Hl He'].
    destruct (Rle_dec _ _) as [Hle | Hgt].
    + constructor; [exact Hs |]. constructor; [exact Hle |].
      rewrite Forall_forall in *. intros x Hx. specialize (He' x Hx). lra.
    + constructor; [apply IH, Hl |].
      rewrite Forall_forall in *. intros x Hx.
      apply (Permutation_in _ (insert_by_distance_perm q e l)) in Hx.
      destruct Hx as [<- | Hx]; [lra | apply He', Hx].
Qed.

Lemma by_distance_sorted (q : Point) (idx : list entry) :
  StronglySorted (fun e1 e2 => distance (fst e1) q <= distance (fst e2) q)
                 (by_distance q idx).
Proof.
  induction idx as [| e idx IH]; simpl; [constructor |].
  apply insert_by_distance_sorted, IH.
Qed.

Lemma by_distance_head_min (q : Point) (idx : list entry) (e : entry)
  (rest : list entry) :
  by_distance q idx = e :: rest ->
  forall e' : entry, In e' idx -> distance (fst e) q <= distance (fst e') q.
Proof.
  intros E e' He'.
  pose proof (by_distance_sorted q idx) as Hs. rewrite E in Hs.
  apply StronglySorted_inv in Hs. destruct Hs as [_ Hall].
  rewrite Forall_forall in Hall.
  apply (Permutation_in _ (Permutation_sym (by_distance_perm q idx))) in He'.
  rewrite E in He'. destruct He' as [<- | He']; [lra | apply Hall, He'].
Qed.

Lemma build_index_sorted (hexagons : list feature) :
  StronglySorted (fun c1 c2 => (site_id c1 < site_id c2)%Z) hexagons ->
  StronglySorted (fun e1 e2 => (site_id (snd e1) < site_id (snd e2))%Z)
                 (build_index hexagons).
Proof.
  induction 1 as [| c l Hl IH Hc]; simpl; constructor; [exact IH |].
  unfold build_index. rewrite Forall_map. exact Hc.
Qed.

(** The first answer of a query that asks for at least one. *)
Lemma nearest_head (hexagons : list feature) (q : Point) (k : nat) :
  hexagons <> [] ->
  exists (first : feature) (others : list feature),
    nearest (build_index hexagons) q (S k) = first :: others /\
    In first hexagons /\
    (forall c : feature, In c hexagons ->
       distance (centroid first) q <= distance (centroid c) q) /\
    (StronglySorted (fun c1 c2 => (site_id c1 < site_id c2)%Z) hexagons ->
     forall c : feature, In c hexagons ->
       distance (centroid c) q = distance (centroid first) q ->
       (site_id first <= site_id c)%Z).
Proof.
  intros Hne. unfold nearest.
  destruct (by_distance q (build_index hexagons)) as [| e rest] eqn:E.
  - apply (f_equal (@List.length entry)) in E.
    rewrite by_distance_length in E. unfold build_index in E.
    rewrite length_map in E. destruct hexagons; [contradiction | discriminate].
  - assert (Hin : In e (build_index hexagons)).
    { apply (Permutation_in _ (by_distance_perm q _)). rewrite E. left. reflexivity. }
    unfold build_index in Hin. apply in_map_iff in Hin.
    destruct Hin as (first & <- & Hfirst).
    exists first, (map snd (firstn k rest)). simpl.
    split; [reflexivity |]. split; [exact Hfirst |]. split.
    + intros c Hc.
      apply (by_distance_head_min q _ _ _ E (centroid c, c)).
      unfold build_index. apply in_map_iff. exists c. split; [reflexivity | exact Hc].
    + intros Hs c Hc Heq.
      destruct (by_distance_head q _ (build_index_sorted _ Hs) _ _ E) as [_ Hbest].
      destruct (Hbest (centroid c, c)) as [Hlt | [_ Hid]].
      * unfold build_index. apply in_map_iff. exists c. split; [reflexivity | exact Hc].
      * simpl in Hlt. lra.
      * exact Hid.
Qed.

(** ** Selection *)

(** The two queries of [find_closest_cell_areas] and what it returns. *)
Lemma find_closest_cell_areas_queries (hexagons : list feature) (geom_shape : Point) :
  hexagons <> [] ->
  Forall is_cell hexagons ->
  exists (first second : feature) (others : list feature),
    nearest (build_index hexagons) geom_shape 1 = [first] /\
    nearest (build_index hexagons) (centroid first) 7 = second :: others /\
    find_closest_cell_areas hexagons geom_shape = Ok ([second], firstn 6 others).
Proof.
  intros Hne Hcells.
  destruct (nearest_head hexagons geom_shape 0 Hne) as (first & rest & E1 & Hin & _).
  assert (rest = []) as ->.
  { pose proof (nearest_length (build_index hexagons) geom_shape 1) as Hlen.
    rewrite E1 in Hlen. destruct rest; [reflexivity |].
    cbn [List.length] in Hlen. lia. }
  rewrite Forall_forall in Hcells.
  destruct (Hcells first Hin) as (ring & Hring & Hcentroid).
  destruct (nearest_head hexagons (centroid first) 6 Hne) as (second & others & E2 & _).
  exists first, second, others. split; [exact E1 |]. split; [exact E2 |].
  unfold find_closest_cell_areas. rewrite E1. simpl. rewrite Hring. simpl.
  rewrite <- Hcentroid, E2. reflexivity.
Qed.

(** C2.  When the index holds at least one cell, the selection does not
    fail; it returns one serving cell and [min 6 (totalCells - 1)]
    interfering cells, each a cell of the index other than the serving
    cell. *)
Theorem interfering_cells_count (hexagons : list feature) (geom_shape : Point) :
  hexagons <> [] ->
  Forall is_cell hexagons ->
  NoDup (map site_id hexagons) ->
  exists (serving : feature) (interfering : list feature),
    find_closest_cell_areas hexagons geom_shape = Ok ([serving], interfering) /\
    List.length interfering = Nat.min 6 (List.length hexagons - 1) /\
    forall c : feature,
      In c interfering ->
      In c hexagons /\ site_id c <> site_id serving /\ c <> serving.
Proof.
  intros Hne Hcells Hnd.
  destruct (find_closest_cell_areas_queries hexagons geom_shape Hne Hcells)
    as (first & second & others & _ & E2 & E).
  exists second, (firstn 6 others). split; [exact E |]. split.
  - pose proof (nearest_length (build_index hexagons) (centroid first) 7) as Hlen.
    rewrite E2 in Hlen. unfold build_index in Hlen. rewrite length_map in Hlen.
    cbn [List.length] in Hlen. rewrite length_firstn. lia.
  - intros c Hc. apply firstn_incl in Hc.
    pose proof (nearest_NoDup hexagons (centroid first) 7 Hnd) as Hnd2.
    rewrite E2 in Hnd2. simpl in Hnd2. apply NoDup_cons_iff in Hnd2.
    destruct Hnd2 as [Hnotin _].
    assert (Hid : site_id c <> site_id second).
    { intros Eid. apply Hnotin. rewrite <- Eid. apply in_map, Hc. }
    split; [| split].
    + apply (nearest_In hexagons (centroid first) 7). rewrite E2. right. exact Hc.
    + exact Hid.
    + intros ->. apply Hid. reflexivity.
Qed.

Lemma interfering_cells_count_witness :
  let hexagons := hexagons_from 0 (tessellation 0 0 100 [2; 2; 2]%nat) in
  hexagons <> [] /\
  Forall is_cell hexagons /\
  NoDup (map site_id hexagons) /\
  exists (serving : feature) (interfering : list feature),
    find_closest_cell_areas hexagons (0, 0) = Ok ([serving], interfering) /\
    List.length interfering = Nat.min 6 (6 - 1) /\
    forall c : feature,
      In c interfering ->
      In c hexagons /\ site_id c <> site_id serving /\ c <> serving.
Proof.
  intros hexagons.
  destruct six_cells as (_ & H1 & H2 & _ & H3 & _).
  split; [exact H1 |]. split; [exact H2 |]. split; [exact H3 |].
  exact (interfering_cells_count hexagons (0, 0) H1 H2 H3).
Defined.

(** C3.  For a non-empty index of cells whose [site_id] ascends in build
    order, the serving cell is a cell whose centroid is at the minimum
    distance from the transmitter, and no cell at that same distance has a
    lower [site_id]. *)
Theorem serving_cell_nearest (hexagons : list feature) (geom_shape : Point) :
  hexagons <> [] ->
  Forall is_cell hexagons ->
  StronglySorted (fun c1 c2 => (site_id c1 < site_id c2)%Z) hexagons ->
  exists (serving : feature) (interfering : list feature),
    find_closest_cell_areas hexagons geom_shape = Ok ([serving], interfering) /\
    In serving hexagons /\
    forall c : feature,
      In c hexagons ->
      distance (centroid serving) geom_shape <= distance (centroid c) geom_shape /\
      (distance (centroid c) geom_shape = distance (centroid serving) geom_shape ->
       (site_id serving <= site_id c)%Z).
Proof.
  intros Hne Hcells Hs.
  destruct (find_closest_cell_areas_queries hexagons geom_shape Hne Hcells)
    as (first & second & others & E1 & E2 & E).
  destruct (nearest_head hexagons geom_shape 0 Hne)
    as (first' & rest1 & E1' & Hin1 & Hmin1 & Htie1).
  rewrite E1 in E1'. injection E1' as <- _.
  destruct (nearest_head hexagons (centroid first) 6 Hne)
    as (second' & rest2 & E2' & Hin2 & Hmin2 & Htie2).
  rewrite E2 in E2'. injection E2' as <- _.
  (* the second query finds a cell with the centroid of the first *)
  assert (Hsame : centroid second = centroid first).
  { apply distance_zero. specialize (Hmin2 first Hin1).
    rewrite distance_refl in Hmin2.
    pose proof (distance_nonneg (centroid second) (centroid first)). lra. }
  assert (Heq : second = first).
  { apply (NoDup_map_inj site_id hexagons); try assumption.
    - apply increasing_NoDup, Hs.
    - apply Z.le_antisymm.
      + apply (Htie2 Hs first Hin1). rewrite Hsame. reflexivity.
      + apply (Htie1 Hs second Hin2). rewrite Hsame. reflexivity. }
  subst second.
  exists first, (firstn 6 others). split; [exact E |]. split; [exact Hin1 |].
  intros c Hc. split; [apply Hmin1, Hc | apply (Htie1 Hs c Hc)].
Qed.

Lemma serving_cell_nearest_witness :
  let hexagons := hexagons_from 0 (tessellation 0 0 100 [2; 2; 2]%nat) in
  hexagons <> [] /\
  Forall is_cell hexagons /\
  StronglySorted (fun c1 c2 => (site_id c1 < site_id c2)%Z) hexagons /\
  exists (serving : feature) (interfering : list feature),
    find_closest_cell_areas hexagons (0, 0) = Ok ([serving], interfering) /\
    In serving hexagons /\
    forall c : feature,
      In c hexagons ->
      distance (centroid serving) (0, 0) <= distance (centroid c) (0, 0) /\
      (distance (centroid c) (0, 0) = distance (centroid serving) (0, 0) ->
       (site_id serving <= site_id c)%Z).
Proof.
  intros hexagons.
  destruct six_cells as (_ & H1 & H2 & H3 & _).
  split; [exact H1 |]. split; [exact H2 |]. split; [exact H3 |].
  exact (serving_cell_nearest hexagons (0, 0) H1 H2 H3).
Defined.

(** C7, as the code has it.  On an empty set of cells the index is built
    without an error and the first query is made on it; it has no answer,
    and taking its element 0 raises [IndexError]. *)
Theorem empty_index_IndexError (geom_shape : Point) :
  build_index [] = [] /\
  nearest (build_index []) geom_shape 1 = [] /\
  find_closest_cell_areas [] geom_shape = Raise "IndexError".
Proof. repeat split. Qed.

(** C7, as the specification has it, fails: the error on an empty set of
    cells is not [EmptyTessellationError]. *)
Lemma empty_index_not_EmptyTessellationError :
  find_closest_cell_areas [] (0, 0) = Raise "IndexError" /\
  find_closest_cell_areas [] (0, 0) <> Raise "EmptyTessellationError".
Proof. split; [reflexivity | discriminate]. Qed.



(** ** The pipeline *)

Section PipelineFacts.

Variable convert_point_to_projected_crs : Point -> Point.
Variable buffered_bounds : Point -> R -> R * R * R * R.

Local Abbreviation generate := (generate_cell_areas buffered_bounds).
Local Abbreviation produce :=
  (produce_sites_and_cell_areas convert_point_to_projected_crs buffered_bounds).

(** A run that has finished, with a result or an exception, finishes the
    same way on every larger budget. *)
Lemma generate_cell_areas_mono (fuel fuel' : nat) (point : Point) (cell_radius : R) :
  generate fuel point cell_radius <> OutOfFuel ->
  (fuel <= fuel')%nat ->
  generate fuel' point cell_radius = generate fuel point cell_radius.
Proof.
  unfold generate_cell_areas.
  destruct (buffered_bounds point (cell_radius * 2)) as [[[minx miny] maxx] maxy].
  intros Hfin Hle.
  destruct (calculate_polygons fuel minx miny maxx maxy cell_radius)
    as [polygon | e |] eqn:E.
  - rewrite (calculate_polygons_mono _ _ _ _ _ _ _ _ E Hle). reflexivity.
  - exfalso. exact (calculate_polygons_no_raise _ _ _ _ _ _ _ E).
  - exfalso. apply Hfin. reflexivity.
Qed.

Lemma produce_sites_and_cell_areas_mono (fuel fuel' : nat) (unprojected_point : Point)
  (cell_radius : R) :
  produce fuel unprojected_point cell_radius <> OutOfFuel ->
  (fuel <= fuel')%nat ->
  produce fuel' unprojected_point cell_radius =
  produce fuel unprojected_point cell_radius.
Proof.
  unfold produce_sites_and_cell_areas. intros Hfin Hle.
  rewrite (generate_cell_areas_mono fuel fuel'); [reflexivity | | exact Hle].
  intros E. apply Hfin. rewrite E. reflexivity.
Qed.

(** Once the tessellator has returned a hexagon, the rest of the
    pipeline returns. *)
Lemma selection_Ok (polygon : list Polygon) (geom_shape : Point) :
  polygon <> [] ->
  exists (serving : feature) (interfering : list feature),
    find_closest_cell_areas (hexagons_from 0 polygon) geom_shape
    = Ok ([serving], interfering) /\
    In serving (hexagons_from 0 polygon).
Proof.
  intros Hne.
  assert (Hne' : hexagons_from 0 polygon <> []).
  { destruct polygon; [contradiction | discriminate]. }
  destruct (find_closest_cell_areas_queries _ geom_shape Hne'
              (hexagons_from_is_cell polygon 0))
    as (first & second & others & _ & E2 & E).
  exists second, (firstn 6 others). split; [exact E |].
  apply (nearest_In _ (centroid first) 7). rewrite E2. left. reflexivity.
Qed.

Lemma find_site_locations_Ok (serving : feature) (interfering : list feature) :
  is_cell serving ->
  exists sites : list site * list site,
    find_site_locations [serving] interfering = Ok sites.
Proof.
  intros (ring & Hring & _). unfold find_site_locations. simpl.
  rewrite Hring. simpl. eexists. reflexivity.
Qed.

Lemma pipeline_Ok (fuel : nat) (unprojected_point : Point) (cell_radius : R)
  (polygon : list Polygon) :
  (let '(minx, miny, maxx, maxy) :=
     buffered_bounds (convert_point_to_projected_crs unprojected_point)
                     (cell_radius * 2) in
   calculate_polygons fuel minx miny maxx maxy cell_radius) = Ok polygon ->
  polygon <> [] ->
  exists out : list site * list site * list feature * list feature,
    produce fuel unprojected_point cell_radius = Ok out.
Proof.
  unfold produce_sites_and_cell_areas, generate_cell_areas.
  destruct (buffered_bounds _ _) as [[[minx miny] maxx] maxy].
  intros E Hne. rewrite E. simpl.
  destruct (selection_Ok polygon (convert_point_to_projected_crs unprojected_point) Hne)
    as (serving & interfering & Esel & Hin).
  rewrite Esel. simpl.
  pose proof (hexagons_from_is_cell polygon 0) as Hcells.
  rewrite Forall_forall in Hcells.
  destruct (find_site_locations_Ok serving interfering (Hcells _ Hin)) as [[tr its] Es].
  rewrite Es. simpl. eexists. reflexivity.
Qed.

(** A run of the pipeline that has finished has tessellated. *)
Lemma finished_tessellation (fuel : nat) (unprojected_point : Point) (cell_radius : R) :
  produce fuel unprojected_point cell_radius <> OutOfFuel ->
  exists polygon : list Polygon,
    let '(minx, miny, maxx, maxy) :=
      buffered_bounds (convert_point_to_projected_crs unprojected_point)
                      (cell_radius * 2) in
    calculate_polygons fuel minx miny maxx maxy cell_radius = Ok polygon.
Proof.
  unfold produce_sites_and_cell_areas, generate_cell_areas.
  destruct (buffered_bounds _ _) as [[[minx miny] maxx] maxy].
  destruct (calculate_polygons fuel minx miny maxx maxy cell_radius)
    as [polygon | e |] eqn:E; intros Hfin.
  - exists polygon. reflexivity.
  - exfalso. exact (calculate_polygons_no_raise _ _ _ _ _ _ _ E).
  - exfalso. apply Hfin. reflexivity.
Qed.

(** C8.  Two runs of the pipeline on the same point and radius that
    finish, whatever their budgets, finish alike: with the same
    exception, or with the same sites and cell areas, hence the same
    serving cell and the same interfering cells in the same order.  Both
    have tessellated into the same list of polygons, which
    [generate_cell_areas] numbers with the same [site_id]s. *)
Theorem pipeline_deterministic (fuel1 fuel2 : nat) (unprojected_point : Point)
  (cell_radius : R) :
  produce fuel1 unprojected_point cell_radius <> OutOfFuel ->
  produce fuel2 unprojected_point cell_radius <> OutOfFuel ->
  produce fuel1 unprojected_point cell_radius =
  produce fuel2 unprojected_point cell_radius /\
  exists polygon : list Polygon,
    let '(minx, miny, maxx, maxy) :=
      buffered_bounds (convert_point_to_projected_crs unprojected_point)
                      (cell_radius * 2) in
    calculate_polygons fuel1 minx miny maxx maxy cell_radius = Ok polygon /\
    calculate_polygons fuel2 minx miny maxx maxy cell_radius = Ok polygon.
Proof.
  intros H1 H2. split.
  - rewrite <- (produce_sites_and_cell_areas_mono fuel1 (Nat.max fuel1 fuel2) _ _ H1
                  (Nat.le_max_l _ _)).
    rewrite <- (produce_sites_and_cell_areas_mono fuel2 (Nat.max fuel1 fuel2) _ _ H2
                  (Nat.le_max_r _ _)).
    reflexivity.
  - destruct (finished_tessellation _ _ _ H1) as [polygon1 E1].
    destruct (finished_tessellation _ _ _ H2) as [polygon2 E2].
    destruct (buffered_bounds _ _) as [[[minx miny] maxx] maxy].
    exists polygon1. split; [exact E1 |].
    pose proof (calculate_polygons_mono _ _ _ _ _ _ _ _ E1 (Nat.le_max_l fuel1 fuel2)) as M1.
    pose proof (calculate_polygons_mono _ _ _ _ _ _ _ _ E2 (Nat.le_max_r fuel1 fuel2)) as M2.
    rewrite M1 in M2. injection M2 as <-. exact E2.
Qed.

End PipelineFacts.

(** The pipeline at the point [(0, 0)] with the radius 1, the identity
    for the reprojection: 9 steps suffice. *)
Lemma hex_p_1_bounds : 4 / 7 <= hex_p 1 <= 3 / 5.
Proof.
  pose proof (hex_p_pos 1 ltac:(lra)) as Hp.
  pose proof (hex_b_sqr 1) as Hb. rewrite hex_b_eq in Hb.
  split; nra.
Qed.

Lemma pipeline_at_origin (fuel : nat) :
  (9 <= fuel)%nat ->
  exists out : list site * list site * list feature * list feature,
    produce_sites_and_cell_areas (fun pt => pt) disc_bounds fuel (0, 0) 1 = Ok out.
Proof.
  intros Hfuel.
  pose proof hex_p_1_bounds as Hp.
  pose proof (hex_w_eq 1) as Hw. rewrite hex_b_eq in Hw.
  pose proof (hex_h_eq 1) as Hh.
  destruct (calculate_polygons_budget (0 - 1 * 2) (0 - 1 * 2) (0 + 1 * 2) (0 + 1 * 2) 1
              4 5 ltac:(lra)) as (ns & Hns & Hcounts).
  - simpl. lra.
  - simpl. lra.
  - apply (pipeline_Ok (fun pt => pt) disc_bounds fuel (0, 0) 1
             (tessellation (0 - 1 * 2) (0 - 1 * 2) 1 ns)).
    + unfold disc_bounds. simpl. apply Hns. simpl. exact Hfuel.
    + apply (tessellation_nonempty _ _ (0 + 1 * 2) (0 + 1 * 2)); try lra.
      exact Hcounts.
Qed.

Lemma pipeline_deterministic_witness :
  produce_sites_and_cell_areas (fun pt => pt) disc_bounds 9 (0, 0) 1 <> OutOfFuel /\
  produce_sites_and_cell_areas (fun pt => pt) disc_bounds 10 (0, 0) 1 <> OutOfFuel /\
  produce_sites_and_cell_areas (fun pt => pt) disc_bounds 9 (0, 0) 1 =
  produce_sites_and_cell_areas (fun pt => pt) disc_bounds 10 (0, 0) 1 /\
  exists polygon : list Polygon,
    let '(minx, miny, maxx, maxy) := disc_bounds (0, 0) (1 * 2) in
    calculate_polygons 9 minx miny maxx maxy 1 = Ok polygon /\
    calculate_polygons 10 minx miny maxx maxy 1 = Ok polygon.
Proof.
  assert (H9 : produce_sites_and_cell_areas (fun pt => pt) disc_bounds 9 (0, 0) 1
               <> OutOfFuel).
  { destruct (pipeline_at_origin 9 (Nat.le_refl 9)) as [out E]. rewrite E. discriminate. }
  assert (H10 : produce_sites_and_cell_areas (fun pt => pt) disc_bounds 10 (0, 0) 1
                <> OutOfFuel).
  { destruct (pipeline_at_origin 10 (Nat.le_succ_diag_r 9)) as [out E].
    rewrite E. discriminate. }
  split; [exact H9 |]. split; [exact H10 |].
  exact (pipeline_deterministic (fun pt => pt) disc_bounds 9 10 (0, 0) 1 H9 H10).
Defined.

(** In exact arithmetic the tessellation is never empty.  For a positive
    radius and a rectangle with [startx <= endx] and [starty <= endy],
    also one that is a single point, the shifted start is left of and
    below the shifted end, the tessellator returns at least one hexagon,
    and the selection finds its index non-empty; so a run of
    [generate_cell_areas] on any point returns its cell areas.  On
    binary64 numbers the shift can be lost to rounding: see
    [Binary64Facts]. *)
Theorem tessellation_never_empty (startx starty endx endy radius : R) :
  0 < radius -> startx <= endx -> starty <= endy ->
  startx - hex_w radius < endx + hex_w radius /\
  starty - hex_h radius < endy + hex_h radius /\
  (exists polygon : list Polygon,
     returns (fun fuel => calculate_polygons fuel startx starty endx endy radius) polygon /\
     polygon <> [] /\
     forall geom_shape : Point,
       nearest (build_index (hexagons_from 0 polygon)) geom_shape 1 <> [] /\
       exists areas : list feature * list feature,
         find_closest_cell_areas (hexagons_from 0 polygon) geom_shape = Ok areas) /\
  (forall (buffered_bounds : Point -> R -> R * R * R * R) (point : Point),
     buffers_discs buffered_bounds ->
     exists areas : list feature * list feature,
       returns (fun fuel => generate_cell_areas buffered_bounds fuel point radius) areas).
Proof.
  intros Hr Hx Hy.
  pose proof (hex_p_pos radius Hr) as Hp.
  pose proof (hex_w_eq radius) as Hw. rewrite hex_b_eq in Hw.
  pose proof (hex_h_eq radius) as Hh.
  split; [lra |]. split; [lra |]. split.
  - destruct (calculate_polygons_returns startx starty endx endy radius Hr)
      as (ns & Hret & Hns).
    pose proof (tessellation_nonempty _ _ _ _ _ _ Hr Hx Hy Hns) as Hne.
    exists (tessellation startx starty radius ns).
    split; [exact Hret |]. split; [exact Hne |].
    intros geom_shape. split.
    + assert (Hne' : hexagons_from 0 (tessellation startx starty radius ns) <> []).
      { destruct (tessellation startx starty radius ns); [contradiction | discriminate]. }
      destruct (nearest_head _ geom_shape 0 Hne') as (first & rest & E & _).
      rewrite E. discriminate.
    + destruct (selection_Ok _ geom_shape Hne) as (serving & interfering & E & _).
      eexists. exact E.
  - intros buffered_bounds [x y] Hdisc.
    destruct (calculate_polygons_returns (x - radius * 2) (y - radius * 2)
                (x + radius * 2) (y + radius * 2) radius Hr) as (ns & [n Hret] & Hns).
    assert (Hbx : x - radius * 2 <= x + radius * 2) by lra.
    assert (Hby : y - radius * 2 <= y + radius * 2) by lra.
    pose proof (tessellation_nonempty _ _ _ _ _ _ Hr Hbx Hby Hns) as Hne.
    destruct (selection_Ok _ (x, y) Hne) as (serving & interfering & E & _).
    exists ([serving], interfering), n. intros fuel Hfuel.
    unfold generate_cell_areas. rewrite (Hdisc (x, y) (radius * 2)) by lra.
    unfold disc_bounds. simpl. rewrite (Hret fuel Hfuel). simpl. exact E.
Qed.

Lemma tessellation_never_empty_witness :
  0 < 750 /\ 0 <= 0 /\ 0 <= 0 /\
  0 - hex_w 750 < 0 + hex_w 750 /\
  0 - hex_h 750 < 0 + hex_h 750 /\
  (exists polygon : list Polygon,
     returns (fun fuel => calculate_polygons fuel 0 0 0 0 750) polygon /\
     polygon <> [] /\
     forall geom_shape : Point,
       nearest (build_index (hexagons_from 0 polygon)) geom_shape 1 <> [] /\
       exists areas : list feature * list feature,
         find_closest_cell_areas (hexagons_from 0 polygon) geom_shape = Ok areas) /\
  (forall (buffered_bounds : Point -> R -> R * R * R * R) (point : Point),
     buffers_discs buffered_bounds ->
     exists areas : list feature * list feature,
       returns (fun fuel => generate_cell_areas buffered_bounds fuel point 750) areas).
Proof.
  assert (H1 : 0 < 750) by lra.
  split; [exact H1 |]. split; [apply Rle_refl |]. split; [apply Rle_refl |].
  exact (tessellation_never_empty 0 0 0 0 750 H1 (Rle_refl 0) (Rle_refl 0)).
Defined.

(** Every run of [generate_cell_areas] with a positive radius returns six
    interfering cells. *)
Example generate_cell_areas_six (buffered_bounds : Point -> R -> R * R * R * R)
  (point : Point) (cell_radius : R) :
  buffers_discs buffered_bounds ->
  0 < cell_radius ->
  exists (serving : feature) (interfering : list feature),
    returns (fun fuel => generate_cell_areas buffered_bounds fuel point cell_radius)
            ([serving], interfering) /\
    List.length interfering = 6%nat.
Proof.
  intros Hdisc Hr. destruct point as [x y].
  destruct (buffered_point_tessellation x y cell_radius Hr) as [n Hret].
  remember (hexagons_from 0 (tessellation (x - cell_radius * 2) (y - cell_radius * 2)
                               cell_radius [4; 4; 4; 4; 4]%nat)) as hexagons eqn:Eh.
  assert (Hlen : List.length hexagons = 20%nat) by (rewrite Eh; reflexivity).
  assert (Hne : hexagons <> []) by (intros E; rewrite E in Hlen; discriminate).
  assert (Hcells : Forall is_cell hexagons) by (rewrite Eh; apply hexagons_from_is_cell).
  destruct (find_closest_cell_areas_queries hexagons (x, y) Hne Hcells)
    as (first & second & others & _ & E2 & E).
  exists second, (firstn 6 others). split.
  - exists n. intros fuel Hfuel. unfold generate_cell_areas.
    rewrite (Hdisc (x, y) (cell_radius * 2)) by lra.
    unfold disc_bounds. cbn [fst snd]. cbv beta iota.
    rewrite (Hret fuel Hfuel). cbn [bind]. rewrite <- Eh. exact E.
  - pose proof (nearest_length (build_index hexagons) (centroid first) 7) as Hl.
    rewrite E2 in Hl. unfold build_index in Hl. rewrite length_map, Hlen in Hl.
    cbn [List.length] in Hl. rewrite length_firstn. lia.
Qed.

(** * Further properties *)

(** ** Squared distances *)

Lemma distance_le (a c q : Point) :
  distance a q <= distance c q <->
  (fst a - fst q) * (fst a - fst q) + (snd a - snd q) * (snd a - snd q) <=
  (fst c - fst q) * (fst c - fst q) + (snd c - snd q) * (snd c - snd q).
Proof.
  unfold distance.
  pose proof (Rle_0_sqr (fst a - fst q)) as H1. pose proof (Rle_0_sqr (snd a - snd q)) as H2.
  pose proof (Rle_0_sqr (fst c - fst q)) as H3. pose proof (Rle_0_sqr (snd c - snd q)) as H4.
  unfold Rsqr in *. split.
  - intros H. apply sqrt_le_0 in H; lra.
  - intros H. apply sqrt_le_1_alt, H.
Qed.

Lemma distance_lt (a c q : Point) :
  distance a q < distance c q <->
  (fst a - fst q) * (fst a - fst q) + (snd a - snd q) * (snd a - snd q) <
  (fst c - fst q) * (fst c - fst q) + (snd c - snd q) * (snd c - snd q).
Proof.
  unfold distance.
  pose proof (Rle_0_sqr (fst a - fst q)) as H1. pose proof (Rle_0_sqr (snd a - snd q)) as H2.
  pose proof (Rle_0_sqr (fst c - fst q)) as H3. pose proof (Rle_0_sqr (snd c - snd q)) as H4.
  unfold Rsqr in *. split.
  - intros H. apply sqrt_lt_0_alt in H. exact H.
  - intros H. apply sqrt_lt_1_alt. lra.
Qed.

(** ** The lattice of the centres *)

(** A linear form on the hexagon [|a| <= m], [|a| + |c| <= 2 * m] is
    largest at one of its six corners. *)
Lemma hexagon_extreme (a c m I K T : R) :
  - m <= a <= m ->
  a + c <= 2 * m -> a - c <= 2 * m -> - a + c <= 2 * m -> - a - c <= 2 * m ->
  2 * (I + K) * m <= T -> 2 * (I - K) * m <= T ->
  2 * (- I + K) * m <= T -> 2 * (- I - K) * m <= T ->
  4 * K * m <= T -> - 4 * K * m <= T ->
  2 * (a * I + c * K) <= T.
Proof.
  intros Ha H1 H2 H3 H4 V1 V2 V3 V4 V5 V6.
  destruct (Rle_lt_dec 0 I) as [HI | HI], (Rle_lt_dec 0 K) as [HK | HK].
  - destruct (Rle_lt_dec K I) as [HIK | HIK].
    + assert (0 <= K * (2 * m - a - c)) by (apply Rmult_le_pos; lra).
      assert (0 <= (I - K) * (m - a)) by (apply Rmult_le_pos; lra). lra.
    + assert (0 <= I * (2 * m - a - c)) by (apply Rmult_le_pos; lra).
      assert (0 <= (K - I) * (2 * m - a - c + (2 * m + a - c))) by (apply Rmult_le_pos; lra).
      lra.
  - destruct (Rle_lt_dec (- K) I) as [HIK | HIK].
    + assert (0 <= (- K) * (2 * m - a + c)) by (apply Rmult_le_pos; lra).
      assert (0 <= (I + K) * (m - a)) by (apply Rmult_le_pos; lra). lra.
    + assert (0 <= I * (2 * m - a + c)) by (apply Rmult_le_pos; lra).
      assert (0 <= (- K - I) * (2 * m - a + c + (2 * m + a + c))) by (apply Rmult_le_pos; lra).
      lra.
  - destruct (Rle_lt_dec K (- I)) as [HIK | HIK].
    + assert (0 <= K * (2 * m + a - c)) by (apply Rmult_le_pos; lra).
      assert (0 <= (- I - K) * (m + a)) by (apply Rmult_le_pos; lra). lra.
    + assert (0 <= (- I) * (2 * m + a - c)) by (apply Rmult_le_pos; lra).
      assert (0 <= (K + I) * (2 * m - a - c + (2 * m + a - c))) by (apply Rmult_le_pos; lra).
      lra.
  - destruct (Rle_lt_dec (- K) (- I)) as [HIK | HIK].
    + assert (0 <= (- K) * (2 * m + a + c)) by (apply Rmult_le_pos; lra).
      assert (0 <= (K - I) * (m + a)) by (apply Rmult_le_pos; lra). lra.
    + assert (0 <= (- I) * (2 * m + a + c)) by (apply Rmult_le_pos; lra).
      assert (0 <= (I - K) * (2 * m - a + c + (2 * m + a + c))) by (apply Rmult_le_pos; lra).
      lra.
Qed.

Lemma positive_combination (X Y s t : R) :
  0 <= X -> 0 <= Y -> 0 < s -> 0 < t -> X <> 0 \/ Y <> 0 -> 0 < X * s + Y * t.
Proof.
  intros HX HY Hs Ht Hne.
  assert (0 <= X * s) by (apply Rmult_le_pos; lra).
  assert (0 <= Y * t) by (apply Rmult_le_pos; lra).
  destruct Hne as [Hne | Hne].
  - assert (0 < X * s) by (apply Rmult_lt_0_compat; lra). lra.
  - assert (0 < Y * t) by (apply Rmult_lt_0_compat; lra). lra.
Qed.

(** Strictly inside the hexagon a linear form that is not zero stays
    strictly below its largest value at the corners. *)
Lemma hexagon_extreme_strict (a c m I K T : R) :
  - m < a < m ->
  a + c < 2 * m -> a - c < 2 * m -> - a + c < 2 * m -> - a - c < 2 * m ->
  I <> 0 \/ K <> 0 ->
  2 * (I + K) * m <= T -> 2 * (I - K) * m <= T ->
  2 * (- I + K) * m <= T -> 2 * (- I - K) * m <= T ->
  4 * K * m <= T -> - 4 * K * m <= T ->
  2 * (a * I + c * K) < T.
Proof.
  intros Ha H1 H2 H3 H4 Hne V1 V2 V3 V4 V5 V6.
  assert (Hs : I < 0 \/ 0 < I \/ K < 0 \/ 0 < K).
  { destruct Hne as [Hne | Hne]; apply Rdichotomy in Hne; destruct Hne; auto. }
  assert (Hcombo : forall X Y s t : R,
             0 <= X -> 0 <= Y -> 0 < s -> 0 < t -> 0 < X \/ 0 < Y -> 0 < X * s + Y * t).
  { intros X Y s t HX HY Hs' Ht Hp. apply positive_combination; lra. }
  destruct (Rle_lt_dec 0 I) as [HI | HI], (Rle_lt_dec 0 K) as [HK | HK].
  - destruct (Rle_lt_dec K I) as [HIK | HIK].
    + assert (0 < K * (2 * m - a - c) + (I - K) * (m - a)).
      { apply Hcombo; lra. }
      lra.
    + assert (0 < I * (2 * (2 * m - a - c)) + (K - I) * (2 * m - a - c + (2 * m + a - c))).
      { apply Hcombo; lra. }
      lra.
  - destruct (Rle_lt_dec (- K) I) as [HIK | HIK].
    + assert (0 < (- K) * (2 * m - a + c) + (I + K) * (m - a)).
      { apply Hcombo; lra. }
      lra.
    + assert (0 < I * (2 * (2 * m - a + c)) + (- K - I) * (2 * m - a + c + (2 * m + a + c))).
      { apply Hcombo; lra. }
      lra.
  - destruct (Rle_lt_dec K (- I)) as [HIK | HIK].
    + assert (0 < K * (2 * m + a - c) + (- I - K) * (m + a)).
      { apply Hcombo; lra. }
      lra.
    + assert (0 < (- I) * (2 * (2 * m + a - c)) + (K + I) * (2 * m - a - c + (2 * m + a - c))).
      { apply Hcombo; lra. }
      lra.
  - destruct (Rle_lt_dec (- K) (- I)) as [HIK | HIK].
    + assert (0 < (- K) * (2 * m + a + c) + (K - I) * (m + a)).
      { apply Hcombo; lra. }
      lra.
    + assert (0 < (- I) * (2 * (2 * m + a + c)) + (I - K) * (2 * m - a + c + (2 * m + a + c))).
      { apply Hcombo; lra. }
      lra.
Qed.

Lemma Z_square_ge (z : Z) : (z <= z * z /\ - z <= z * z)%Z.
Proof. destruct (Z_le_gt_dec z 0); split; nia. Qed.

(** What the steps between two centres of the lattice satisfy: [i] steps
    of [b] to the right and [k] rows up, with [i + k] even. *)
Lemma lattice_steps (i k : Z) :
  Z.even (i + k) = true ->
  2 * (IZR i + IZR k) <= IZR i * IZR i + 3 * (IZR k * IZR k) /\
  2 * (IZR i - IZR k) <= IZR i * IZR i + 3 * (IZR k * IZR k) /\
  2 * (- IZR i + IZR k) <= IZR i * IZR i + 3 * (IZR k * IZR k) /\
  2 * (- IZR i - IZR k) <= IZR i * IZR i + 3 * (IZR k * IZR k) /\
  4 * IZR k <= IZR i * IZR i + 3 * (IZR k * IZR k) /\
  - 4 * IZR k <= IZR i * IZR i + 3 * (IZR k * IZR k).
Proof.
  intros Hev. apply Z.even_spec in Hev. destruct Hev as [t Ht].
  assert (Hz : (2 * (i + k) <= i * i + 3 * (k * k) /\
                2 * (i - k) <= i * i + 3 * (k * k) /\
                2 * (- i + k) <= i * i + 3 * (k * k) /\
                2 * (- i - k) <= i * i + 3 * (k * k) /\
                4 * k <= i * i + 3 * (k * k) /\
                - 4 * k <= i * i + 3 * (k * k))%Z).
  { assert (Hi : i = (2 * t - k)%Z) by lia. subst i. clear Ht.
    pose proof (Z_square_ge t) as [Ht1 Ht2].
    pose proof (Z_square_ge (t - 1)) as [Ht3 Ht4].
    pose proof (Z_square_ge (t + 1)) as [Ht5 Ht6].
    assert (Hk : (k = 0 \/ k = 1 \/ k = -1 \/ 2 <= k \/ k <= -2)%Z) by lia.
    destruct Hk as [-> | [-> | [-> | [Hk | Hk]]]].
    - repeat split; nia.
    - repeat split; nia.
    - repeat split; nia.
    - pose proof (Z.square_nonneg (2 * t - k - 1)).
      pose proof (Z.square_nonneg (2 * t - k + 1)).
      assert (4 * k + 1 <= 3 * (k * k))%Z by nia.
      repeat split; nia.
    - pose proof (Z.square_nonneg (2 * t - k - 1)).
      pose proof (Z.square_nonneg (2 * t - k + 1)).
      assert (- 4 * k + 1 <= 3 * (k * k))%Z by nia.
      repeat split; nia. }
  destruct Hz as (Z1 & Z2 & Z3 & Z4 & Z5 & Z6).
  apply IZR_le in Z1, Z2, Z3, Z4, Z5, Z6.
  repeat rewrite ?plus_IZR, ?minus_IZR, ?mult_IZR, ?opp_IZR in *.
  repeat split; lra.
Qed.

Lemma lattice_steps_nonzero (i k : Z) :
  Z.even (i + k) = true -> i <> 0%Z \/ k <> 0%Z ->
  4 <= IZR i * IZR i + 3 * (IZR k * IZR k).
Proof.
  intros Hev Hne. apply Z.even_spec in Hev. destruct Hev as [t Ht].
  assert (Hz : (4 <= i * i + 3 * (k * k))%Z).
  { assert (Hi : i = (2 * t - k)%Z) by lia. subst i. clear Ht.
    assert (Hk : (k = 0 \/ k = 1 \/ k = -1 \/ 2 <= k \/ k <= -2)%Z) by lia.
    destruct Hk as [-> | [-> | [-> | [Hk | Hk]]]].
    - assert (t <> 0)%Z by lia. assert (1 <= t * t)%Z by nia. nia.
    - pose proof (Z.square_nonneg (2 * t - 1)). nia.
    - pose proof (Z.square_nonneg (2 * t + 1)). nia.
    - pose proof (Z.square_nonneg (2 * t - k)). nia.
    - pose proof (Z.square_nonneg (2 * t - k)). nia. }
  apply IZR_le in Hz.
  repeat rewrite ?plus_IZR, ?mult_IZR in Hz. lra.
Qed.

Section Voronoi.

Variables (p b : R).
Hypothesis p_pos : 0 < p.
Hypothesis b_pos : 0 < b.
Hypothesis b_sqr : b * b = 3 * (p * p).

Variables (origx origy : R).

Local Abbreviation hexagon := (lattice_hexagon p b origx origy).
Local Abbreviation centre := (lattice_centre p b origx origy).

Lemma pb_pos : 0 < p * b.
Proof. apply Rmult_lt_0_compat; assumption. Qed.

(** What a point covered by a hexagon satisfies, relative to the centre. *)
Lemma covers_hexagon_inv (i k : Z) (x y : R) :
  covers (hexagon i k) (x, y) ->
  let u := x - fst (centre i k) in
  let v := y - snd (centre i k) in
  - (p * b) <= p * u <= p * b /\
  p * u + b * v <= 2 * (p * b) /\ p * u - b * v <= 2 * (p * b) /\
  - (p * u) + b * v <= 2 * (p * b) /\ - (p * u) - b * v <= 2 * (p * b).
Proof.
  pose proof pb_pos as Hpb.
  unfold covers, lattice_hexagon, lattice_centre. cbn [poly edges fst snd].
  intros [H | H];
    repeat (apply Forall_cons_iff in H; let E := fresh "E" in destruct H as [E H]);
    unfold cross in *; cbn [fst snd] in *; repeat split; lra.
Qed.

Lemma strictly_inside_hexagon_inv (i k : Z) (x y : R) :
  strictly_inside (hexagon i k) (x, y) ->
  let u := x - fst (centre i k) in
  let v := y - snd (centre i k) in
  - (p * b) < p * u < p * b /\
  p * u + b * v < 2 * (p * b) /\ p * u - b * v < 2 * (p * b) /\
  - (p * u) + b * v < 2 * (p * b) /\ - (p * u) - b * v < 2 * (p * b).
Proof.
  pose proof pb_pos as Hpb.
  unfold strictly_inside, lattice_hexagon, lattice_centre. cbn [poly edges fst snd].
  intros [H | H];
    repeat (apply Forall_cons_iff in H; let E := fresh "E" in destruct H as [E H]);
    unfold cross in *; cbn [fst snd] in *; repeat split; lra.
Qed.

(** The squared distance to a centre [I] steps right and [K] rows up, in
    terms of the one to the centre itself. *)
Lemma steps_away (u v I K : R) :
  2 * (p * u * I + b * v * K) <= (I * I + 3 * (K * K)) * (p * b) ->
  u * u + v * v <= (u - I * b) * (u - I * b) + (v - K * (3 * p)) * (v - K * (3 * p)).
Proof.
  intros H.
  assert (E : p * ((u - I * b) * (u - I * b) + (v - K * (3 * p)) * (v - K * (3 * p))
                   - (u * u + v * v))
              = b * ((I * I + 3 * (K * K)) * (p * b) - 2 * (p * u * I + b * v * K))
                + (b * b - 3 * (p * p)) * (2 * v * K - 3 * K * K * p)).
  { ring. }
  rewrite b_sqr in E.
  assert (0 <= b * ((I * I + 3 * (K * K)) * (p * b) - 2 * (p * u * I + b * v * K)))
    by (apply Rmult_le_pos; lra).
  nra.
Qed.

Lemma steps_away_strict (u v I K : R) :
  2 * (p * u * I + b * v * K) < (I * I + 3 * (K * K)) * (p * b) ->
  u * u + v * v < (u - I * b) * (u - I * b) + (v - K * (3 * p)) * (v - K * (3 * p)).
Proof.
  intros H.
  assert (E : p * ((u - I * b) * (u - I * b) + (v - K * (3 * p)) * (v - K * (3 * p))
                   - (u * u + v * v))
              = b * ((I * I + 3 * (K * K)) * (p * b) - 2 * (p * u * I + b * v * K))
                + (b * b - 3 * (p * p)) * (2 * v * K - 3 * K * K * p)).
  { ring. }
  rewrite b_sqr in E.
  assert (0 < b * ((I * I + 3 * (K * K)) * (p * b) - 2 * (p * u * I + b * v * K)))
    by (apply Rmult_lt_0_compat; lra).
  nra.
Qed.

Lemma even_difference (i k i' k' : Z) :
  Z.even (i + k) = true -> Z.even (i' + k') = true ->
  Z.even ((i' - i) + (k' - k)) = true.
Proof.
  intros H H'. apply Z.even_spec in H, H'. destruct H as [t Ht], H' as [t' Ht'].
  apply Z.even_spec. exists (t' - t)%Z. lia.
Qed.

(** The centre of a hexagon that covers a point is, of all the centres of
    the lattice, one of the nearest to that point. *)
Lemma covering_centre_nearest (i k i' k' : Z) (x y : R) :
  covers (hexagon i k) (x, y) ->
  Z.even (i + k) = true -> Z.even (i' + k') = true ->
  distance (centre i k) (x, y) <= distance (centre i' k') (x, y).
Proof.
  intros Hc Hev Hev'. apply distance_le.
  pose proof (covers_hexagon_inv _ _ _ _ Hc) as Hinv. cbv zeta in Hinv.
  pose proof (lattice_steps _ _ (even_difference _ _ _ _ Hev Hev')) as Hsteps.
  rewrite !minus_IZR in Hsteps.
  pose proof pb_pos as Hpb.
  unfold lattice_centre in *. cbn [fst snd] in *.
  remember (x - (origx + IZR i * b + b)) as u eqn:Eu.
  remember (y - (origy + IZR k * (3 * p) + 2 * p)) as v eqn:Ev.
  remember (IZR i' - IZR i) as I eqn:EI.
  remember (IZR k' - IZR k) as K eqn:EK.
  assert (Hmain : u * u + v * v
                  <= (u - I * b) * (u - I * b) + (v - K * (3 * p)) * (v - K * (3 * p))).
  { apply steps_away.
    replace (p * u * I + b * v * K) with (p * u * I + b * v * K) by ring.
    apply (hexagon_extreme (p * u) (b * v) (p * b) I K); try lra; nra. }
  replace (origx + IZR i * b + b - x) with (- u) by lra.
  replace (origy + IZR k * (3 * p) + 2 * p - y) with (- v) by lra.
  replace (origx + IZR i' * b + b - x) with (- (u - I * b)) by (subst u I; ring).
  replace (origy + IZR k' * (3 * p) + 2 * p - y) with (- (v - K * (3 * p)))
    by (subst v K; ring).
  lra.
Qed.

(** Strictly inside a hexagon its centre is strictly the nearest. *)
Lemma inside_centre_nearest (i k i' k' : Z) (x y : R) :
  strictly_inside (hexagon i k) (x, y) ->
  Z.even (i + k) = true -> Z.even (i' + k') = true ->
  i' <> i \/ k' <> k ->
  distance (centre i k) (x, y) < distance (centre i' k') (x, y).
Proof.
  intros Hc Hev Hev' Hne. apply distance_lt.
  pose proof (strictly_inside_hexagon_inv _ _ _ _ Hc) as Hinv. cbv zeta in Hinv.
  pose proof (lattice_steps _ _ (even_difference _ _ _ _ Hev Hev')) as Hsteps.
  rewrite !minus_IZR in Hsteps.
  pose proof pb_pos as Hpb.
  assert (HIK : IZR i' - IZR i <> 0 \/ IZR k' - IZR k <> 0).
  { destruct Hne as [Hne | Hne]; [left | right]; rewrite <- minus_IZR;
      apply not_0_IZR; lia. }
  unfold lattice_centre in *. cbn [fst snd] in *.
  remember (x - (origx + IZR i * b + b)) as u eqn:Eu.
  remember (y - (origy + IZR k * (3 * p) + 2 * p)) as v eqn:Ev.
  remember (IZR i' - IZR i) as I eqn:EI.
  remember (IZR k' - IZR k) as K eqn:EK.
  assert (Hmain : u * u + v * v
                  < (u - I * b) * (u - I * b) + (v - K * (3 * p)) * (v - K * (3 * p))).
  { apply steps_away_strict.
    apply (hexagon_extreme_strict (p * u) (b * v) (p * b) I K); try lra; try assumption;
      nra. }
  replace (origx + IZR i * b + b - x) with (- u) by lra.
  replace (origy + IZR k * (3 * p) + 2 * p - y) with (- v) by lra.
  replace (origx + IZR i' * b + b - x) with (- (u - I * b)) by (subst u I; ring).
  replace (origy + IZR k' * (3 * p) + 2 * p - y) with (- (v - K * (3 * p)))
    by (subst v K; ring).
  lra.
Qed.

(** A point covered by a hexagon is no further from its centre than a
    corner is. *)
Lemma covered_within_side (i k : Z) (x y : R) :
  covers (hexagon i k) (x, y) ->
  distance (centre i k) (x, y) <= 2 * p.
Proof.
  intros Hc.
  pose proof (covers_hexagon_inv _ _ _ _ Hc) as Hinv. cbv zeta in Hinv.
  pose proof pb_pos as Hpb.
  unfold distance, lattice_centre in *. cbn [fst snd] in *.
  remember (x - (origx + IZR i * b + b)) as u eqn:Eu.
  remember (y - (origy + IZR k * (3 * p) + 2 * p)) as v eqn:Ev.
  replace (origx + IZR i * b + b - x) with (- u) by lra.
  replace (origy + IZR k * (3 * p) + 2 * p - y) with (- v) by lra.
  rewrite <- (sqrt_square (2 * p)) by lra.
  apply sqrt_le_1_alt.
  assert (Hq : 3 * ((p * u) * (p * u)) + (b * v) * (b * v) <= 4 * ((p * b) * (p * b))).
  { destruct (Rle_lt_dec 0 (p * u)), (Rle_lt_dec 0 (b * v)); nra. }
  assert (E : 3 * ((p * u) * (p * u)) + (b * v) * (b * v)
              = 3 * (p * p) * (u * u + v * v) + (b * b - 3 * (p * p)) * (v * v)) by ring.
  assert (E' : 4 * ((p * b) * (p * b))
               = 3 * (p * p) * (4 * (p * p)) + (b * b - 3 * (p * p)) * (4 * (p * p)))
    by ring.
  rewrite b_sqr in E, E'.
  assert (0 < 3 * (p * p)) by nra.
  nra.
Qed.

Lemma slanted_side (s t : R) :
  2 * (s * b) + 2 * (t * (3 * p)) <= b * b + 3 * p * (3 * p) ->
  p * s + b * t <= 2 * (p * b).
Proof.
  intros H. rewrite b_sqr in H.
  assert (E : b * (p * s + b * t - 2 * (p * b))
              = p * (s * b + 3 * (t * p) - 6 * (p * p))
                + (b * b - 3 * (p * p)) * (t - 2 * p)) by ring.
  rewrite b_sqr in E. nra.
Qed.

(** A point no further from the centre of a hexagon than from the
    centres of its six neighbours is covered by the hexagon. *)
Lemma nearer_than_neighbours (i k : Z) (x y : R) :
  (forall di dk : Z, In (di, dk) neighbour_steps ->
     distance (centre i k) (x, y) <= distance (centre (i + di) (k + dk)) (x, y)) ->
  covers (hexagon i k) (x, y).
Proof.
  intros H. pose proof pb_pos as Hpb.
  assert (H1 := H 2%Z 0%Z ltac:(simpl; tauto)).
  assert (H2 := H (-2)%Z 0%Z ltac:(simpl; tauto)).
  assert (H3 := H 1%Z 1%Z ltac:(simpl; tauto)).
  assert (H4 := H 1%Z (-1)%Z ltac:(simpl; tauto)).
  assert (H5 := H (-1)%Z 1%Z ltac:(simpl; tauto)).
  assert (H6 := H (-1)%Z (-1)%Z ltac:(simpl; tauto)).
  clear H. apply distance_le in H1, H2, H3, H4, H5, H6.
  unfold lattice_centre in *. cbn [fst snd] in *.
  rewrite !plus_IZR in *.
  remember (x - (origx + IZR i * b + b)) as u eqn:Eu.
  remember (y - (origy + IZR k * (3 * p) + 2 * p)) as v eqn:Ev.
  assert (Hu1 : u <= b) by nra.
  assert (Hu2 : - b <= u) by nra.
  assert (S1 : p * u + b * v <= 2 * (p * b)) by (apply slanted_side; nra).
  assert (S2 : p * u + b * (- v) <= 2 * (p * b)) by (apply slanted_side; nra).
  assert (S3 : p * (- u) + b * v <= 2 * (p * b)) by (apply slanted_side; nra).
  assert (S4 : p * (- u) + b * (- v) <= 2 * (p * b)) by (apply slanted_side; nra).
  unfold lattice_hexagon.
  replace (x, y) with (origx + IZR i * b + (u + b), origy + IZR k * (3 * p) + (v + 2 * p))
    by (f_equal; lra).
  apply covers_hexagon; try assumption; lra.
Qed.

(** Of two hexagons of the lattice, the one whose centre is at least as
    near to a point the other covers covers that point too. *)
Lemma nearest_centre_covers (i k i' k' : Z) (x y : R) :
  covers (hexagon i k) (x, y) ->
  Z.even (i + k) = true -> Z.even (i' + k') = true ->
  distance (centre i' k') (x, y) <= distance (centre i k) (x, y) ->
  covers (hexagon i' k') (x, y).
Proof.
  intros Hc Hev Hev' Hle. apply nearer_than_neighbours. intros di dk Hin.
  apply Rle_trans with (1 := Hle).
  apply covering_centre_nearest; try assumption.
  apply Z.even_spec in Hev'. destruct Hev' as [t Ht]. apply Z.even_spec.
  simpl in Hin.
  destruct Hin as [E | [E | [E | [E | [E | [E | []]]]]]]; injection E as <- <-;
    [exists (t + 1)%Z | exists (t - 1)%Z | exists (t + 1)%Z | exists t | exists t
     | exists (t - 1)%Z]; lia.
Qed.

(** Two different centres of the lattice are at least [2 * b] apart. *)
Lemma centres_apart (i k i' k' : Z) :
  Z.even (i + k) = true -> Z.even (i' + k') = true ->
  i' <> i \/ k' <> k ->
  2 * b <= distance (centre i k) (centre i' k').
Proof.
  intros Hev Hev' Hne.
  assert (Hne' : (i' - i <> 0 \/ k' - k <> 0)%Z) by lia.
  pose proof (lattice_steps_nonzero _ _ (even_difference _ _ _ _ Hev Hev') Hne') as Hs.
  rewrite !minus_IZR in Hs.
  unfold distance, lattice_centre. cbn [fst snd].
  rewrite <- (sqrt_square (2 * b)) by lra.
  apply sqrt_le_1_alt.
  remember (IZR i' - IZR i) as I eqn:EI.
  remember (IZR k' - IZR k) as K eqn:EK.
  replace (origx + IZR i * b + b - (origx + IZR i' * b + b)) with (- (I * b))
    by (subst I; ring).
  replace (origy + IZR k * (3 * p) + 2 * p - (origy + IZR k' * (3 * p) + 2 * p))
    with (- (K * (3 * p))) by (subst K; ring).
  assert (E : - (I * b) * - (I * b) + - (K * (3 * p)) * - (K * (3 * p))
              = (I * I + 3 * (K * K)) * (3 * (p * p))
                + (b * b - 3 * (p * p)) * (I * I)) by ring.
  rewrite E, b_sqr.
  assert (0 < p * p) by nra. nra.
Qed.

(** Every hexagon of a grid is a hexagon of the lattice of its first
    anchor. *)
Lemma grid_lattice (ns : list nat) :
  forall (k0 : nat) (sy : R) (r : Z) (q : Polygon),
    sy = origy + INR k0 * (3 * p) ->
    r = (1 + Z.of_nat k0)%Z ->
    In q (grid_polygons p b (2 * b) (4 * p) origx b (3 * p) sy r ns) ->
    exists i k : Z, Z.even (i + k) = true /\ q = hexagon i k.
Proof.
  induction ns as [| n ns IH]; intros k0 sy r q Hsy Hr Hq; simpl in Hq;
    [contradiction |].
  apply in_app_or in Hq. destruct Hq as [Hq | Hq].
  - unfold row_polygons in Hq. apply in_map_iff in Hq. destruct Hq as (j & <- & _).
    unfold row_origin. rewrite Zmod_even.
    destruct (Z.even r) eqn:Ek; cbn [Z.eqb].
    + exists (2 * Z.of_nat j + 1)%Z, (Z.of_nat k0). split.
      * replace (2 * Z.of_nat j + 1 + Z.of_nat k0)%Z with (r + 2 * Z.of_nat j)%Z by lia.
        rewrite Z.even_add_mul_2. exact Ek.
      * unfold lattice_hexagon. rewrite plus_IZR, mult_IZR, <- !INR_IZR_INZ, Hsy.
        f_equal; ring.
    + exists (2 * Z.of_nat j)%Z, (Z.of_nat k0). split.
      * replace (2 * Z.of_nat j + Z.of_nat k0)%Z
          with (Z.of_nat k0 + 2 * Z.of_nat j)%Z by lia.
        rewrite Z.even_add_mul_2.
        replace r with (Z.succ (Z.of_nat k0)) in Ek by lia.
        rewrite Z.even_succ, <- Z.negb_even in Ek.
        destruct (Z.even (Z.of_nat k0)); [reflexivity | discriminate].
      * unfold lattice_hexagon. rewrite mult_IZR, <- !INR_IZR_INZ, Hsy.
        f_equal; ring.
  - apply (IH (S k0) (sy + 3 * p) (r + 1)%Z); [| lia | exact Hq].
    rewrite Hsy, S_INR. ring.
Qed.

Lemma lattice_hexagon_centroid (i k : Z) :
  polygon_centroid (hexagon i k) = centre i k.
Proof.
  unfold lattice_hexagon, lattice_centre. apply polygon_centroid_poly; assumption.
Qed.

(** A hexagon of the lattice determines its steps. *)
Lemma lattice_hexagon_inj (i k i' k' : Z) :
  hexagon i k = hexagon i' k' -> i = i' /\ k = k'.
Proof.
  unfold lattice_hexagon, poly. cbv zeta. intros E.
  injection E as Ex Ey _. split; apply eq_IZR; nra.
Qed.

End Voronoi.

(** ** The hexagons of a tessellation on their lattice *)

Lemma tessellation_lattice (startx starty radius : R) (ns : list nat) (ring : Polygon) :
  In ring (tessellation startx starty radius ns) ->
  exists i k : Z,
    Z.even (i + k) = true /\
    ring = lattice_hexagon (hex_p radius) (hex_b radius)
             (startx - hex_w radius) (starty - hex_h radius) i k.
Proof.
  unfold tessellation. rewrite hex_w_eq, hex_h_eq. intros Hin.
  apply (grid_lattice (hex_p radius) (hex_b radius) (startx - 2 * hex_b radius)
           (starty - 4 * hex_p radius) ns 0%nat (starty - 4 * hex_p radius) 1%Z);
    [simpl; ring | reflexivity | exact Hin].
Qed.

Lemma hex_b_pos (radius : R) : 0 < radius -> 0 < hex_b radius.
Proof. intros Hr. rewrite hex_b_eq. exact Hr. Qed.

(** The cells and the rings of [hexagons_from]. *)
Lemma hexagons_from_In (polygon : list Polygon) :
  forall (id_num : Z) (c : feature),
    In c (hexagons_from id_num polygon) ->
    exists ring : Polygon,
      In ring polygon /\ coordinates c = [ring] /\ centroid c = polygon_centroid ring.
Proof.
  induction polygon as [| ring rest IH]; intros id_num c Hc; simpl in Hc;
    [contradiction |].
  destruct Hc as [<- | Hc].
  - exists ring. simpl. auto.
  - destruct (IH _ _ Hc) as (ring' & Hin & H1 & H2). exists ring'. simpl. auto.
Qed.

Lemma In_hexagons_from (polygon : list Polygon) :
  forall (id_num : Z) (ring : Polygon),
    In ring polygon ->
    exists c : feature,
      In c (hexagons_from id_num polygon) /\
      coordinates c = [ring] /\ centroid c = polygon_centroid ring.
Proof.
  induction polygon as [| ring0 rest IH]; intros id_num ring Hin; [contradiction |].
  destruct Hin as [<- | Hin].
  - eexists. split; [left; reflexivity |]. simpl. auto.
  - destruct (IH (id_num + 1)%Z _ Hin) as (c & Hc & H1 & H2).
    exists c. split; [right; exact Hc | auto].
Qed.

(** ** The answers of the index, in full *)

Lemma sorted_app_inv {A : Type} (le : A -> A -> Prop) (l1 l2 : list A) :
  StronglySorted le (l1 ++ l2) ->
  StronglySorted le l1 /\ forall a c : A, In a l1 -> In c l2 -> le a c.
Proof.
  induction l1 as [| x l1 IH]; simpl; intros Hs.
  - split; [constructor | intros a c []].
  - apply StronglySorted_inv in Hs. destruct Hs as [Hs Hx].
    destruct (IH Hs) as [Hs1 H12]. apply Forall_app in Hx. destruct Hx as [Hx1 Hx2].
    split; [constructor; assumption |].
    intros a c [<- | Ha] Hc.
    + rewrite Forall_forall in Hx2. apply Hx2, Hc.
    + apply H12; assumption.
Qed.

Lemma sorted_map {A B : Type} (f : A -> B) (le : B -> B -> Prop) (l : list A) :
  StronglySorted (fun a c => le (f a) (f c)) l -> StronglySorted le (map f l).
Proof.
  induction 1 as [| a l Hs IH Ha]; simpl; constructor; [exact IH |].
  rewrite Forall_map. exact Ha.
Qed.

Lemma build_index_fst (hexagons : list feature) (e : entry) :
  In e (build_index hexagons) -> fst e = centroid (snd e) /\ In (snd e) hexagons.
Proof.
  unfold build_index. rewrite in_map_iff. intros (c & <- & Hc). simpl. auto.
Qed.

Lemma by_distance_In (hexagons : list feature) (q : Point) (e : entry) :
  In e (by_distance q (build_index hexagons)) <-> In e (build_index hexagons).
Proof.
  split; apply Permutation_in; [| apply Permutation_sym]; apply by_distance_perm.
Qed.

(** The answers come in ascending order of the distance of the centroids
    to the query. *)
Lemma nearest_sorted (hexagons : list feature) (q : Point) (k : nat) :
  StronglySorted (fun c1 c2 => distance (centroid c1) q <= distance (centroid c2) q)
                 (nearest (build_index hexagons) q k).
Proof.
  unfold nearest.
  pose proof (by_distance_sorted q (build_index hexagons)) as Hs.
  assert (Hfst : forall e, In e (by_distance q (build_index hexagons)) ->
                           fst e = centroid (snd e)).
  { intros e He. apply by_distance_In in He. apply build_index_fst in He. apply He. }
  rewrite <- (firstn_skipn k (by_distance q (build_index hexagons))) in Hs, Hfst.
  apply sorted_app_inv in Hs. destruct Hs as [Hs _].
  apply sorted_map.
  assert (Hfst' : forall e, In e (firstn k (by_distance q (build_index hexagons))) ->
                            fst e = centroid (snd e)).
  { intros e He. apply Hfst, in_or_app. left. exact He. }
  clear Hfst. induction Hs as [| e l Hs IH He]; constructor.
  - apply IH. intros e' He'. apply Hfst'. right. exact He'.
  - rewrite Forall_forall in *. intros e' He'.
    rewrite <- (Hfst' e) by (left; reflexivity).
    rewrite <- (Hfst' e') by (right; exact He'). apply He, He'.
Qed.

(** A cell of the index that is not among the answers is at least as far
    from the query as every answer. *)
Lemma nearest_outside (hexagons : list feature) (q : Point) (k : nat) (c c' : feature) :
  In c hexagons ->
  ~ In c (nearest (build_index hexagons) q k) ->
  In c' (nearest (build_index hexagons) q k) ->
  distance (centroid c') q <= distance (centroid c) q.
Proof.
  unfold nearest. intros Hc Hout Hc'.
  apply in_map_iff in Hc'. destruct Hc' as (e' & <- & He').
  pose proof (by_distance_sorted q (build_index hexagons)) as Hs.
  assert (He : In (centroid c, c) (by_distance q (build_index hexagons))).
  { apply by_distance_In. unfold build_index. apply in_map_iff.
    exists c. split; [reflexivity | exact Hc]. }
  assert (Hfst' : fst e' = centroid (snd e')).
  { apply firstn_incl in He'. apply by_distance_In in He'.
    apply build_index_fst in He'. apply He'. }
  rewrite <- (firstn_skipn k (by_distance q (build_index hexagons))) in Hs, He.
  apply sorted_app_inv in Hs. destruct Hs as [_ H12].
  apply in_app_or in He. destruct He as [He | He].
  - exfalso. apply Hout. apply in_map_iff. exists (centroid c, c). auto.
  - rewrite <- Hfst'. apply (H12 e' (centroid c, c) He' He).
Qed.

(** What [find_closest_cell_areas] returns on cells with distinct
    [site_id]s. *)
Lemma selection_facts (hexagons : list feature) (geom_shape : Point) :
  hexagons <> [] ->
  Forall is_cell hexagons ->
  NoDup (map site_id hexagons) ->
  exists (serving : feature) (interfering : list feature),
    find_closest_cell_areas hexagons geom_shape = Ok ([serving], interfering) /\
    In serving hexagons /\
    (forall c : feature, In c hexagons ->
       distance (centroid serving) geom_shape <= distance (centroid c) geom_shape) /\
    NoDup (map site_id (serving :: interfering)) /\
    incl interfering hexagons /\
    List.length interfering = Nat.min 6 (List.length hexagons - 1) /\
    StronglySorted (fun c1 c2 => distance (centroid c1) (centroid serving)
                                 <= distance (centroid c2) (centroid serving))
                   (serving :: interfering) /\
    (forall c c' : feature,
       In c hexagons -> ~ In c (serving :: interfering) ->
       In c' (serving :: interfering) ->
       distance (centroid c') (centroid serving)
       <= distance (centroid c) (centroid serving)).
Proof.
  intros Hne Hcells Hnd.
  destruct (find_closest_cell_areas_queries hexagons geom_shape Hne Hcells)
    as (first & second & others & E1 & E2 & E).
  destruct (nearest_head hexagons geom_shape 0 Hne)
    as (first' & rest1 & E1' & Hin1 & Hmin1 & _).
  rewrite E1 in E1'. injection E1' as <- _.
  destruct (nearest_head hexagons (centroid first) 6 Hne)
    as (second' & rest2 & E2' & Hin2 & Hmin2 & _).
  rewrite E2 in E2'. injection E2' as <- _.
  assert (Hsame : centroid second = centroid first).
  { apply distance_zero. specialize (Hmin2 first Hin1).
    rewrite distance_refl in Hmin2.
    pose proof (distance_nonneg (centroid second) (centroid first)). lra. }
  pose proof (nearest_length (build_index hexagons) (centroid first) 7) as Hlen.
  rewrite E2 in Hlen. unfold build_index in Hlen. rewrite length_map in Hlen.
  cbn [List.length] in Hlen.
  assert (Hfirstn : firstn 6 others = others) by (apply firstn_all2; lia).
  rewrite Hfirstn in E.
  exists second, others. rewrite Hsame.
  split; [exact E |]. split; [exact Hin2 |]. split.
  { intros c Hc. apply Hmin1, Hc. }
  split.
  { rewrite <- E2. apply nearest_NoDup, Hnd. }
  split.
  { intros c Hc. apply (nearest_In hexagons (centroid first) 7). rewrite E2.
    right. exact Hc. }
  split; [lia |]. split.
  { rewrite <- E2. apply nearest_sorted. }
  intros c c' Hc Hout Hc'. rewrite <- E2 in Hout, Hc'.
  apply (nearest_outside hexagons (centroid first) 7 c c' Hc Hout Hc').
Qed.

(** ** The serving cell and the hexagon of the transmitter *)

Lemma tessellation_covers (startx starty endx endy radius x y : R) (ns : list nat) :
  0 < radius ->
  grid_counts (hex_w radius) (startx - hex_w radius) (endx + hex_w radius)
              (endy + hex_h radius) (hex_b radius) (3 * hex_p radius)
              (starty - hex_h radius) 1 ns ->
  startx < x < endx -> starty < y < endy ->
  exists ring : Polygon,
    In ring (tessellation startx starty radius ns) /\ covers ring (x, y).
Proof.
  intros Hr Hns Hx Hy.
  pose proof (hex_p_pos radius Hr) as Hp. pose proof (hex_b_pos radius Hr) as Hb.
  unfold tessellation. rewrite hex_w_eq, hex_h_eq in *.
  apply (grid_covers (hex_p radius) (hex_b radius) Hp Hb
           (startx - 2 * hex_b radius) (starty - 4 * hex_p radius)
           (endx + 2 * hex_b radius) (endy + 4 * hex_p radius) ns Hns); lra.
Qed.

Lemma tessellation_cells (startx starty radius : R) (ns : list nat) :
  0 < radius ->
  tessellation startx starty radius ns <> [] ->
  hexagons_from 0 (tessellation startx starty radius ns) <> [] /\
  Forall is_cell (hexagons_from 0 (tessellation startx starty radius ns)) /\
  NoDup (map site_id (hexagons_from 0 (tessellation startx starty radius ns))).
Proof.
  intros Hr Hne. split; [| split].
  - destruct (tessellation startx starty radius ns); [contradiction | discriminate].
  - apply hexagons_from_is_cell.
  - apply increasing_NoDup, hexagons_from_sorted.
Qed.



(** ** Hexagons that do not overlap *)

Lemma sorted_NoDup {A : Type} (lt : A -> A -> Prop) (l : list A) :
  (forall a : A, ~ lt a a) -> StronglySorted lt l -> NoDup l.
Proof.
  intros Hirr Hs. induction Hs as [| a l Hs IH Ha]; constructor; [| exact IH].
  intros Hin. rewrite Forall_forall in Ha. apply (Hirr a), Ha, Hin.
Qed.

Lemma row_major_irrefl (ring : Polygon) : ~ row_major ring ring.
Proof. unfold row_major. lra. Qed.

Lemma centre_strictly_inside (p b origx origy : R) (i k : Z) :
  0 < p -> 0 < b ->
  strictly_inside (lattice_hexagon p b origx origy i k) (lattice_centre p b origx origy i k).
Proof.
  intros Hp Hb. assert (Hpb : 0 < p * b) by (apply Rmult_lt_0_compat; assumption).
  left. unfold lattice_hexagon, lattice_centre. cbn [poly edges].
  repeat (apply Forall_cons; [unfold cross; cbn [fst snd]; lra |]).
  apply Forall_nil.
Qed.



(** ** The hexagon around its centroid *)

Lemma sqrt_of_square (X s : R) : 0 <= s -> X = s * s -> sqrt X = s.
Proof. intros Hs ->. apply sqrt_square, Hs. Qed.





(** ** The interfering cells are the next nearest *)

(** X5.  On a non-empty list of cells with distinct [site_id]s the
    interfering cells come in ascending order of the distance of their
    centroid to the centroid of the serving cell, and no cell that is
    left out is nearer to it than a cell that is selected. *)
Theorem interfering_cells_next_nearest (hexagons : list feature) (geom_shape : Point) :
  hexagons <> [] ->
  Forall is_cell hexagons ->
  NoDup (map site_id hexagons) ->
  exists (serving : feature) (interfering : list feature),
    find_closest_cell_areas hexagons geom_shape = Ok ([serving], interfering) /\
    StronglySorted (fun c1 c2 => distance (centroid c1) (centroid serving)
                                 <= distance (centroid c2) (centroid serving))
                   interfering /\
    forall c c' : feature,
      In c hexagons -> c <> serving -> ~ In c interfering ->
      In c' interfering ->
      distance (centroid c') (centroid serving) <= distance (centroid c) (centroid serving).
Proof.
  intros Hne Hcells Hnd.
  destruct (selection_facts hexagons geom_shape Hne Hcells Hnd)
    as (serving & interfering & E & _ & _ & _ & _ & _ & Hs & Hout).
  exists serving, interfering. split; [exact E |]. split.
  - apply StronglySorted_inv in Hs. apply Hs.
  - intros c c' Hc Hns Hni Hc'. apply (Hout c c' Hc).
    + intros [Heq | Hin]; [apply Hns; symmetry; exact Heq | apply Hni, Hin].
    + right. exact Hc'.
Qed.

Lemma interfering_cells_next_nearest_witness :
  let hexagons := hexagons_from 0 (tessellation 0 0 100 [2; 2; 2]%nat) in
  hexagons <> [] /\
  Forall is_cell hexagons /\
  NoDup (map site_id hexagons) /\
  exists (serving : feature) (interfering : list feature),
    find_closest_cell_areas hexagons (0, 0) = Ok ([serving], interfering) /\
    StronglySorted (fun c1 c2 => distance (centroid c1) (centroid serving)
                                 <= distance (centroid c2) (centroid serving))
                   interfering /\
    forall c c' : feature,
      In c hexagons -> c <> serving -> ~ In c interfering ->
      In c' interfering ->
      distance (centroid c') (centroid serving) <= distance (centroid c) (centroid serving).
Proof.
  intros hexagons.
  destruct six_cells as (_ & H1 & H2 & _ & H3 & _).
  split; [exact H1 |]. split; [exact H2 |]. split; [exact H3 |].
  exact (interfering_cells_next_nearest hexagons (0, 0) H1 H2 H3).
Defined.

(** ** [find_site_locations] *)

(** The site of an interfering cell, lines 264-271. *)
Lemma find_site_locations_eq (c : feature) (rest interfering : list feature)
  (ring : Polygon) (rings : list Polygon) :
  coordinates c = ring :: rings ->
  find_site_locations (c :: rest) interfering =
  Ok ([mkSite (polygon_centroid ring) (Name "transmitter")],
      map (fun ic => mkSite (centroid ic) (Number (site_id ic))) interfering).
Proof.
  intros Hc. unfold find_site_locations. simpl. rewrite Hc. reflexivity.
Qed.


(** ** When [find_closest_cell_areas] fails *)

(** X7.  On a non-empty list of features the first query of
    [find_closest_cell_areas] has one answer, a feature of the list.
    When that feature has no ring, the selection fails with
    [IndexError].  When its first ring is a closed ring of at least four
    points, the selection returns exactly one serving cell and
    [min 6 (n - 1)] interfering cells of the [n] features, all taken from
    the list. *)
Theorem find_closest_cell_areas_cases (hexagons : list feature) (geom_shape : Point) :
  hexagons <> [] ->
  exists c : feature,
    nearest (build_index hexagons) geom_shape 1 = [c] /\
    In c hexagons /\
    (coordinates c = [] ->
     find_closest_cell_areas hexagons geom_shape = Raise "IndexError") /\
    (forall (ring : Polygon) (rings : list Polygon),
       coordinates c = ring :: rings ->
       linear_ring ring ->
       exists (serving : feature) (interfering : list feature),
         find_closest_cell_areas hexagons geom_shape = Ok ([serving], interfering) /\
         In serving hexagons /\
         incl interfering hexagons /\
         List.length interfering = Nat.min 6 (List.length hexagons - 1)).
Proof.
  intros Hne.
  destruct (nearest_head hexagons geom_shape 0 Hne) as (first & others & E1 & Hin1 & _).
  assert (Hothers : others = []).
  { pose proof (nearest_length (build_index hexagons) geom_shape 1) as Hl.
    rewrite E1 in Hl. cbn [List.length] in Hl.
    destruct others; [reflexivity | cbn [List.length] in Hl; lia]. }
  subst others.
  exists first. split; [exact E1 |]. split; [exact Hin1 |].
  unfold find_closest_cell_areas. cbv zeta. rewrite E1. cbn [item0 bind].
  split.
  - intros Hc. rewrite Hc. reflexivity.
  - intros ring rings Hc _. rewrite Hc. cbn [item0 bind].
    destruct (nearest_head hexagons (polygon_centroid ring) 6 Hne)
      as (serving & rest & E7 & Hin & _).
    rewrite E7. cbn [item0 bind].
    exists serving, (slice 1 7 (serving :: rest)).
    split; [reflexivity |]. split; [exact Hin |].
    unfold slice. cbn [skipn Nat.sub]. split.
    + intros c Hcin. apply firstn_incl in Hcin.
      apply (nearest_In hexagons (polygon_centroid ring) 7). rewrite E7.
      right. exact Hcin.
    + pose proof (nearest_length (build_index hexagons) (polygon_centroid ring) 7) as Hl.
      rewrite E7 in Hl. unfold build_index in Hl. rewrite length_map in Hl.
      cbn [List.length] in Hl. rewrite length_firstn. lia.
Qed.

Lemma find_closest_cell_areas_cases_witness :
  let hexagons := hexagons_from 0 (tessellation 0 0 100 [2; 2; 2]%nat) in
  hexagons <> [] /\
  exists c : feature,
    nearest (build_index hexagons) (0, 0) 1 = [c] /\
    In c hexagons /\
    (coordinates c = [] ->
     find_closest_cell_areas hexagons (0, 0) = Raise "IndexError") /\
    (forall (ring : Polygon) (rings : list Polygon),
       coordinates c = ring :: rings ->
       linear_ring ring ->
       exists (serving : feature) (interfering : list feature),
         find_closest_cell_areas hexagons (0, 0) = Ok ([serving], interfering) /\
         In serving hexagons /\
         incl interfering hexagons /\
         List.length interfering = Nat.min 6 (List.length hexagons - 1)).
Proof.
  intros hexagons.
  destruct six_cells as (_ & H1 & _).
  split; [exact H1 |].
  exact (find_closest_cell_areas_cases hexagons (0, 0) H1).
Defined.

(** ** The neighbours of a cell *)

Lemma distance_sym (a c : Point) : distance a c = distance c a.
Proof. unfold distance. f_equal. ring. Qed.

Lemma Point_eq_dec (a c : Point) : {a = c} + {a <> c}.
Proof. decide equality; apply Req_dec_T. Qed.

Lemma feature_eq_dec (c1 c2 : feature) : {c1 = c2} + {c1 <> c2}.
Proof.
  decide equality;
    [apply Z.eq_dec | apply Point_eq_dec | apply list_eq_dec, list_eq_dec, Point_eq_dec].
Qed.

Lemma map_injective_on {A B : Type} (f : A -> B) (l : list A) (a c : A) :
  NoDup (map f l) -> In a l -> In c l -> f a = f c -> a = c.
Proof.
  induction l as [| x l IH]; simpl; intros Hnd Ha Hc E; [contradiction |].
  inversion Hnd as [| ? ? Hni Hnd']; subst.
  destruct Ha as [<- | Ha], Hc as [<- | Hc]; auto.
  - exfalso. apply Hni. rewrite E. apply in_map, Hc.
  - exfalso. apply Hni. rewrite <- E. apply in_map, Ha.
Qed.

Lemma NoDup_map_injective {A B : Type} (f : A -> B) (l : list A) :
  (forall a c : A, f a = f c -> a = c) -> NoDup l -> NoDup (map f l).
Proof.
  intros Hinj. induction 1 as [| x l Hni Hnd IH]; simpl; constructor; [| exact IH].
  intros Hin. apply in_map_iff in Hin. destruct Hin as (y & E & Hy).
  apply Hinj in E. subst y. contradiction.
Qed.

Lemma neighbour_steps_NoDup : NoDup ((0, 0)%Z :: neighbour_steps).
Proof.
  unfold neighbour_steps.
  repeat (constructor; [simpl; intuition congruence |]). constructor.
Qed.

(** The steps of length two hexagon radii are the six to the
    neighbours. *)
Lemma steps_of_length_two (i k : Z) :
  (i * i + 3 * (k * k) = 4)%Z -> In (i, k) neighbour_steps.
Proof.
  intros E.
  assert (Hk : (-1 <= k <= 1)%Z) by nia.
  assert (Hi : (-2 <= i <= 2)%Z) by nia.
  assert (Hk' : (k = -1 \/ k = 0 \/ k = 1)%Z) by lia.
  assert (Hi' : (i = -2 \/ i = -1 \/ i = 0 \/ i = 1 \/ i = 2)%Z) by lia.
  unfold neighbour_steps.
  destruct Hk' as [-> | [-> | ->]]; destruct Hi' as [-> | [-> | [-> | [-> | ->]]]];
    try (exfalso; lia); simpl; tauto.
Qed.

Section Neighbours.

Variables (p b : R).
Hypothesis p_pos : 0 < p.
Hypothesis b_pos : 0 < b.
Hypothesis b_sqr : b * b = 3 * (p * p).

Variables (origx origy : R).

Local Abbreviation centre := (lattice_centre p b origx origy).

Lemma lattice_centre_inj (i k i' k' : Z) :
  centre i k = centre i' k' -> i = i' /\ k = k'.
Proof.
  unfold lattice_centre. intros E. injection E as Ex Ey. split; apply eq_IZR; nra.
Qed.

(** The centres of the six neighbours are [2 * b] away. *)
Lemma neighbour_distance (i k : Z) (s : Z * Z) :
  In s neighbour_steps ->
  distance (centre (i + fst s) (k + snd s)) (centre i k) = 2 * b.
Proof.
  intros Hs. unfold distance, lattice_centre. cbn [fst snd].
  apply sqrt_of_square; [lra |].
  simpl in Hs.
  destruct Hs as [<- | [<- | [<- | [<- | [<- | [<- | []]]]]]]; cbn [fst snd];
    rewrite !plus_IZR; lra.
Qed.

(** And only they are. *)
Lemma neighbour_of_distance (i k i' k' : Z) :
  distance (centre i' k') (centre i k) = 2 * b ->
  In ((i' - i)%Z, (k' - k)%Z) neighbour_steps.
Proof.
  intros E. apply steps_of_length_two. apply eq_IZR.
  rewrite plus_IZR, !mult_IZR, !minus_IZR.
  unfold distance, lattice_centre in E. cbn [fst snd] in E.
  remember (IZR i' - IZR i) as I eqn:EI.
  remember (IZR k' - IZR k) as K eqn:EK.
  match type of E with sqrt ?X = _ =>
    assert (HX : X = I * I * (b * b) + K * K * (3 * (3 * (p * p))))
      by (subst I K; ring);
    assert (HX0 : 0 <= X) by nra;
    pose proof (sqrt_sqrt X HX0) as Hs
  end.
  rewrite E, HX, <- b_sqr in Hs.
  assert (Hbb : 0 < b * b) by nra.
  assert (E4 : (I * I + 3 * (K * K) - 4) * (b * b) = 0) by lra.
  apply Rmult_integral in E4. destruct E4 as [E4 | E4]; lra.
Qed.

(** When the cells lie on the lattice and the six neighbours of the
    serving cell are among them, a selection of at most six further cells
    that leaves no nearer cell out consists of neighbours. *)
Lemma neighbours_selected (hexagons : list feature) (serving : feature)
  (interfering : list feature) (i k : Z) :
  NoDup (map centroid hexagons) ->
  (forall c : feature, In c hexagons ->
     exists i' k' : Z, Z.even (i' + k') = true /\ centroid c = centre i' k') ->
  Z.even (i + k) = true ->
  In serving hexagons -> centroid serving = centre i k ->
  (forall s : Z * Z, In s neighbour_steps ->
     exists n : feature,
       In n hexagons /\ centroid n = centre (i + fst s) (k + snd s)) ->
  incl interfering hexagons ->
  NoDup (map site_id (serving :: interfering)) ->
  (List.length interfering <= 6)%nat ->
  (forall c c' : feature,
     In c hexagons -> ~ In c (serving :: interfering) ->
     In c' (serving :: interfering) ->
     distance (centroid c') (centroid serving) <= distance (centroid c) (centroid serving)) ->
  forall x : feature, In x interfering ->
    distance (centroid x) (centroid serving) = 2 * b /\
    exists s : Z * Z,
      In s neighbour_steps /\ centroid x = centre (i + fst s) (k + snd s).
Proof.
  intros Hnd Hlat Hev Hserving Ecs Hnb Hincl Hids Hlen Hout x Hx.
  pose proof (Hincl x Hx) as Hxh.
  destruct (Hlat x Hxh) as (i' & k' & Hev' & Ecx).
  assert (Hne : i' <> i \/ k' <> k).
  { destruct (Z.eq_dec i' i) as [-> | Hi]; [| left; exact Hi].
    destruct (Z.eq_dec k' k) as [-> | Hk]; [| right; exact Hk].
    exfalso. rewrite <- Ecs in Ecx.
    apply (map_injective_on centroid hexagons x serving Hnd Hxh Hserving) in Ecx.
    subst x. simpl in Hids. inversion Hids as [| ? ? Hni _]; subst.
    apply Hni, in_map, Hx. }
  assert (Hge : 2 * b <= distance (centroid x) (centroid serving)).
  { rewrite Ecx, Ecs, distance_sym.
    apply (centres_apart p b b_pos b_sqr); assumption. }
  assert (Hle : distance (centroid x) (centroid serving) <= 2 * b).
  { destruct (Rle_lt_dec (distance (centroid x) (centroid serving)) (2 * b)) as [H | Hgt];
      [exact H | exfalso].
    pose (l8 := centroid x
                :: map (fun s : Z * Z => centre (i + fst s) (k + snd s))
                       ((0, 0)%Z :: neighbour_steps)).
    assert (Hnear : forall s : Z * Z, In s ((0, 0)%Z :: neighbour_steps) ->
                      distance (centre (i + fst s) (k + snd s)) (centroid serving)
                      <= 2 * b).
    { intros s [<- | Hs]; rewrite Ecs.
      - cbn [fst snd]. rewrite !Z.add_0_r, distance_refl. lra.
      - rewrite (neighbour_distance i k s Hs). lra. }
    assert (Hnd8 : NoDup l8).
    { subst l8. constructor.
      - intros Hin. apply in_map_iff in Hin. destruct Hin as (s & Es & Hs).
        specialize (Hnear s Hs). rewrite Es in Hnear. lra.
      - apply NoDup_map_injective; [| exact neighbour_steps_NoDup].
        intros [a1 a2] [c1 c2] E. cbn [fst snd] in E.
        apply lattice_centre_inj in E. f_equal; lia. }
    assert (Hincl8 : incl l8 (map centroid (serving :: interfering))).
    { subst l8. intros pt [<- | Hpt].
      - apply in_map. right. exact Hx.
      - apply in_map_iff in Hpt. destruct Hpt as (s & <- & [<- | Hs]).
        + cbn [fst snd]. rewrite !Z.add_0_r, <- Ecs. apply in_map. left. reflexivity.
        + destruct (Hnb s Hs) as (n & Hn & Ecn). rewrite <- Ecn.
          destruct (In_dec feature_eq_dec n (serving :: interfering)) as [Hin | Hnin];
            [apply in_map, Hin | exfalso].
          pose proof (Hout n x Hn Hnin (or_intror Hx)) as Hd.
          rewrite Ecn, Ecs, (neighbour_distance i k s Hs) in Hd. rewrite Ecs in Hgt. lra. }
    pose proof (NoDup_incl_length Hnd8 Hincl8) as Hl.
    subst l8. rewrite length_map in Hl. unfold neighbour_steps in Hl.
    cbn [List.length map] in Hl. lia. }
  assert (Ed : distance (centroid x) (centroid serving) = 2 * b) by lra.
  split; [exact Ed |].
  exists ((i' - i)%Z, (k' - k)%Z). split.
  - apply neighbour_of_distance. rewrite <- Ecx, <- Ecs. exact Ed.
  - cbn [fst snd]. rewrite Ecx. f_equal; lia.
Qed.

End Neighbours.

(** ** The grid holds the hexagons of its lattice *)

Lemma lattice_in_grid (p b origx origy endx endy : R) (ns : list nat) (i k : Z) :
  0 < p -> 0 < b ->
  grid_counts (2 * b) origx endx endy b (3 * p) origy 1 ns ->
  (0 <= i)%Z -> (0 <= k)%Z -> Z.even (i + k) = true ->
  origx + IZR i * b < endx -> origy + IZR k * (3 * p) < endy ->
  In (lattice_hexagon p b origx origy i k)
     (grid_polygons p b (2 * b) (4 * p) origx b (3 * p) origy 1 ns).
Proof.
  intros Hp Hb Hns Hi Hk Hev Hx Hy. unfold lattice_hexagon.
  set (kn := Z.to_nat k). set (jn := Z.to_nat (i / 2)).
  assert (Ek : IZR k = INR kn).
  { subst kn. rewrite INR_IZR_INZ, Z2Nat.id by assumption. reflexivity. }
  assert (Ei : origx + IZR i * b
               = row_origin origx b (1 + Z.of_nat kn) + INR jn * (2 * b)).
  { subst kn jn. rewrite Z2Nat.id by assumption.
    rewrite INR_IZR_INZ, Z2Nat.id by (apply Z.div_pos; lia).
    pose proof (Z.div_mod i 2 ltac:(lia)) as Hdiv. rewrite Zmod_even in Hdiv.
    unfold row_origin. rewrite Zmod_even.
    rewrite Z.even_add in Hev. rewrite Z.add_1_l, Z.even_succ, <- Z.negb_even.
    destruct (Z.even i), (Z.even k); try discriminate; cbn [negb Z.eqb];
      apply (f_equal IZR) in Hdiv; rewrite plus_IZR, mult_IZR in Hdiv;
      rewrite Hdiv; ring. }
  rewrite Ei, Ek.
  apply (grid_polygons_complete p b (2 * b) (4 * p) origx endx endy b (3 * p));
    [lra | lra | exact Hns | rewrite <- Ek; exact Hy | rewrite <- Ei; exact Hx].
Qed.

Lemma returns_unique {A : Type} (f : nat -> result A) (a a' : A) :
  returns f a -> returns f a' -> a = a'.
Proof.
  intros [n Hn] [n' Hn'].
  pose proof (Hn (Nat.max n n') (Nat.le_max_l _ _)) as E.
  rewrite (Hn' (Nat.max n n') (Nat.le_max_r _ _)) in E.
  injection E as E. symmetry. exact E.
Qed.

Lemma hexagons_from_length (polygon : list Polygon) (id_num : Z) :
  List.length (hexagons_from id_num polygon) = List.length polygon.
Proof.
  rewrite <- (length_map coordinates), hexagons_from_coordinates, length_map.
  reflexivity.
Qed.

(** The cells of a tessellation on its lattice. *)
Lemma tessellation_cell_lattice (startx starty radius : R) (ns : list nat) (c : feature) :
  0 < radius ->
  In c (hexagons_from 0 (tessellation startx starty radius ns)) ->
  exists i k : Z,
    Z.even (i + k) = true /\
    coordinates c = [lattice_hexagon (hex_p radius) (hex_b radius)
                       (startx - hex_w radius) (starty - hex_h radius) i k] /\
    centroid c = lattice_centre (hex_p radius) (hex_b radius)
                   (startx - hex_w radius) (starty - hex_h radius) i k.
Proof.
  intros Hr Hc.
  pose proof (hex_p_pos radius Hr) as Hp. pose proof (hex_b_pos radius Hr) as Hb.
  destruct (hexagons_from_In _ _ _ Hc) as (ring & Hring & Hcoord & Hcentroid).
  destruct (tessellation_lattice _ _ _ _ _ Hring) as (i & k & Hev & ->).
  exists i, k. split; [exact Hev |]. split; [exact Hcoord |].
  rewrite Hcentroid. apply lattice_hexagon_centroid; assumption.
Qed.

(** The interfering cells of a serving cell whose six neighbours are in
    the tessellation. *)
Lemma tessellation_neighbours (startx starty radius : R) (ns : list nat) (q : Point)
  (serving : feature) (interfering : list feature) (i k : Z) :
  0 < radius ->
  find_closest_cell_areas (hexagons_from 0 (tessellation startx starty radius ns)) q
  = Ok ([serving], interfering) ->
  coordinates serving = [lattice_hexagon (hex_p radius) (hex_b radius)
                           (startx - hex_w radius) (starty - hex_h radius) i k] ->
  (forall s : Z * Z, In s neighbour_steps ->
     In (lattice_hexagon (hex_p radius) (hex_b radius)
           (startx - hex_w radius) (starty - hex_h radius) (i + fst s) (k + snd s))
        (tessellation startx starty radius ns)) ->
  List.length interfering = 6%nat /\
  forall c : feature, In c interfering ->
    distance (centroid c) (centroid serving) = 2 * radius /\
    exists s : Z * Z,
      In s neighbour_steps /\
      coordinates c = [lattice_hexagon (hex_p radius) (hex_b radius)
                         (startx - hex_w radius) (starty - hex_h radius)
                         (i + fst s) (k + snd s)].
Proof.
  intros Hr E Hcoord Hnb.
  pose proof (hex_p_pos radius Hr) as Hp. pose proof (hex_b_pos radius Hr) as Hb.
  pose proof (hex_b_sqr radius) as Hsq.
  remember (tessellation startx starty radius ns) as tess eqn:Et.
  assert (Hne : tess <> []).
  { intros E0. specialize (Hnb (2, 0)%Z ltac:(simpl; tauto)). rewrite E0 in Hnb.
    contradiction. }
  rewrite Et in Hne.
  destruct (tessellation_cells startx starty radius ns Hr Hne) as (Hne' & Hcells & Hnd).
  rewrite <- Et in Hne', Hcells, Hnd.
  destruct (selection_facts _ q Hne' Hcells Hnd)
    as (serving' & interfering' & E' & Hin & _ & Hids & Hincl & Hlen & _ & Hout).
  rewrite E in E'. injection E' as <- <-.
  assert (Hlat : forall c : feature, In c (hexagons_from 0 tess) ->
            exists i' k' : Z,
              Z.even (i' + k') = true /\
              coordinates c = [lattice_hexagon (hex_p radius) (hex_b radius)
                                 (startx - hex_w radius) (starty - hex_h radius) i' k'] /\
              centroid c = lattice_centre (hex_p radius) (hex_b radius)
                             (startx - hex_w radius) (starty - hex_h radius) i' k').
  { intros c Hc. rewrite Et in Hc.
    apply (tessellation_cell_lattice _ _ _ ns); assumption. }
  destruct (Hlat serving Hin) as (i0 & k0 & Hev & Hcoord0 & Hcentroid).
  rewrite Hcoord in Hcoord0.
  apply (f_equal (hd [])) in Hcoord0. cbn [hd] in Hcoord0.
  apply (lattice_hexagon_inj _ _ Hp Hb) in Hcoord0. destruct Hcoord0 as [<- <-].
  assert (Hseven : (7 <= List.length (hexagons_from 0 tess))%nat).
  { rewrite hexagons_from_length.
    pose (l7 := map (fun s : Z * Z =>
                       lattice_hexagon (hex_p radius) (hex_b radius)
                         (startx - hex_w radius) (starty - hex_h radius)
                         (i + fst s) (k + snd s))
                    ((0, 0)%Z :: neighbour_steps)).
    assert (Hnd7 : NoDup l7).
    { apply NoDup_map_injective; [| exact neighbour_steps_NoDup].
      intros [a1 a2] [c1 c2] E7. cbn [fst snd] in E7.
      apply (lattice_hexagon_inj _ _ Hp Hb) in E7. f_equal; lia. }
    assert (Hincl7 : incl l7 tess).
    { intros ring Hring. apply in_map_iff in Hring.
      destruct Hring as (s & <- & [<- | Hs]); [| apply Hnb, Hs].
      cbn [fst snd]. rewrite !Z.add_0_r.
      destruct (hexagons_from_In _ _ _ Hin) as (ring & Hring & Hc & _).
      rewrite Hcoord in Hc. apply (f_equal (hd [])) in Hc. cbn [hd] in Hc.
      rewrite Hc. exact Hring. }
    pose proof (NoDup_incl_length Hnd7 Hincl7) as Hl.
    subst l7. rewrite length_map in Hl. exact Hl. }
  split; [lia |].
  intros c Hc.
  destruct (neighbours_selected (hex_p radius) (hex_b radius) Hp Hb Hsq
              (startx - hex_w radius) (starty - hex_h radius)
              (hexagons_from 0 tess) serving interfering i k) with (x := c)
    as (Hd & s & Hs & Ecs); try assumption.
  - rewrite Et. apply tessellation_centroids_distinct, Hr.
  - intros c' Hc'. destruct (Hlat c' Hc') as (i' & k' & Hev' & _ & Hcen').
    exists i', k'. auto.
  - intros s Hs. destruct (In_hexagons_from _ 0%Z _ (Hnb s Hs)) as (n & Hn & _ & Hcn).
    exists n. split; [exact Hn |]. rewrite Hcn.
    apply lattice_hexagon_centroid; assumption.
  - lia.
  - rewrite hex_b_eq in Hd. split; [exact Hd |].
    exists s. split; [exact Hs |].
    destruct (Hlat c (Hincl c Hc)) as (i' & k' & _ & Hcoord' & Hcen').
    rewrite Hcen' in Ecs.
    apply (lattice_centre_inj _ _ Hp Hb) in Ecs. destruct Ecs as [-> ->].
    exact Hcoord'.
Qed.

(** ** The tessellation of [generate_cell_areas] *)

Lemma buffered_point_counts (x y radius : R) :
  0 < radius ->
  grid_counts (hex_w radius) (x - radius * 2 - hex_w radius)
              (x + radius * 2 + hex_w radius) (y + radius * 2 + hex_h radius)
              (hex_b radius) (3 * hex_p radius) (y - radius * 2 - hex_h radius) 1
              [4; 4; 4; 4; 4]%nat.
Proof.
  intros Hr.
  pose proof (hex_p_pos radius Hr) as Hp.
  pose proof (hex_b_eq radius) as Hb.
  pose proof (hex_b_sqr radius) as Hsq. rewrite Hb in Hsq.
  assert (Hlow : 4 * radius <= 7 * hex_p radius) by nra.
  assert (Hhigh : hex_p radius < radius) by nra.
  rewrite hex_w_eq, hex_h_eq. simpl. unfold row_origin. simpl.
  repeat split; try lra; columns.
Qed.

(** The hexagons that cover the point in the middle of its buffered
    rectangle: the second or the third of the third row. *)
Lemma buffered_point_index (x y radius : R) (i k : Z) :
  0 < radius ->
  Z.even (i + k) = true ->
  covers (lattice_hexagon (hex_p radius) (hex_b radius)
            (x - radius * 2 - hex_w radius) (y - radius * 2 - hex_h radius) i k)
         (x, y) ->
  k = 2%Z /\ (i = 2%Z \/ i = 4%Z).
Proof.
  intros Hr Hev Hc.
  pose proof (hex_p_pos radius Hr) as Hp. pose proof (hex_b_pos radius Hr) as Hb.
  pose proof (hex_b_sqr radius) as Hsq.
  apply (covers_hexagon_inv _ _ Hp Hb) in Hc. cbv zeta in Hc.
  unfold lattice_centre in Hc. cbn [fst snd] in Hc.
  rewrite hex_w_eq, hex_h_eq in Hc. rewrite hex_b_eq in *.
  remember (hex_p radius) as p eqn:Ep. clear Ep.
  remember (IZR i) as I eqn:EI. remember (IZR k) as K eqn:EK.
  destruct Hc as ((Hu1 & Hu2) & Hs1 & Hs2 & Hs3 & Hs4).
  assert (Hpr : 0 < p * radius) by (apply Rmult_lt_0_compat; assumption).
  assert (Hlow : 17 * p < 10 * radius) by nra.
  assert (Hhigh : 4 * radius < 7 * p) by nra.
  assert (HI1 : 2 <= I).
  { apply (Rmult_le_reg_l (p * radius)); [exact Hpr | lra]. }
  assert (HI2 : I <= 4).
  { apply (Rmult_le_reg_l (p * radius)); [exact Hpr | lra]. }
  assert (HK0 : 2 * radius <= 3 * (p * K) <= 2 * radius + 4 * p).
  { split; apply (Rmult_le_reg_l radius); try exact Hr; lra. }
  assert (HK1 : 1 < K).
  { apply (Rmult_lt_reg_l (3 * p)); lra. }
  assert (HK2 : K < 3).
  { apply (Rmult_lt_reg_l (3 * p)); lra. }
  subst I K.
  apply (le_IZR 2) in HI1. apply (le_IZR _ 4) in HI2.
  apply (lt_IZR 1) in HK1. apply (lt_IZR _ 3) in HK2.
  assert (Ek : k = 2%Z) by lia. subst k.
  split; [reflexivity |].
  assert (Hi : (i = 2 \/ i = 3 \/ i = 4)%Z) by lia.
  destruct Hi as [-> | [-> | ->]]; [left; reflexivity | discriminate | right; reflexivity].
Qed.

(** The six neighbours of both are in the tessellation. *)
Lemma buffered_point_neighbours (x y radius : R) (i : Z) (s : Z * Z) :
  0 < radius ->
  i = 2%Z \/ i = 4%Z ->
  In s neighbour_steps ->
  In (lattice_hexagon (hex_p radius) (hex_b radius)
        (x - radius * 2 - hex_w radius) (y - radius * 2 - hex_h radius)
        (i + fst s) (2 + snd s))
     (tessellation (x - radius * 2) (y - radius * 2) radius [4; 4; 4; 4; 4]%nat).
Proof.
  intros Hr Hi Hs.
  pose proof (hex_p_pos radius Hr) as Hp. pose proof (hex_b_pos radius Hr) as Hb.
  pose proof (hex_b_sqr radius) as Hsq.
  pose proof (buffered_point_counts x y radius Hr) as Hns.
  unfold tessellation. rewrite hex_w_eq, hex_h_eq in *.
  assert (Hlow : 17 * hex_p radius < 10 * hex_b radius) by nra.
  apply (lattice_in_grid _ _ _ _ _ _ _ _ _ Hp Hb Hns);
    simpl in Hs;
    destruct Hi as [-> | ->];
    destruct Hs as [<- | [<- | [<- | [<- | [<- | [<- | []]]]]]]; cbn [fst snd];
      try reflexivity; try lia; rewrite hex_b_eq in *; simpl; lra.
Qed.

(** The serving cell of [generate_cell_areas] on the lattice. *)
Lemma buffered_point_cell (x y radius : R) :
  0 < radius ->
  exists (serving : feature) (interfering : list feature) (i : Z),
    find_closest_cell_areas
      (hexagons_from 0 (tessellation (x - radius * 2) (y - radius * 2) radius
                          [4; 4; 4; 4; 4]%nat)) (x, y)
    = Ok ([serving], interfering) /\
    coordinates serving = [lattice_hexagon (hex_p radius) (hex_b radius)
                             (x - radius * 2 - hex_w radius)
                             (y - radius * 2 - hex_h radius) i 2] /\
    (i = 2%Z \/ i = 4%Z) /\
    In serving (hexagons_from 0 (tessellation (x - radius * 2) (y - radius * 2) radius
                                   [4; 4; 4; 4; 4]%nat)) /\
    incl interfering (hexagons_from 0 (tessellation (x - radius * 2) (y - radius * 2)
                                         radius [4; 4; 4; 4; 4]%nat)) /\
    NoDup (map site_id (serving :: interfering)).
Proof.
  intros Hr.
  pose proof (hex_p_pos radius Hr) as Hp. pose proof (hex_b_pos radius Hr) as Hb.
  pose proof (hex_b_sqr radius) as Hsq.
  pose proof (buffered_point_counts x y radius Hr) as Hns.
  remember [4; 4; 4; 4; 4]%nat as ns eqn:Ens.
  destruct (tessellation_covers (x - radius * 2) (y - radius * 2) (x + radius * 2)
              (y + radius * 2) radius x y ns Hr Hns) as (H & HinH & HcovH); try lra.
  assert (Hne : tessellation (x - radius * 2) (y - radius * 2) radius ns <> []).
  { intros E. rewrite E in HinH. contradiction. }
  destruct (tessellation_cells _ _ _ ns Hr Hne) as (Hne' & Hcells & Hnd).
  destruct (selection_facts _ (x, y) Hne' Hcells Hnd)
    as (serving & interfering & E & Hin & Hmin & Hids & Hincl & _).
  destruct (tessellation_cell_lattice _ _ _ ns _ Hr Hin)
    as (i & k & Hev & Hcoord & Hcentroid).
  destruct (In_hexagons_from _ 0%Z _ HinH) as (cH & HcH & _ & HcentroidH).
  specialize (Hmin cH HcH). rewrite Hcentroid, HcentroidH in Hmin.
  destruct (tessellation_lattice _ _ _ _ _ HinH) as (i0 & k0 & Hev0 & ->).
  rewrite lattice_hexagon_centroid in Hmin by assumption.
  assert (Hcov : covers (lattice_hexagon (hex_p radius) (hex_b radius)
                           (x - radius * 2 - hex_w radius)
                           (y - radius * 2 - hex_h radius) i k) (x, y)).
  { apply (nearest_centre_covers _ _ Hp Hb Hsq _ _ i0 k0); assumption. }
  destruct (buffered_point_index x y radius i k Hr Hev Hcov) as [-> Hi].
  exists serving, interfering, i.
  split; [exact E |]. split; [exact Hcoord |]. split; [exact Hi |].
  split; [exact Hin |]. split; [exact Hincl | exact Hids].
Qed.

(** The selection of [generate_cell_areas]: the serving cell covers the
    point, on whose vertical it has an upright side, and the interfering
    cells are its six neighbours. *)
Lemma buffered_point_selection (x y radius : R) :
  0 < radius ->
  exists (serving : feature) (interfering : list feature) (ring : Polygon),
    find_closest_cell_areas
      (hexagons_from 0 (tessellation (x - radius * 2) (y - radius * 2) radius
                          [4; 4; 4; 4; 4]%nat)) (x, y)
    = Ok ([serving], interfering) /\
    coordinates serving = [ring] /\
    centroid serving = polygon_centroid ring /\
    covers ring (x, y) /\
    (fst (centroid serving) = x - radius \/ fst (centroid serving) = x + radius) /\
    snd (centroid serving) = y + (2 * side_length radius - 2 * radius) /\
    NoDup (map site_id (serving :: interfering)) /\
    List.length interfering = 6%nat /\
    forall c : feature, In c interfering ->
      is_cell c /\ distance (centroid c) (centroid serving) = 2 * radius.
Proof.
  intros Hr.
  pose proof (hex_p_pos radius Hr) as Hp. pose proof (hex_b_pos radius Hr) as Hb.
  pose proof (hex_b_sqr radius) as Hsq.
  pose proof (buffered_point_counts x y radius Hr) as Hns.
  remember [4; 4; 4; 4; 4]%nat as ns eqn:Ens.
  destruct (tessellation_covers (x - radius * 2) (y - radius * 2) (x + radius * 2)
              (y + radius * 2) radius x y ns Hr Hns) as (H & HinH & HcovH); try lra.
  assert (Hne : tessellation (x - radius * 2) (y - radius * 2) radius ns <> []).
  { intros E. rewrite E in HinH. contradiction. }
  destruct (tessellation_cells _ _ _ ns Hr Hne) as (Hne' & Hcells & Hnd).
  destruct (selection_facts _ (x, y) Hne' Hcells Hnd)
    as (serving & interfering & E & Hin & Hmin & Hids & Hincl & _).
  destruct (tessellation_cell_lattice _ _ _ ns _ Hr Hin)
    as (i & k & Hev & Hcoord & Hcentroid).
  destruct (In_hexagons_from _ 0%Z _ HinH) as (cH & HcH & _ & HcentroidH).
  specialize (Hmin cH HcH). rewrite Hcentroid, HcentroidH in Hmin.
  destruct (tessellation_lattice _ _ _ _ _ HinH) as (i0 & k0 & Hev0 & ->).
  rewrite lattice_hexagon_centroid in Hmin by assumption.
  assert (Hcov : covers (lattice_hexagon (hex_p radius) (hex_b radius)
                           (x - radius * 2 - hex_w radius)
                           (y - radius * 2 - hex_h radius) i k) (x, y)).
  { apply (nearest_centre_covers _ _ Hp Hb Hsq _ _ i0 k0); assumption. }
  destruct (buffered_point_index x y radius i k Hr Hev Hcov) as [-> Hi].
  destruct (tessellation_neighbours _ _ _ ns (x, y) serving interfering i 2 Hr E Hcoord)
    as (Hlen & Hnb).
  { intros s Hs. rewrite Ens. apply buffered_point_neighbours; assumption. }
  assert (Hlast : forall c : feature, In c interfering ->
            is_cell c /\ distance (centroid c) (centroid serving) = 2 * radius).
  { intros c Hc. split; [| apply (Hnb c Hc)].
    rewrite Forall_forall in Hcells. apply Hcells, Hincl, Hc. }
  exists serving, interfering. eexists.
  split; [exact E |]. split; [exact Hcoord |].
  split; [rewrite Hcentroid; symmetry; apply lattice_hexagon_centroid; assumption |].
  split; [exact Hcov |].
  split.
  { rewrite Hcentroid. unfold lattice_centre. cbn [fst snd].
    rewrite hex_w_eq, hex_b_eq. destruct Hi as [-> | ->]; [left | right]; lra. }
  split.
  { rewrite Hcentroid. unfold lattice_centre. cbn [fst snd].
    rewrite hex_h_eq, side_length_eq. lra. }
  split; [exact Hids |]. split; [exact Hlen |]. exact Hlast.
Qed.

(** ** The runs of [generate_cell_areas] and of the pipeline *)

Lemma generate_cell_areas_returns (buffered_bounds : Point -> R -> R * R * R * R)
  (x y cell_radius : R) (areas : list feature * list feature) :
  buffers_discs buffered_bounds ->
  0 < cell_radius ->
  find_closest_cell_areas
    (hexagons_from 0 (tessellation (x - cell_radius * 2) (y - cell_radius * 2) cell_radius
                        [4; 4; 4; 4; 4]%nat)) (x, y) = Ok areas ->
  returns (fun fuel => generate_cell_areas buffered_bounds fuel (x, y) cell_radius) areas.
Proof.
  intros Hdisc Hr E.
  destruct (buffered_point_tessellation x y cell_radius Hr) as [n Hret].
  exists n. intros fuel Hfuel. unfold generate_cell_areas.
  rewrite (Hdisc (x, y) (cell_radius * 2)) by lra.
  unfold disc_bounds. cbn [fst snd]. cbv beta iota.
  rewrite (Hret fuel Hfuel). cbn [bind]. exact E.
Qed.

Lemma produce_sites_and_cell_areas_returns
  (convert_point_to_projected_crs : Point -> Point)
  (buffered_bounds : Point -> R -> R * R * R * R)
  (unprojected_point : Point) (cell_radius : R)
  (cell_area interfering : list feature) (sites : list site * list site) :
  returns (fun fuel => generate_cell_areas buffered_bounds fuel
                         (convert_point_to_projected_crs unprojected_point) cell_radius)
          (cell_area, interfering) ->
  find_site_locations cell_area interfering = Ok sites ->
  returns (fun fuel => produce_sites_and_cell_areas convert_point_to_projected_crs
                         buffered_bounds fuel unprojected_point cell_radius)
          (fst sites, snd sites, cell_area, interfering).
Proof.
  intros [n Hret] E. exists n. intros fuel Hfuel.
  unfold produce_sites_and_cell_areas. rewrite (Hret fuel Hfuel). cbn [bind].
  rewrite E. destruct sites. reflexivity.
Qed.







(** ** The interfering cells of a serving cell away from the rim *)



(** ** Where the hexagons lie *)

(** The anchors of a grid lie between the first anchor and the ends. *)
Lemma grid_anchors (p b w h origx endx endy xoffset yoffset : R) (ns : list nat) :
  0 <= w -> 0 <= xoffset -> 0 <= yoffset ->
  forall (sy : R) (r : Z) (q : Polygon),
    grid_counts w origx endx endy xoffset yoffset sy r ns ->
    In q (grid_polygons p b w h origx xoffset yoffset sy r ns) ->
    exists sx sy' : R,
      q = poly p b w h sx sy' /\ origx <= sx < endx /\ sy <= sy' < endy.
Proof.
  intros Hw Hx Hy. induction ns as [| n ns IH]; intros sy r q Hns Hq; simpl in Hq;
    [contradiction |].
  simpl in Hns. destruct Hns as (Hlt & Hin & _ & Hns).
  apply in_app_or in Hq. destruct Hq as [Hq | Hq].
  - apply in_row_polygons in Hq. destruct Hq as (j & Hj & ->).
    exists (row_origin origx xoffset r + INR j * w), sy. split; [reflexivity |].
    split; [| lra]. split; [| apply Hin, Hj].
    pose proof (pos_INR j). unfold row_origin. destruct (r mod 2 =? 0)%Z; nra.
  - destruct (IH _ _ _ Hns Hq) as (sx & sy' & -> & Hsx & Hsy).
    exists sx, sy'. split; [reflexivity |]. split; [exact Hsx | lra].
Qed.



(** ** Moving the rectangle *)

Lemma grid_counts_translate (w origx endx endy xoffset yoffset dx dy : R)
  (ns : list nat) :
  forall (sy : R) (r : Z),
    grid_counts w origx endx endy xoffset yoffset sy r ns ->
    grid_counts w (origx + dx) (endx + dx) (endy + dy) xoffset yoffset (sy + dy) r ns.
Proof.
  induction ns as [| n ns IH]; intros sy r Hns; simpl in *.
  - lra.
  - destruct Hns as (Hlt & Hin & Hout & Hns).
    assert (Erow : row_origin (origx + dx) xoffset r = row_origin origx xoffset r + dx).
    { unfold row_origin. destruct (r mod 2 =? 0)%Z; ring. }
    rewrite Erow.
    split; [lra |]. split; [intros j Hj; specialize (Hin j Hj); lra |].
    split; [lra |].
    replace (sy + dy + yoffset) with (sy + yoffset + dy) by ring.
    apply IH, Hns.
Qed.

Lemma poly_translate (p b w h sx sy dx dy : R) :
  poly p b w h (sx + dx) (sy + dy) = translate dx dy (poly p b w h sx sy).
Proof.
  unfold poly, translate. cbv zeta. cbn [map fst snd].
  repeat (f_equal; try ring).
Qed.

Lemma grid_polygons_translate (p b w h origx xoffset yoffset dx dy : R)
  (ns : list nat) :
  forall (sy : R) (r : Z),
    grid_polygons p b w h (origx + dx) xoffset yoffset (sy + dy) r ns =
    map (translate dx dy) (grid_polygons p b w h origx xoffset yoffset sy r ns).
Proof.
  induction ns as [| n ns IH]; intros sy r; simpl; [reflexivity |].
  rewrite map_app. f_equal.
  - unfold row_polygons. rewrite map_map. apply map_ext. intros j.
    rewrite <- poly_translate. f_equal.
    unfold row_origin. destruct (r mod 2 =? 0)%Z; ring.
  - replace (sy + dy + yoffset) with (sy + yoffset + dy) by ring. apply IH.
Qed.

(** X14.  Moving the rectangle moves the tessellation with it: for a
    positive radius the hexagons of the rectangle moved by [(dx, dy)] are
    the hexagons of the rectangle, each moved by [(dx, dy)], in the same
    order. *)
Theorem calculate_polygons_translate (startx starty endx endy radius dx dy : R) :
  0 < radius ->
  exists polygon : list Polygon,
    returns (fun fuel => calculate_polygons fuel startx starty endx endy radius) polygon /\
    returns (fun fuel => calculate_polygons fuel (startx + dx) (starty + dy)
                           (endx + dx) (endy + dy) radius)
            (map (translate dx dy) polygon).
Proof.
  intros Hr.
  destruct (calculate_polygons_returns startx starty endx endy radius Hr)
    as (ns & Hret & Hns).
  destruct (calculate_polygons_returns (startx + dx) (starty + dy) (endx + dx)
              (endy + dy) radius Hr) as (ns' & Hret' & Hns').
  exists (tessellation startx starty radius ns). split; [exact Hret |].
  apply (grid_counts_translate _ _ _ _ _ _ dx dy) in Hns.
  replace (startx - hex_w radius + dx) with (startx + dx - hex_w radius) in Hns by ring.
  replace (endx + hex_w radius + dx) with (endx + dx + hex_w radius) in Hns by ring.
  replace (endy + hex_h radius + dy) with (endy + dy + hex_h radius) in Hns by ring.
  replace (starty - hex_h radius + dy) with (starty + dy - hex_h radius) in Hns by ring.
  rewrite (grid_counts_unique _ _ _ _ _ _ _ _ _ _ Hns' Hns) in Hret'.
  unfold tessellation in *.
  rewrite <- grid_polygons_translate.
  replace (startx - hex_w radius + dx) with (startx + dx - hex_w radius) by ring.
  replace (starty - hex_h radius + dy) with (starty + dy - hex_h radius) by ring.
  exact Hret'.
Qed.

Lemma calculate_polygons_translate_witness :
  0 < 100 /\
  exists polygon : list Polygon,
    returns (fun fuel => calculate_polygons fuel 0 0 1000 1000 100) polygon /\
    returns (fun fuel => calculate_polygons fuel (0 + 250) (0 + 50)
                           (1000 + 250) (1000 + 50) 100)
            (map (translate 250 50) polygon).
Proof.
  assert (H1 : 0 < 100) by lra.
  split; [exact H1 |].
  exact (calculate_polygons_translate 0 0 1000 1000 100 250 50 H1).
Defined.

(** ** Few cells *)

(** X15.  Among at most seven cells with distinct [site_id]s every cell
    but the serving cell is interfering: the serving cell and the
    interfering cells together are the cells of the list, each once. *)
Theorem few_cells_all_interfere (hexagons : list feature) (geom_shape : Point) :
  hexagons <> [] ->
  Forall is_cell hexagons ->
  NoDup (map site_id hexagons) ->
  (List.length hexagons <= 7)%nat ->
  exists (serving : feature) (interfering : list feature),
    find_closest_cell_areas hexagons geom_shape = Ok ([serving], interfering) /\
    Permutation (serving :: interfering) hexagons.
Proof.
  intros Hne Hcells Hnd Hlen.
  destruct (selection_facts hexagons geom_shape Hne Hcells Hnd)
    as (serving & interfering & E & Hin & _ & Hids & Hincl & Hl & _).
  exists serving, interfering. split; [exact E |].
  apply NoDup_Permutation_bis.
  - apply (NoDup_map_inv site_id), Hids.
  - assert (Hpos : List.length hexagons <> 0%nat)
      by (destruct hexagons; [contradiction | discriminate]).
    cbn [List.length]. lia.
  - intros c [<- | Hc]; [exact Hin | apply Hincl, Hc].
Qed.

Lemma few_cells_all_interfere_witness :
  let hexagons := hexagons_from 0 (tessellation 0 0 100 [2; 2; 2]%nat) in
  hexagons <> [] /\
  Forall is_cell hexagons /\
  NoDup (map site_id hexagons) /\
  (List.length hexagons <= 7)%nat /\
  exists (serving : feature) (interfering : list feature),
    find_closest_cell_areas hexagons (0, 0) = Ok ([serving], interfering) /\
    Permutation (serving :: interfering) hexagons.
Proof.
  intros hexagons.
  destruct six_cells as (H0 & H1 & H2 & _ & H3 & _).
  assert (H4 : (List.length hexagons <= 7)%nat) by (subst hexagons; rewrite H0; repeat constructor).
  split; [exact H1 |]. split; [exact H2 |]. split; [exact H3 |]. split; [exact H4 |].
  exact (few_cells_all_interfere hexagons (0, 0) H1 H2 H3 H4).
Defined.

(** ** A larger rectangle *)

(** Every hexagon of a grid has its anchor in a row and a column that the
    loops reach. *)
Lemma grid_anchor_indices (p b w h origx endx endy xoffset yoffset : R)
  (ns : list nat) :
  forall (sy : R) (r : Z) (q : Polygon),
    grid_counts w origx endx endy xoffset yoffset sy r ns ->
    In q (grid_polygons p b w h origx xoffset yoffset sy r ns) ->
    exists k j : nat,
      q = poly p b w h (row_origin origx xoffset (r + Z.of_nat k) + INR j * w)
                       (sy + INR k * yoffset) /\
      row_origin origx xoffset (r + Z.of_nat k) + INR j * w < endx /\
      sy + INR k * yoffset < endy.
Proof.
  induction ns as [| n ns IH]; intros sy r q Hns Hq; simpl in Hq; [contradiction |].
  simpl in Hns. destruct Hns as (Hlt & Hin & _ & Hns).
  apply in_app_or in Hq. destruct Hq as [Hq | Hq].
  - apply in_row_polygons in Hq. destruct Hq as (j & Hj & ->).
    exists 0%nat, j. replace (r + Z.of_nat 0)%Z with r by lia.
    replace (sy + INR 0 * yoffset) with sy by (simpl; ring).
    split; [reflexivity |]. split; [apply Hin, Hj | exact Hlt].
  - destruct (IH _ _ _ Hns Hq) as (k & j & -> & Hx & Hy).
    exists (S k), j.
    replace (r + Z.of_nat (S k))%Z with (r + 1 + Z.of_nat k)%Z by lia.
    replace (sy + INR (S k) * yoffset) with (sy + yoffset + INR k * yoffset)
      by (rewrite S_INR; ring).
    split; [reflexivity |]. split; assumption.
Qed.

(** X16.  A rectangle that reaches further right and further up, from
    the same start, keeps all the hexagons: for a positive radius every
    hexagon of the smaller rectangle is a hexagon of the larger one. *)
Theorem larger_rectangle_keeps_hexagons (startx starty endx endy endx' endy' radius : R) :
  0 < radius ->
  endx <= endx' ->
  endy <= endy' ->
  exists polygon polygon' : list Polygon,
    returns (fun fuel => calculate_polygons fuel startx starty endx endy radius) polygon /\
    returns (fun fuel => calculate_polygons fuel startx starty endx' endy' radius)
            polygon' /\
    incl polygon polygon'.
Proof.
  intros Hr Hx Hy.
  pose proof (hex_p_pos radius Hr) as Hp. pose proof (hex_b_pos radius Hr) as Hb.
  destruct (calculate_polygons_returns startx starty endx endy radius Hr)
    as (ns & Hret & Hns).
  destruct (calculate_polygons_returns startx starty endx' endy' radius Hr)
    as (ns' & Hret' & Hns').
  exists (tessellation startx starty radius ns), (tessellation startx starty radius ns').
  split; [exact Hret |]. split; [exact Hret' |].
  intros q Hq. unfold tessellation in *.
  destruct (grid_anchor_indices _ _ _ _ _ _ _ _ _ _ _ _ _ Hns Hq)
    as (k & j & -> & Hjx & Hky).
  apply (grid_polygons_complete _ _ _ _ _ (endx' + hex_w radius) (endy' + hex_h radius));
    try assumption; try lra.
  rewrite hex_w_eq. lra.
Qed.

Lemma larger_rectangle_keeps_hexagons_witness :
  0 < 100 /\ 1000 <= 2000 /\ 1000 <= 1500 /\
  exists polygon polygon' : list Polygon,
    returns (fun fuel => calculate_polygons fuel 0 0 1000 1000 100) polygon /\
    returns (fun fuel => calculate_polygons fuel 0 0 2000 1500 100) polygon' /\
    incl polygon polygon'.
Proof.
  assert (H1 : 0 < 100) by lra.
  assert (H2 : 1000 <= 2000) by lra.
  assert (H3 : 1000 <= 1500) by lra.
  split; [exact H1 |]. split; [exact H2 |]. split; [exact H3 |].
  exact (larger_rectangle_keeps_hexagons 0 0 1000 1000 2000 1500 100 H1 H2 H3).
Defined.

(** * The tessellator on binary64 numbers: properties *)

Module Binary64Facts.

Import Floats.
Local Open Scope float_scope.

Lemma pi_6_radians_30 :
  Binary64.pi / 6 = 0x1.0c152382d7365p-1 /\ Binary64.radians 30 = 0x1.0c152382d7365p-1.
Proof. split; vm_compute; reflexivity. Qed.

Section LoopFacts.

Variables (p b w h : float).
Variables (origx endx endy : float).
Variables (xoffset yoffset : float).

Local Abbreviation poly := (Binary64.poly p b w h).
Local Abbreviation while_startx := (Binary64.while_startx p b w h endx).
Local Abbreviation while_starty :=
  (Binary64.while_starty p b w h origx endx endy xoffset yoffset).

(** The loops only append. *)
Lemma binary64_while_startx_appends (fuel : nat) :
  forall st st' : Binary64.locals,
    while_startx fuel st = Ok st' ->
    exists l : list Binary64.Polygon,
      Binary64.polygons st' = Binary64.polygons st ++ l.
Proof.
  induction fuel as [| fuel IH]; intros st st' E; simpl in E;
    destruct (Binary64.startx st <? endx); try discriminate.
  - injection E as <-. exists []. symmetry. apply app_nil_r.
  - destruct (IH _ _ E) as [l Hl]. simpl in Hl.
    exists ([poly (Binary64.startx st) (Binary64.starty st)] ++ l).
    rewrite Hl, <- app_assoc. reflexivity.
  - injection E as <-. exists []. symmetry. apply app_nil_r.
Qed.

Lemma binary64_while_starty_appends (fuel : nat) :
  forall st st' : Binary64.locals,
    while_starty fuel st = Ok st' ->
    exists l : list Binary64.Polygon,
      Binary64.polygons st' = Binary64.polygons st ++ l.
Proof.
  induction fuel as [| fuel IH]; intros st st' E; simpl in E;
    destruct (Binary64.starty st <? endy); try discriminate.
  - injection E as <-. exists []. symmetry. apply app_nil_r.
  - destruct (while_startx fuel (Binary64.row_begin origx xoffset st))
      as [st1 | e |] eqn:E1; simpl in E; try discriminate.
    destruct (binary64_while_startx_appends _ _ _ E1) as [l1 Hl1]. simpl in Hl1.
    destruct (IH _ _ E) as [l2 Hl2]. simpl in Hl2.
    exists (l1 ++ l2). rewrite Hl2, Hl1, <- app_assoc. reflexivity.
  - injection E as <-. exists []. symmetry. apply app_nil_r.
Qed.

(** The loops raise no exception. *)
Lemma binary64_while_startx_no_raise (fuel : nat) :
  forall (st : Binary64.locals) (e : string), while_startx fuel st <> Raise e.
Proof.
  induction fuel as [| fuel IH]; intros st e; simpl;
    destruct (Binary64.startx st <? endx); try discriminate. apply IH.
Qed.

Lemma binary64_while_starty_no_raise (fuel : nat) :
  forall (st : Binary64.locals) (e : string), while_starty fuel st <> Raise e.
Proof.
  induction fuel as [| fuel IH]; intros st e; simpl;
    destruct (Binary64.starty st <? endy); try discriminate.
  destruct (while_startx fuel (Binary64.row_begin origx xoffset st))
    as [st1 | e1 |] eqn:E1; simpl; try discriminate.
  - apply IH.
  - exfalso. exact (binary64_while_startx_no_raise _ _ _ E1).
Qed.

(** A column loop whose step leaves [startx] where it is does not end. *)
Lemma binary64_while_startx_stuck (fuel : nat) :
  forall st : Binary64.locals,
    (Binary64.startx st <? endx) = true ->
    Binary64.startx st + w = Binary64.startx st ->
    while_startx fuel st = OutOfFuel.
Proof.
  induction fuel as [| fuel IH]; intros st Hlt Hw; simpl; rewrite Hlt;
    [reflexivity |].
  apply IH; simpl; rewrite Hw; assumption.
Qed.

(** The first row starts with the hexagon of the first anchor. *)
Lemma binary64_first_hexagon (fuel : nat) (sy : float) (st' : Binary64.locals) :
  (origx <? endx) = true ->
  (sy <? endy) = true ->
  while_starty fuel (Binary64.mkLocals origx sy 1 0 []) = Ok st' ->
  exists rest : list Binary64.Polygon,
    Binary64.polygons st' = poly origx sy :: rest.
Proof.
  intros Hx Hy E.
  destruct fuel as [| fuel]; cbn [Binary64.while_starty Binary64.starty] in E;
    rewrite Hy in E; [discriminate |].
  assert (Hb : Binary64.row_begin origx xoffset (Binary64.mkLocals origx sy 1 0 [])
               = Binary64.mkLocals origx sy 1 0 []) by reflexivity.
  rewrite Hb in E.
  destruct fuel as [| fuel]; cbn [Binary64.while_startx Binary64.startx] in E;
    rewrite Hx in E; [discriminate |].
  match type of E with
  | bind ?m _ = _ => destruct m as [st1 | e |] eqn:E1
  end; cbn [bind] in E; try discriminate.
  destruct (binary64_while_startx_appends _ _ _ E1) as [l1 Hl1].
  destruct (binary64_while_starty_appends _ _ _ E) as [l2 Hl2].
  cbn [Binary64.column_step Binary64.row_end Binary64.polygons Binary64.startx
       Binary64.starty app] in Hl1, Hl2.
  exists (l1 ++ l2). rewrite Hl2, Hl1. reflexivity.
Qed.

End LoopFacts.

Lemma binary64_calculate_polygons_eq (tan cos : float -> float) (fuel : nat)
  (startx starty endx endy radius : float) :
  Binary64.calculate_polygons tan cos fuel startx starty endx endy radius =
  (st <- Binary64.while_starty
           (Binary64.hex_p tan radius) (Binary64.hex_b tan cos radius)
           (Binary64.hex_w tan cos radius) (Binary64.hex_h tan radius)
           (startx - Binary64.hex_w tan cos radius)
           (endx + Binary64.hex_w tan cos radius)
           (endy + Binary64.hex_h tan radius)
           (Binary64.hex_b tan cos radius) (3 * Binary64.hex_p tan radius) fuel
           (Binary64.mkLocals (startx - Binary64.hex_w tan cos radius)
              (starty - Binary64.hex_h tan radius) 1 0 []) ;;
   Ok (Binary64.polygons st)).
Proof. reflexivity. Qed.



(** The run of the witness returns: a rectangle that is the point
    [(0, 0)] gets six hexagons for the radius 1. *)
Example binary64_point_rectangle :
  exists polygon : list Binary64.Polygon,
    Binary64.calculate_polygons (fun _ => Binary64.tan_pi_6) (fun _ => Binary64.cos_pi_6)
      10 0 0 0 0 1 = Ok polygon /\
    List.length polygon = 6%nat.
Proof. eexists. split; [vm_compute; reflexivity | reflexivity]. Qed.


(** X18.  Nor does every run return.  When the shifted start compares
    below the shifted end on both axes and adding the hexagon width to
    the first anchor gives the first anchor again, because the width is
    lost to rounding, the column loop of the first row never ends:
    [startx += w] leaves [startx] where it is. *)
Theorem binary64_absorbed_width_diverges (tan cos : float -> float) (fuel : nat)
  (startx starty endx endy radius : float) :
  (startx - Binary64.hex_w tan cos radius <? endx + Binary64.hex_w tan cos radius) = true ->
  (starty - Binary64.hex_h tan radius <? endy + Binary64.hex_h tan radius) = true ->
  startx - Binary64.hex_w tan cos radius + Binary64.hex_w tan cos radius
  = startx - Binary64.hex_w tan cos radius ->
  Binary64.calculate_polygons tan cos fuel startx starty endx endy radius = OutOfFuel.
Proof.
  intros Hx Hy Hw. rewrite binary64_calculate_polygons_eq.
  destruct fuel as [| fuel]; cbn [Binary64.while_starty Binary64.starty];
    rewrite Hy; [reflexivity |].
  match goal with
  | |- context [Binary64.row_begin ?o ?xo ?st] =>
      change (Binary64.row_begin o xo st) with st
  end.
  rewrite binary64_while_startx_stuck; [reflexivity | exact Hx | exact Hw].
Qed.

Lemma binary64_absorbed_width_diverges_witness :
  (1e17 - Binary64.hex_w (fun _ => Binary64.tan_pi_6) (fun _ => Binary64.cos_pi_6) 1
   <? 1e17 + 64 + Binary64.hex_w (fun _ => Binary64.tan_pi_6) (fun _ => Binary64.cos_pi_6) 1)
  = true /\
  (0 - Binary64.hex_h (fun _ => Binary64.tan_pi_6) 1
   <? 1 + Binary64.hex_h (fun _ => Binary64.tan_pi_6) 1) = true /\
  1e17 - Binary64.hex_w (fun _ => Binary64.tan_pi_6) (fun _ => Binary64.cos_pi_6) 1
  + Binary64.hex_w (fun _ => Binary64.tan_pi_6) (fun _ => Binary64.cos_pi_6) 1
  = 1e17 - Binary64.hex_w (fun _ => Binary64.tan_pi_6) (fun _ => Binary64.cos_pi_6) 1 /\
  Binary64.calculate_polygons (fun _ => Binary64.tan_pi_6) (fun _ => Binary64.cos_pi_6)
    1000 1e17 0 (1e17 + 64) 1 1 = OutOfFuel.
Proof.
  split; [reflexivity |]. split; [reflexivity |]. split; [reflexivity |].
  apply (binary64_absorbed_width_diverges (fun _ => Binary64.tan_pi_6)
           (fun _ => Binary64.cos_pi_6) 1000 1e17 0 (1e17 + 64) 1 1); reflexivity.
Defined.

(** Rounding decides the number of hexagons in a row.  In exact
    arithmetic the rectangle of a point buffered by twice the radius gets
    five rows of four hexagons; for the point [(0, 0)] and the radius 7
    the half width [b] rounds to 6.999999999999999, the fifth anchor of
    a row that is not shifted falls just left of the end, and the run
    returns 23 hexagons. *)
Example binary64_buffered_point_radius_7 :
  Binary64.hex_b (fun _ => Binary64.tan_pi_6) (fun _ => Binary64.cos_pi_6) 7
  = 0x1.bffffffffffffp+2 /\
  exists polygon : list Binary64.Polygon,
    Binary64.calculate_polygons (fun _ => Binary64.tan_pi_6) (fun _ => Binary64.cos_pi_6)
      30 (-14) (-14) 14 14 7 = Ok polygon /\
    List.length polygon = 23%nat.
Proof.
  split; [vm_compute; reflexivity |].
  eexists. split; [vm_compute; reflexivity | reflexivity].
Qed.

End Binary64Facts.
